(** * Wolves and sheep: the solution table of [main_wolfy.cc]

    A shallow embedding of the strategy record, the solution table and
    its update operation, the closed-form base cases, the derivation
    cascade and the two textual encodings, followed by the properties
    proved about them. *)

From Stdlib Require Import ZArith Ascii String Lia.
From stdpp Require Import gmap list sorting.

Local Open Scope Z_scope.

(** ** Outcomes of a run

    The program stops on a failed [assert]; a few places index a vector
    out of range or shift by the width of the type, which C++ leaves
    undefined.  Recursive and looping code is given fuel.

    An [int] is a [Z].  The sums and differences taken on keys and test
    counts ([n-1], [n+1], [n+2], [d+1], [t+1]) stay far inside [int] for
    any table that fits in memory and are plain [Z] arithmetic; where
    the width of a type decides what happens (the doubling of [bit],
    the 64-bit words of the packed format, numbers read from the store)
    it is written out. *)

Inductive assertion :=
| A_key             (* assert(0 <= n); assert(0 <= d && d <= n) *)
| A_guaranteed_best (* "found something better than the guaranteed best" *)
| A_overwritten     (* assert(overwritten) *)
| A_most_tested     (* assert(most_tested_count >= 2) *)
| A_header          (* "input file contained malformed lines" *)
| A_marker          (* assert(word == "emathgroup") *)
| A_hex             (* "emathgroup format contained malformed lines" *)
| A_hex_range       (* assert(0 <= bits && bits < (1uLL << t)) *)
| A_row_length      (* "input file contained malformed solution" *)
| A_after_grid      (* "... malformed lines after the first grid" *)
| E_length_error.   (* uncaught std::length_error, which ends the run alike *)

Inductive outcome (A : Type) :=
| Ok (a : A)
| AssertFail (a : assertion)
| Undefined
| OutOfFuel.
Arguments Ok {A} a.
Arguments AssertFail {A} a.
Arguments Undefined {A}.
Arguments OutOfFuel {A}.

Definition outcome_bind {A B} (f : A -> outcome B) (x : outcome A) : outcome B :=
  match x with
  | Ok a => f a
  | AssertFail a => AssertFail a
  | Undefined => Undefined
  | OutOfFuel => OutOfFuel
  end.

#[global] Instance outcome_mbind : MBind outcome := @outcome_bind.
#[global] Instance outcome_mret : MRet outcome := @Ok.

Definition assert (b : bool) (a : assertion) : outcome unit :=
  if b then Ok tt else AssertFail a.

(** The run did not need more fuel: it returned, stopped on an
    assertion, or reached one of the undefined reads. *)
Definition finished {A} (x : outcome A) : Prop := x <> OutOfFuel.

(** ** Strategies *)

Module GuaranteedBest.
Inductive t := Yes | No.
Definition eqb (a b : t) : bool :=
  match a, b with Yes, Yes | No, No => true | _, _ => false end.
End GuaranteedBest.

Module BelongsInFile.
Inductive t := Yes | No.
Definition eqb (a b : t) : bool :=
  match a, b with Yes, Yes | No, No => true | _, _ => false end.
End BelongsInFile.

(** A row is a [std::string], one character per animal.  The source
    keeps [tests] as a closure producing the rows; every closure in the
    program is pure and captures immutable data, so the field holds the
    rows it would produce.  [t] is stored apart from the rows, as in the
    source. *)
Abbreviation row := (list ascii).

Record Strategy := mkStrategy {
  tests : list row;
  t : Z;
  guaranteed_best : GuaranteedBest.t;
  belongs_in_file : BelongsInFile.t;
}.

(** Rows written as string literals. *)
Definition rows_of (l : list string) : list row :=
  map list_ascii_of_string l.

(** [Strategy(std::vector<std::string> testvec, gb, bf)] *)
Definition Strategy_of_vec (testvec : list row)
    (gb : GuaranteedBest.t) (bf : BelongsInFile.t) : Strategy :=
  mkStrategy testvec (Z.of_nat (length testvec)) gb bf.

Definition set_belongs_in_file (s : Strategy) (bf : BelongsInFile.t) : Strategy :=
  mkStrategy (tests s) (t s) (guaranteed_best s) bf.

Definition isBetterThan (lhs rhs : Strategy) : bool :=
  if negb (t lhs =? t rhs) then t lhs <? t rhs
  else if negb (GuaranteedBest.eqb (guaranteed_best lhs) (guaranteed_best rhs))
       then GuaranteedBest.eqb (guaranteed_best lhs) GuaranteedBest.Yes
  else false.

(** The order [isBetterThan] decides, as a proposition. *)
Definition better (s cur : Strategy) : Prop :=
  t s < t cur \/
  (t s = t cur /\ guaranteed_best s = GuaranteedBest.Yes
               /\ guaranteed_best cur = GuaranteedBest.No).

Definition empty_strategy : Strategy :=
  Strategy_of_vec [] GuaranteedBest.Yes BelongsInFile.No.

(** [std::string(n, '.')] with [tests.back()[i] = '1'] *)
Definition unit_row (n : Z) (i : nat) : row :=
  <[i := "1"%char]> (replicate (Z.to_nat n) "."%char).

Definition worst_case_tests (n : Z) : list row :=
  map (unit_row n) (seq 0 (Z.to_nat (n - 1))).

Definition worst_case_strategy (n : Z) (gb : GuaranteedBest.t) : Strategy :=
  mkStrategy (worst_case_tests n) (n - 1) gb BelongsInFile.No.

(** ** The solution table

    [std::map<ND, std::shared_ptr<Strategy>>]; the key order (d, then n)
    only matters for iteration. *)

Abbreviation ND := (Z * Z)%type.
Abbreviation table := (gmap (Z * Z) Strategy).

(** [m.insert(std::make_pair(k, s))]: no effect when the key is present. *)
Definition map_insert_new (m : table) (k : ND) (s : Strategy) : table :=
  match m !! k with
  | Some _ => m
  | None => <[k := s]> m
  end.

(** What [overwrite_if_better] stores.  The candidate is a shared
    pointer whose [belongs_in_file] field is set in place before it is
    stored.  The candidates of the cascade are fresh objects, and the
    one [preserve_from_file] passes on comes from the store with the
    flag already set, so no other holder sees a change. *)
Definition installed (strategy cur : Strategy) : Strategy :=
  if BelongsInFile.eqb (belongs_in_file cur) BelongsInFile.Yes
  then set_belongs_in_file strategy BelongsInFile.Yes
  else strategy.

(** The diagnostic [printf] is left out. *)
Definition overwrite_if_better (m : table) (n d : Z) (strategy : Strategy)
    : outcome (table * bool) :=
  assert (0 <=? n) A_key ;;
  assert ((0 <=? d) && (d <=? n)) A_key ;;
  match m !! (n, d) with
  | None => Ok (m, false)
  | Some cur =>
      if isBetterThan strategy cur then
        assert (GuaranteedBest.eqb (guaranteed_best cur) GuaranteedBest.No)
               A_guaranteed_best ;;
        Ok (<[(n, d) := installed strategy cur]> m, true)
      else Ok (m, false)
  end.

Definition preserve_from_file (m : table) (n d : Z) (strategy : Strategy)
    : outcome table :=
  let m1 := map_insert_new m (n, d) (worst_case_strategy n GuaranteedBest.No) in
  '(m2, overwritten) ← overwrite_if_better m1 n d strategy ;
  assert overwritten A_overwritten ;;
  Ok m2.

(** A sequence of table updates, as issued by the derivation rules. *)
Fixpoint run_updates (m : table) (ups : list (Z * Z * Strategy)) : outcome table :=
  match ups with
  | [] => Ok m
  | (n, d, s) :: ups' =>
      '(m', _) ← overwrite_if_better m n d s ;
      run_updates m' ups'
  end.


(** ** Closed-form base cases *)

(** [int] is 32 bits wide; [bit <<= 1] on an [int] keeps the low 32 bits
    (two's complement, as C++20 defines it). *)
Definition wrap_int (z : Z) : Z := (z + 2 ^ 31) mod 2 ^ 32 - 2 ^ 31.

(** One pass of the inner loop of [perfect_strategy_for_one_wolf]:
    [tests.back()[i] = ((i & bit) ? '1' : '.')] for [i] in [0, n). *)
Definition one_wolf_row (n bit : Z) : row :=
  map (fun i : nat => if Z.land (Z.of_nat i) bit =? 0 then "."%char else "1"%char)
      (seq 0 (Z.to_nat n)).

(** [for (int bit = 1; bit < n; bit <<= 1)].  For [n] above 2^30 the
    shift wraps to a negative value and then to zero, and the loop never
    ends; 33 rounds of fuel tell the two cases apart. *)
Fixpoint one_wolf_loop (fuel : nat) (n bit : Z) : outcome (list row) :=
  if bit <? n then
    match fuel with
    | O => OutOfFuel
    | S fuel' =>
        rest ← one_wolf_loop fuel' n (wrap_int (Z.shiftl bit 1));
        Ok (one_wolf_row n bit :: rest)
    end
  else Ok [].

Definition perfect_strategy_for_one_wolf (n : Z) : outcome Strategy :=
  rows ← one_wolf_loop 33 n 1;
  Ok (Strategy_of_vec rows GuaranteedBest.Yes BelongsInFile.No).

(** The strategy chosen for (n, d) in [add_easy_solutions]; [n/2] is
    C++ integer division. *)
Definition easy_strategy (n d : Z) : outcome Strategy :=
  if (d =? 0) || (d =? n) then Ok empty_strategy
  else if d =? 1 then perfect_strategy_for_one_wolf n
  else if d >=? Z.quot n 2 then Ok (worst_case_strategy n GuaranteedBest.Yes)
  else Ok (worst_case_strategy n GuaranteedBest.No).

(** [for (int d=0; d <= n; ++d)], over the values of [d] still to do. *)
Fixpoint add_easy_row (ds : list Z) (n : Z) (m : table) : outcome table :=
  match ds with
  | [] => Ok m
  | d :: ds' =>
      strategy ← easy_strategy n d;
      add_easy_row ds' n (map_insert_new m (n, d) strategy)
  end.

(** [for (int n=0; n <= max_n; ++n)], over the values of [n] still to do. *)
Fixpoint add_easy_rows (ns : list Z) (m : table) : outcome table :=
  match ns with
  | [] => Ok m
  | n :: ns' =>
      m' ← add_easy_row (seqZ 0 (n + 1)) n m;
      add_easy_rows ns' m'
  end.

Definition add_easy_solutions (m : table) (max_n : Z) : outcome table :=
  add_easy_rows (seqZ 0 (max_n + 1)) m.

(** Character [i] of test [r], when both exist. *)
Definition cell (rows : list row) (r i : nat) : option ascii :=
  rows !! r ≫= (.!! i).

(** ** Transformations of a strategy *)

(** [test[i]] on a [std::string]: the character, the terminating null
    character at [i = size()], undefined beyond. *)
Definition string_at (s : row) (i : nat) : outcome ascii :=
  match s !! i with
  | Some c => Ok c
  | None => if decide (i = length s) then Ok "000"%char else Undefined
  end.

Definition is_one (c : ascii) : bool := Ascii.eqb c "1"%char.

(** [test[i] == '1'] once the read is known to be in range. *)
Definition positive_at (i : nat) (test : row) : bool :=
  match test !! i with
  | Some c => is_one c
  | None => false
  end.

Definition test_last_animal_individually (n : Z) (orig : Strategy) : Strategy :=
  mkStrategy
    (map (fun test => test ++ ["."%char]) (tests orig)
       ++ [replicate (Z.to_nat n) "."%char ++ ["1"%char]])
    (t orig + 1)
    GuaranteedBest.No
    BelongsInFile.No.

(** [for (int i=0; i < n; ++i) counts[i] += (test[i] == '1')], over the
    indices still to visit. *)
Fixpoint add_row_counts (test : row) (idxs : list nat) (counts : list Z)
    : outcome (list Z) :=
  match idxs with
  | [] => Ok counts
  | i :: idxs' =>
      c ← string_at test i;
      add_row_counts test idxs' (alter (fun x => x + Z.b2z (is_one c)) i counts)
  end.

Fixpoint count_tests (tsts : list row) (n : nat) (counts : list Z)
    : outcome (list Z) :=
  match tsts with
  | [] => Ok counts
  | test :: rest =>
      counts' ← add_row_counts test (seq 0 n) counts;
      count_tests rest n counts'
  end.

(** [std::max_element]: the first position holding the greatest value;
    [best_idx] holds [best], and [l] starts at position [i]. *)
Fixpoint max_element_from (best_idx : nat) (best : Z) (i : nat) (l : list Z) : nat :=
  match l with
  | [] => best_idx
  | x :: l' =>
      if best <? x then max_element_from i x (S i) l'
      else max_element_from best_idx best (S i) l'
  end.

(** [std::max_element(begin, end) - begin]; on an empty range the result
    is [end], at distance 0. *)
Definition max_element (l : list Z) : nat :=
  match l with
  | [] => O
  | x :: l' => max_element_from 0 x 1 l'
  end.

(** The two arguments [tests.size()] and
    [[most_tested_idx, captured_tests = std::move(tests)] ...] of the
    call that builds the result are evaluated in an order the language
    leaves open.  Evaluating the closure first moves the rows out of
    [tests], whose size is then 0.  A build fixes one of the two. *)
Inductive eval_order :=
| SizeFirst     (* [tests.size()], then the capture *)
| CaptureFirst. (* the capture, then [tests.size()] of the emptied vector *)

(** [tests[0]] of an empty vector and [counts[0]] of an empty vector are
    undefined.  The rows are filtered and counted when the function is
    called; the column is erased when the stored closure is run, which
    here is the [tests] field.  [test.erase(test.begin() + idx)] at or
    past the end of a row is undefined; the code meets it when the
    closure is run, the model reports it when the candidate is built,
    so a result [Ok] is a candidate whose closure has a defined value. *)
Definition replace_most_tested_animal (order : eval_order) (orig : Strategy)
    (with_wolf : bool) : outcome Strategy :=
  let tsts := tests orig in
  match tsts with
  | [] => Undefined
  | first :: _ =>
      let n := length first in
      counts ← count_tests tsts n (replicate n 0);
      let most_tested_idx := max_element counts in
      match counts !! most_tested_idx with
      | None => Undefined
      | Some most_tested_count =>
          assert (2 <=? most_tested_count) A_most_tested ;;
          let kept :=
            if with_wolf
            then List.filter (fun test => negb (positive_at most_tested_idx test)) tsts
            else tsts in
          let size := match order with
                      | SizeFirst => length kept
                      | CaptureFirst => O
                      end in
          if forallb (fun test : row => Nat.ltb most_tested_idx (length test)) kept
          then Ok (mkStrategy (map (delete most_tested_idx) kept)
                              (Z.of_nat size)
                              GuaranteedBest.No BelongsInFile.No)
          else Undefined
      end
  end.

(** Number of tests that are positive for item [i]. *)
Definition column_count (tsts : list row) (i : nat) : Z :=
  Z.of_nat (length (List.filter (positive_at i) tsts)).

(** ** The derivation cascade *)

(** [kv] is a reference to a key/strategy pair: the pair handed in by
    [main], which lives in another map, or [*m.find(k)], a node of the
    table itself.  In the second case [kv.second] is read through the
    reference each time, so it follows the updates made to that node by
    the calls in between. *)
Inductive kvref :=
| Pair (k : ND) (strategy : Strategy)
| Node (k : ND).

Definition kv_first (kv : kvref) : ND :=
  match kv with Pair k _ => k | Node k => k end.

Definition kv_second (m : table) (kv : kvref) : outcome Strategy :=
  match kv with
  | Pair _ strategy => Ok strategy
  | Node k =>
      match m !! k with
      | Some strategy => Ok strategy
      | None => Undefined
      end
  end.

(** [if (overwrite_if_better(m, n', d', cand))
       add_solutions_derived_from(m, *m.find(ND{n', d'}));] *)
Definition propose (recur : table -> ND -> outcome table)
    (m : table) (k : ND) (cand : Strategy) : outcome table :=
  '(m', improved) ← overwrite_if_better m k.1 k.2 cand;
  if improved : bool then recur m' k else Ok m'.

(** Rules 1 and 2: remove the most tested animal, as a sheep and as a wolf. *)
Definition rule_remove (order : eval_order)
    (recur : table -> ND -> outcome table)
    (m : table) (kv : kvref) (n d t0 : Z) : outcome table :=
  if (2 <=? d) && (d <? n) && (t0 <? n - 1) then
    strategy ← kv_second m kv;
    smaller_strategy ← replace_most_tested_animal order strategy false;
    m ← propose recur m (n - 1, d) smaller_strategy;
    if d - 1 >=? 2 then
      strategy ← kv_second m kv;
      smaller_strategy ← replace_most_tested_animal order strategy true;
      propose recur m (n - 1, d - 1) smaller_strategy
    else Ok m
  else Ok m.

(** Rule 3: the same tests serve for one wolf fewer. *)
Definition rule_relax (recur : table -> ND -> outcome table)
    (m : table) (kv : kvref) (n d t0 : Z) : outcome table :=
  if (2 <? d) && (d <? n - 1) && (t0 <? n - 1) then
    strategy ← kv_second m kv;
    let r := mkStrategy (tests strategy) (t strategy)
                        GuaranteedBest.No BelongsInFile.No in
    propose recur m (n, d - 1) r
  else Ok m.

(** Rule 4: one more animal, tested on its own. *)
Definition rule_pad (recur : table -> ND -> outcome table)
    (m : table) (kv : kvref) (n d t0 : Z) : outcome table :=
  if (2 <=? d) && (d <? n) && (t0 <? n - 1) then
    strategy ← kv_second m kv;
    propose recur m (n + 1, d) (test_last_animal_individually n strategy)
  else Ok m.

(** Rule 5: the worst case carries over to two more animals and one
    more wolf. *)
Definition rule_double (recur : table -> ND -> outcome table)
    (m : table) (kv : kvref) (n d : Z) : outcome table :=
  strategy ← kv_second m kv;
  if t strategy =? n - 1 then
    propose recur m (n + 2, d + 1)
            (worst_case_strategy (n + 2) (guaranteed_best strategy))
  else Ok m.

(** [int t = strategy->t] is read once on entry; the guards of rules 1
    to 4 use that copy, rule 3's candidate and rule 5 read
    [strategy->t] again. *)
Fixpoint add_solutions_derived_from (order : eval_order) (fuel : nat) (m : table)
    (kv : kvref)
    : outcome table :=
  match fuel with
  | O => OutOfFuel
  | S fuel' =>
      let recur := fun m' k => add_solutions_derived_from order fuel' m' (Node k) in
      let n := (kv_first kv).1 in
      let d := (kv_first kv).2 in
      strategy ← kv_second m kv;
      let t0 := t strategy in
      m ← rule_remove order recur m kv n d t0;
      m ← rule_relax recur m kv n d t0;
      m ← rule_pad recur m kv n d t0;
      rule_double recur m kv n d
  end.

(** ** Measure of a table

    [rank] counts what is left to improve on an entry above a floor
    [lo] on test counts; [weight] adds it up over a list of keys. *)
Definition rank (lo : Z) (s : Strategy) : nat :=
  Z.to_nat (2 * (t s - lo)
            + (if GuaranteedBest.eqb (guaranteed_best s) GuaranteedBest.No
               then 1 else 0)).

Definition rank_at (lo : Z) (m : table) (k : ND) : nat :=
  match m !! k with
  | Some s => rank lo s
  | None => O
  end.

Definition weight (lo : Z) (ks : list ND) (m : table) : nat :=
  sum_list (map (rank_at lo m) ks).

(** Every stored test count is at least [lo], and every key is in [ks]. *)
Definition bounded (lo : Z) (ks : list ND) (m : table) : Prop :=
  forall k s, m !! k = Some s -> lo <= t s /\ k ∈ ks.

(** The column of item [i], and the first test positive for it. *)
Definition column (tsts : list row) (i : nat) : list bool :=
  map (positive_at i) tsts.

Fixpoint first_positive (tsts : list row) (i : nat) : option nat :=
  match tsts with
  | [] => None
  | test :: rest =>
      if positive_at i test then Some O else S <$> first_positive rest i
  end.

(** [T] rows of [N] characters each. *)
Definition well_formed (N : nat) (tsts : list row) : Prop :=
  Forall (fun test => length test = N) tsts.

(** What a step of the cascade delivers from a table of weight at most
    [w]: it ends, and a table it returns is bounded and no heavier. *)
Definition settles (lo : Z) (ks : list ND) (w : nat) (x : outcome table) : Prop :=
  finished x /\
  forall m', x = Ok m' -> bounded lo ks m' /\ (weight lo ks m' <= w)%nat.

(** The floor also holds for the strategy [kv] refers to. *)
Definition kv_bounded (lo : Z) (kv : kvref) : Prop :=
  match kv with
  | Pair _ strategy => lo <= t strategy
  | Node _ => True
  end.

(** [r2] agrees with [r1] wherever [r1] does not run out of fuel. *)
Definition extends (r1 r2 : table -> ND -> outcome table) : Prop :=
  forall m k, finished (r1 m k) -> r2 m k = r1 m k.

(** ** Writing a strategy *)

(** The digit characters of [operator<<] for integers: 0-9 and, in
    [std::hex], a-f. *)
Definition digit_char (v : Z) : ascii :=
  if v <? 10 then ascii_of_nat (48 + Z.to_nat v)
  else ascii_of_nat (87 + Z.to_nat v).

(** Digits of [v] in [base], most significant first, in front of [acc];
    [fuel] bounds the number of digits. *)
Fixpoint digits_loop (base : Z) (fuel : nat) (v : Z) (acc : list ascii)
    : list ascii :=
  match fuel with
  | O => acc
  | S fuel' =>
      let acc' := digit_char (v mod base) :: acc in
      if v <? base then acc' else digits_loop base fuel' (v / base) acc'
  end.

(** [oss << n] for an [int]: at most ten decimal digits. *)
Definition print_int (v : Z) : list ascii :=
  if v <? 0 then "-"%char :: digits_loop 10 10 (- v) []
  else digits_loop 10 10 v [].

(** [to_hex]: an [unsigned long long] in lower-case hexadecimal. *)
Definition to_hex (bits : Z) : list ascii := digits_loop 16 16 bits [].

Definition newline : ascii := "010"%char.

Definition header_line (n d : Z) (s : Strategy) : list ascii :=
  list_ascii_of_string "N=" ++ print_int n
  ++ list_ascii_of_string " D=" ++ print_int d
  ++ list_ascii_of_string " T=" ++ print_int (t s)
  ++ list_ascii_of_string " guaranteed_best="
  ++ [if GuaranteedBest.eqb (guaranteed_best s) GuaranteedBest.Yes
      then "1"%char else "0"%char].

Definition header (n d : Z) (s : Strategy) : list ascii :=
  header_line n d s ++ [newline].

(** [Strategy::to_string]: the header, then every row on a line. *)
Definition to_string (n d : Z) (s : Strategy) : list ascii :=
  header n d s ++ concat (map (fun test => test ++ [newline]) (tests s)).

(** [concrete_tests[r]]: undefined past the end of the vector. *)
Definition test_at (tsts : list row) (r : nat) : outcome row :=
  match tsts !! r with
  | Some test => Ok test
  | None => Undefined
  end.

(** [for (int r = t-1; r >= 0; --r)
       bits = ((bits << 1) | (concrete_tests[r][c] == '1'));]
    over the [r] rows still to visit, highest first; [bits] is an
    [unsigned long long], so the shift drops what leaves 64 bits. *)
Fixpoint pack_column (tsts : list row) (c : nat) (r : nat) (bits : Z) : outcome Z :=
  match r with
  | O => Ok bits
  | S r' =>
      test ← test_at tsts r';
      ch ← string_at test c;
      pack_column tsts c r'
        (Z.lor (Z.shiftl bits 1 mod 2 ^ 64) (Z.b2z (is_one ch)))
  end.

(** The loop over the columns of [to_emathgroup_string], with the
    running width of the output line. *)
Fixpoint emathgroup_words (tsts : list row) (tcount : Z) (cs : list nat)
    (wordwrap : Z) : outcome (list ascii) :=
  match cs with
  | [] => Ok []
  | c :: cs' =>
      bits ← pack_column tsts c (Z.to_nat tcount) 0;
      let hexbits := to_hex bits in
      let size := Z.of_nat (length hexbits) in
      if wordwrap + 1 + size >? 75 then
        rest ← emathgroup_words tsts tcount cs' size;
        Ok (newline :: hexbits ++ rest)
      else
        rest ← emathgroup_words tsts tcount cs' (wordwrap + 1 + size);
        Ok (" "%char :: hexbits ++ rest)
  end.

Definition to_emathgroup_string (n d : Z) (s : Strategy) : outcome (list ascii) :=
  words ← emathgroup_words (tests s) (t s) (seq 0 (Z.to_nat n)) 10;
  Ok (header n d s ++ list_ascii_of_string "emathgroup" ++ words ++ [newline]).

(** One record of [write_solutions_to_file]: the packed form above 150
    animals, the grid otherwise, followed by an empty line. *)
Definition write_record (n d : Z) (s : Strategy) : outcome (list ascii) :=
  text ← (if n >? 150 then to_emathgroup_string n d s else Ok (to_string n d s));
  Ok (text ++ [newline]).

(** ** Reading the store

    The input stream: the characters not yet read and whether the
    stream is still [good()].  Once it is not, every read fails and
    leaves its target as it was. *)
Record istream := mkStream {
  buf : list ascii;
  good : bool;
}.

(** [isspace] in the C locale. *)
Definition is_space (c : ascii) : bool :=
  let k := nat_of_ascii c in
  Nat.eqb k 32 || (Nat.leb 9 k && Nat.leb k 13).

Fixpoint skip_ws (s : list ascii) : list ascii :=
  match s with
  | c :: s' => if is_space c then skip_ws s' else s
  | [] => []
  end.

Fixpoint take_word (s : list ascii) : list ascii * list ascii :=
  match s with
  | c :: s' =>
      if is_space c then ([], s)
      else let '(w, r) := take_word s' in (c :: w, r)
  | [] => ([], [])
  end.

(** [infile >> word]: skips white space and reads up to the next white
    space; reaching the end of the input sets [eofbit].  On failure
    [word] keeps its old value. *)
Definition read_word (st : istream) (word : list ascii) : istream * list ascii :=
  if good st then
    match skip_ws (buf st) with
    | [] => (mkStream [] false, word)
    | s =>
        let '(w, r) := take_word s in
        (mkStream r (match r with [] => false | _ => true end), w)
    end
  else (st, word).

(** Characters up to the next newline, and what follows it if there is one. *)
Fixpoint split_line (s : list ascii) : list ascii * option (list ascii) :=
  match s with
  | [] => ([], None)
  | c :: s' =>
      if Ascii.eqb c newline then ([], Some s')
      else let '(l, r) := split_line s' in (c :: l, r)
  end.

(** [std::getline(infile, line)]: success, the stream, and [line]. *)
Definition getline (st : istream) (line : list ascii)
    : bool * istream * list ascii :=
  if good st then
    match buf st with
    | [] => (false, mkStream [] false, [])
    | s =>
        match split_line s with
        | (l, Some r) => (true, mkStream r true, l)
        | (l, None) => (true, mkStream [] false, l)
        end
    end
  else (false, st, line).

(** [char nextch = infile.get(); infile.putback(nextch);]: at the end of
    the input [get] returns [EOF], which becomes the character 255, and
    the stream fails. *)
Definition peek (st : istream) : ascii * istream :=
  if good st then
    match buf st with
    | c :: _ => (c, st)
    | [] => ("255"%char, mkStream [] false)
    end
  else ("255"%char, st).

(** The value of a digit character in [base], if it is one. *)
Definition digit_value (base : Z) (c : ascii) : option Z :=
  let k := Z.of_nat (nat_of_ascii c) in
  let v := if (48 <=? k) && (k <=? 57) then k - 48
           else if (97 <=? k) && (k <=? 102) then k - 87
           else if (65 <=? k) && (k <=? 70) then k - 55
           else -1 in
  if (0 <=? v) && (v <? base) then Some v else None.

(** The longest run of digits, as a number, and what follows. *)
Fixpoint scan_digits (base : Z) (s : list ascii) (acc : Z) : Z * list ascii :=
  match s with
  | c :: s' =>
      match digit_value base c with
      | Some v => scan_digits base s' (acc * base + v)
      | None => (acc, s)
      end
  | [] => (acc, [])
  end.

Definition starts_with_digit (base : Z) (s : list ascii) : bool :=
  match s with
  | c :: _ => bool_decide (is_Some (digit_value base c))
  | [] => false
  end.

(** An optional sign. *)
Definition scan_sign (s : list ascii) : bool * list ascii :=
  match s with
  | c :: s' =>
      if Ascii.eqb c "-"%char then (true, s')
      else if Ascii.eqb c "+"%char then (false, s')
      else (false, s)
  | [] => (false, [])
  end.

(** A literal of the format string. *)
Fixpoint scan_lit (lit s : list ascii) : outcome (list ascii) :=
  match lit with
  | [] => Ok s
  | c :: lit' =>
      match s with
      | c' :: s' => if Ascii.eqb c c' then scan_lit lit' s' else AssertFail A_header
      | [] => AssertFail A_header
      end
  end.

(** [%d]: white space, a sign, decimal digits.  A value outside [int]
    has no defined result. *)
Definition scan_d (s : list ascii) : outcome (Z * list ascii) :=
  let '(neg, s1) := scan_sign (skip_ws s) in
  if starts_with_digit 10 s1 then
    let '(v, rest) := scan_digits 10 s1 0 in
    let v := if neg : bool then - v else v in
    if (- 2 ^ 31 <=? v) && (v <? 2 ^ 31) then Ok (v, rest) else Undefined
  else AssertFail A_header.

(** [sscanf(line, "N=%d D=%d T=%d guaranteed_best=%d", ...)] followed by
    [assert(rc == 4)]; a blank in the format skips any white space. *)
Definition sscanf_header (line : list ascii) : outcome (Z * Z * Z * Z) :=
  s ← scan_lit (list_ascii_of_string "N=") line;
  '(n, s) ← scan_d s;
  s ← scan_lit (list_ascii_of_string "D=") (skip_ws s);
  '(d, s) ← scan_d s;
  s ← scan_lit (list_ascii_of_string "T=") (skip_ws s);
  '(tc, s) ← scan_d s;
  s ← scan_lit (list_ascii_of_string "guaranteed_best=") (skip_ws s);
  '(gb, _) ← scan_d s;
  Ok (n, d, tc, gb).

(** An optional [0x] or [0X] in front of a hexadecimal digit. *)
Definition scan_hex_prefix (s : list ascii) : list ascii :=
  match s with
  | z :: x :: s' =>
      if Ascii.eqb z "0"%char
         && (Ascii.eqb x "x"%char || Ascii.eqb x "X"%char)
      then s' else s
  | _ => s
  end.

(** [sscanf(word, "%llx", &bits)] followed by [assert(rc == 1)]: white
    space, a sign, an optional [0x], hexadecimal digits; as [strtoull]
    does, a value that does not fit is the greatest one and a minus
    sign negates modulo 2^64. *)
Definition sscanf_llx (word : list ascii) : outcome Z :=
  let '(neg, s1) := scan_sign (skip_ws word) in
  let s2 := scan_hex_prefix s1 in
  if starts_with_digit 16 s2 then
    let '(v, _) := scan_digits 16 s2 0 in
    let v := if 2 ^ 64 <=? v then 2 ^ 64 - 1 else v in
    Ok (if neg : bool then (- v) mod 2 ^ 64 else v)
  else AssertFail A_hex.

(** [1uLL << t]: undefined unless [0 <= t < 64]. *)
Definition shl_1ull (tc : Z) : outcome Z :=
  if (0 <=? tc) && (tc <? 64) then Ok (2 ^ tc) else Undefined.

(** [for (int r = 0; r < t; ++r) {
       tests[r].push_back((bits & 1) ? '1' : '.'); bits >>= 1; }] *)
Fixpoint push_bits (tsts : list row) (bits : Z) : list row :=
  match tsts with
  | [] => []
  | test :: rest =>
      (test ++ [if Z.land bits 1 =? 0 then "."%char else "1"%char])
        :: push_bits rest (Z.shiftr bits 1)
  end.

(** One word of a packed record: the column of one animal. *)
Definition read_column (tc : Z) (st : istream) (word : list ascii)
    (tsts : list row) : outcome (list row * istream * list ascii) :=
  let '(st, word) := read_word st word in
  bits ← sscanf_llx word;
  limit ← shl_1ull tc;
  assert (bits <? limit) A_hex_range ;;
  Ok (push_bits tsts bits, st, word).

(** The loop over the [n] words of a packed record. *)
Fixpoint read_columns (n : nat) (tc : Z) (st : istream) (word : list ascii)
    (tsts : list row) : outcome (list row * istream) :=
  match n with
  | O => Ok (tsts, st)
  | S n' =>
      '(tsts, st, word) ← read_column tc st word tsts;
      read_columns n' tc st word tsts
  end.

(** The loop over the [t] lines of a grid; [line.size() == n] compares
    after converting [n] to [size_t]. *)
Fixpoint read_rows (count : nat) (n : Z) (st : istream) (line : list ascii)
    : outcome (list row * istream * list ascii) :=
  match count with
  | O => Ok ([], st, line)
  | S count' =>
      let '(_, st, line) := getline st line in
      assert (Z.of_nat (length line) =? n mod 2 ^ 64) A_row_length ;;
      '(rest, st, line') ← read_rows count' n st line;
      Ok (line :: rest, st, line')
  end.

(** The body of the reading loop for a line that starts with [N=], up to
    the construction of the strategy: key, strategy, stream, and the
    [line] variable.  [tests.resize(t)] with a negative [t] throws
    [std::length_error], which nothing catches. *)
Definition read_grid (line : list ascii) (st : istream)
    : outcome (Z * Z * Strategy * istream * list ascii) :=
  '(n, d, tc, gb) ← sscanf_header line;
  let '(nextch, st) := peek st in
  '(tsts, st, line) ←
    (if Ascii.eqb nextch "e"%char then
       let '(st, word) := read_word st [] in
       assert (bool_decide (word = list_ascii_of_string "emathgroup")) A_marker ;;
       assert (0 <=? tc) E_length_error ;;
       '(tsts, st) ← read_columns (Z.to_nat n) tc st word
                       (replicate (Z.to_nat tc) []);
       Ok (tsts, st, line)
     else read_rows (Z.to_nat tc) n st line);
  Ok (n, d,
      Strategy_of_vec tsts
        (if gb =? 0 then GuaranteedBest.No else GuaranteedBest.Yes)
        BelongsInFile.Yes,
      st, line).

(** [read_solutions_from_file], from the opened stream on. *)
Fixpoint read_loop (fuel : nat) (st : istream) (line : list ascii)
    (seen_a_grid : bool) (m : table) : outcome table :=
  match fuel with
  | O => OutOfFuel
  | S fuel' =>
      let '(more, st, line) := getline st line in
      if more : bool then
        if bool_decide (take 2 line = list_ascii_of_string "N=") then
          '(n, d, strategy, st, line) ← read_grid line st;
          m ← preserve_from_file m n d strategy;
          read_loop fuel' st line true m
        else
          assert (negb (seen_a_grid && negb (bool_decide (line = [])))) A_after_grid ;;
          read_loop fuel' st line seen_a_grid m
      else Ok m
  end.

Definition read_solutions_from_file (file : list ascii) (m : table)
    : outcome table :=
  read_loop (S (length file)) (mkStream file true) [] false m.

(** The two characters of a row. *)
Definition two_symbols (tsts : list row) : Prop :=
  Forall (Forall (fun c => c = "1"%char \/ c = "."%char)) tsts.

(** The number a run of digits stands for. *)
Definition digits_value (base : Z) (w : list ascii) : Z :=
  (scan_digits base w 0).1.

Definition all_digits (base : Z) (w : list ascii) : Prop :=
  Forall (fun c => is_Some (digit_value base c)) w.

Definition bit_char (b : bool) : ascii := if b then "1"%char else "."%char.

(** Words in a text, each after one white-space character. *)
Fixpoint spaced_words (seps : list ascii) (ws : list (list ascii)) : list ascii :=
  match seps, ws with
  | sep :: seps', w :: ws' => sep :: w ++ spaced_words seps' ws'
  | _, _ => []
  end.

(** The value of a column of bits, lowest test first. *)
Fixpoint bits_value (bs : list bool) : Z :=
  match bs with
  | [] => 0
  | b :: bs' => Z.b2z b + 2 * bits_value bs'
  end.

Definition in_int (v : Z) : Prop := - 2 ^ 31 <= v < 2 ^ 31.

Definition starts_with_space (s : list ascii) : bool :=
  match s with
  | c :: _ => is_space c
  | [] => false
  end.

(** The strategy [read_grid] builds from what was written for [s]. *)
Definition as_read (s : Strategy) : Strategy :=
  mkStrategy (tests s) (t s) (guaranteed_best s) BelongsInFile.Yes.

(** ** Further notions used by the properties of the remaining code *)

(** [ND::operator<]: [std::tie(d, n) < std::tie(rhs.d, rhs.n)], on keys
    written (n, d). *)
Definition ND_lt (a b : ND) : bool :=
  (a.2 <? b.2) || (negb (b.2 <? a.2) && (a.1 <? b.1)).

(** The shape every constructor of the program gives a strategy stored
    under key [k]: [t] is the number of rows and every row has one
    character per animal. *)
Definition shaped (k : ND) (s : Strategy) : Prop :=
  t s = Z.of_nat (length (tests s)) /\ well_formed (Z.to_nat k.1) (tests s).

#[global] Instance shaped_dec k s : Decision (shaped k s).
Proof. unfold shaped, well_formed. apply _. Defined.

Definition all_shaped (m : table) : Prop :=
  forall k s, m !! k = Some s -> shaped k s.

#[global] Instance all_shaped_dec m : Decision (all_shaped m).
Proof. apply (map_Forall_dec (fun k s => shaped k s)). Defined.

(** [m'] holds the same keys as [m], each with a strategy that is the
    old one or replaced it under [overwrite_if_better]. *)
Definition no_worse (m m' : table) : Prop :=
  forall k,
    match m !! k, m' !! k with
    | None, None => True
    | Some cur, Some cur' =>
        t cur' <= t cur /\
        (guaranteed_best cur = GuaranteedBest.Yes -> cur' = cur) /\
        (belongs_in_file cur = BelongsInFile.Yes ->
         belongs_in_file cur' = BelongsInFile.Yes)
    | _, _ => False
    end.

(** What the stored test count of a strategy is to its number of rows
    in a build with the given order of evaluation: the number itself
    when [tests.size()] is evaluated first, and otherwise a number from
    0 to it, as the candidates of [replace_most_tested_animal] then
    carry 0. *)
Definition counted (order : eval_order) (s : Strategy) : Prop :=
  match order with
  | SizeFirst => t s = Z.of_nat (length (tests s))
  | CaptureFirst => 0 <= t s <= Z.of_nat (length (tests s))
  end.

#[global] Instance counted_dec order s : Decision (counted order s).
Proof. destruct order; simpl; apply _. Defined.

(** A strategy that can be stored under [k]: its count is as above and
    every row has one character per animal. *)
Definition fits (order : eval_order) (k : ND) (s : Strategy) : Prop :=
  counted order s /\ well_formed (Z.to_nat k.1) (tests s).

#[global] Instance fits_dec order k s : Decision (fits order k s).
Proof. unfold fits, well_formed. apply _. Defined.

Definition all_fit (order : eval_order) (m : table) : Prop :=
  forall k s, m !! k = Some s -> fits order k s.

#[global] Instance all_fit_dec order m : Decision (all_fit order m).
Proof. apply (map_Forall_dec (fun k s => fits order k s)). Defined.

(** The strategy [kv] refers to fits its key. *)
Definition kv_fits (order : eval_order) (kv : kvref) : Prop :=
  match kv with
  | Pair k strategy => fits order k strategy
  | Node _ => True
  end.

#[global] Instance kv_fits_dec order kv : Decision (kv_fits order kv).
Proof. destruct kv; simpl; apply _. Defined.

(** [R] holds between [m] and the table [x] returns, if it returns one. *)
Definition relates (R : table -> table -> Prop) (m : table) (x : outcome table)
    : Prop :=
  forall m', x = Ok m' -> R m m'.

(** A table returned by [x], if any, has all its strategies fit their
    keys. *)
Definition keeps_shape (order : eval_order) (x : outcome table) : Prop :=
  forall m', x = Ok m' -> all_fit order m'.

(** No two of the first [N] items are in exactly the same tests. *)
Definition distinct_columns (N : nat) (tsts : list row) : Prop :=
  forall i j, (i < j < N)%nat -> column tsts i <> column tsts j.

(** Position, before a column was erased at [idx], of what is at [j]
    afterwards. *)
Definition before_erase (idx j : nat) : nat :=
  if decide (j < idx)%nat then j else S j.

(** What the reader guarantees of an entry it has stored under [k]. *)
Definition from_file (k : ND) (s : Strategy) : Prop :=
  0 <= k.2 <= k.1 /\ in_int k.1 /\ shaped k s /\
  belongs_in_file s = BelongsInFile.Yes.

(** [m'] is [m] after some records were loaded into it. *)
Definition loaded (m m' : table) : Prop :=
  (forall k, is_Some (m !! k) -> is_Some (m' !! k)) /\
  forall k s', m' !! k = Some s' ->
    m !! k = Some s' \/
    (from_file k s' /\
     forall cur, m !! k = Some cur ->
       isBetterThan s' cur = true /\ guaranteed_best cur = GuaranteedBest.No).

(** ** Writing the store *)

(** [std::setw(w)] with [std::right] and with [std::left]: blanks up to
    [w] characters, nothing cut off. *)
Definition setw_right (w : nat) (s : list ascii) : list ascii :=
  replicate (w - length s) " "%char ++ s.

Definition setw_left (w : nat) (s : list ascii) : list ascii :=
  s ++ replicate (w - length s) " "%char.

(** [for (int d = 1; d < n; ++d)] of one row of the triangle, over the
    values of [d] still to visit; the [break] ends the row. *)
Fixpoint triangle_cells (m : table) (n : Z) (ds : list Z) : list ascii :=
  match ds with
  | [] => []
  | d :: ds' =>
      match m !! (n, d) with
      | Some s =>
          let value := t s in
          " "%char :: setw_right 2 (print_int value)
            ++ (if value =? n - 1 then [] else triangle_cells m n ds')
      | None => setw_right 3 ["?"%char] ++ triangle_cells m n ds'
      end
  end.

Definition triangle_row (m : table) (n : Z) : list ascii :=
  list_ascii_of_string "    n=" ++ setw_left 2 (print_int n)
  ++ list_ascii_of_string "   "
  ++ triangle_cells m n (seqZ 1 (n - 1)) ++ [newline].

Definition triangle_head_lines : list (list ascii) :=
  map list_ascii_of_string
    ["    d=       1  2  3  4  5  6  ...";
     "          .";
     "    n=1   .  0";
     "    n=2   .  1  0";
     "    n=3   .  2  2"]%string.

Definition triangle_head : list ascii :=
  concat (map (fun l => l ++ [newline]) triangle_head_lines).

(** The triangle of test counts, up to [max_n_to_print = 30], and the
    two empty lines after it. *)
Definition triangle (m : table) : list ascii :=
  triangle_head ++ concat (map (triangle_row m) (seqZ 4 27))
  ++ [newline; newline].

(** [for (const auto& kv : m)]: the entries in the order of the keys. *)
Definition ND_le (a b : ND) : Prop := ND_lt b a = false.

#[global] Instance ND_le_dec a b : Decision (ND_le a b).
Proof. unfold ND_le. apply _. Defined.

Definition entry_le (x y : ND * Strategy) : Prop := ND_le x.1 y.1.

#[global] Instance entry_le_dec x y : Decision (entry_le x y).
Proof. unfold entry_le. apply _. Defined.

Definition entries (m : table) : list (ND * Strategy) :=
  merge_sort entry_le (map_to_list m).

Fixpoint write_records (kvs : list (ND * Strategy)) : outcome (list ascii) :=
  match kvs with
  | [] => Ok []
  | (n, d, strategy) :: kvs' =>
      if BelongsInFile.eqb (belongs_in_file strategy) BelongsInFile.Yes then
        text ← write_record n d strategy;
        rest ← write_records kvs';
        Ok (text ++ rest)
      else write_records kvs'
  end.

(** [write_solutions_to_file]: the characters written to the file. *)
Definition write_solutions_to_file (m : table) : outcome (list ascii) :=
  records ← write_records (entries m);
  Ok (triangle m ++ records).

(** What an entry must satisfy for the reader to take it back: a key
    with 0 <= d <= n, [t] rows of [n] characters over the two symbols,
    not more than 63 tests when it is written packed, and better than
    the worst case, which is what [preserve_from_file] compares it
    with. *)
Definition storable (k : ND) (s : Strategy) : Prop :=
  in_int k.1 /\ 0 <= k.2 <= k.1 /\ shaped k s /\ two_symbols (tests s) /\
  (k.1 <= 150 \/ t s <= 63) /\
  isBetterThan s (worst_case_strategy k.1 GuaranteedBest.No) = true.

(** The reading loop with the fuel [read_solutions_from_file] gives it. *)
Definition read_rest (st : istream) (line : list ascii) (seen_a_grid : bool)
    (m : table) : outcome table :=
  read_loop (S (length (buf st))) st line seen_a_grid m.

(** The table after the flagged entries of [kvs] were stored in it. *)
Definition store_flagged (m : table) (kvs : list (ND * Strategy)) : table :=
  fold_left (fun acc kv =>
               if BelongsInFile.eqb (belongs_in_file kv.2) BelongsInFile.Yes
               then <[kv.1 := kv.2]> acc else acc) kvs m.

(** A line the reading loop passes over: not a header, and empty once
    a record has been seen. *)
Definition skipped (seen_a_grid : bool) (l : list ascii) : Prop :=
  (newline ∉ l) /\ take 2 l <> list_ascii_of_string "N=" /\
  (seen_a_grid = false \/ l = []).

(** The entries [write_solutions_to_file] writes out. *)
Definition flagged (kv : ND * Strategy) : Prop :=
  BelongsInFile.eqb (belongs_in_file kv.2) BelongsInFile.Yes = true.

#[global] Instance flagged_dec kv : Decision (flagged kv).
Proof. unfold flagged. apply _. Defined.

Definition file_part (m : table) : table := filter flagged m.

(** A line of the triangle, without its newline. *)
Definition triangle_line (m : table) (n : Z) : list ascii :=
  list_ascii_of_string "    n=" ++ setw_left 2 (print_int n)
  ++ list_ascii_of_string "   " ++ triangle_cells m n (seqZ 1 (n - 1)).

(** ** The run of [main]

    From the two maps on: the store has been opened, [n] and [d] have
    passed [if (n < d || d < 0)], and neither [--verify] nor
    [--verify-all] is given (those print the verdict of
    [verify_strategy], which is not part of this file, and change no
    table).  [order] is the order of evaluation the build has chosen
    in [replace_most_tested_animal], and [fuel] bounds the depth of
    each cascade. *)

(** [for (auto&& kv : solutions_from_file)
       { preserve_from_file(...); add_solutions_derived_from(...); }] *)
Fixpoint derive_all (order : eval_order) (fuel : nat)
    (kvs : list (ND * Strategy)) (all_solutions : table) : outcome table :=
  match kvs with
  | [] => Ok all_solutions
  | kv :: kvs' =>
      m ← preserve_from_file all_solutions kv.1.1 kv.1.2 kv.2;
      m ← add_solutions_derived_from order fuel m (Pair kv.1 kv.2);
      derive_all order fuel kvs' m
  end.

(** [all_solutions] when the loop is over; [n + 100] is an [int]. *)
Definition main_solutions (order : eval_order) (fuel : nat) (file : list ascii)
    (n : Z) : outcome table :=
  solutions_from_file ← read_solutions_from_file file ∅;
  (if n + 100 <? 2 ^ 31 then Ok tt else Undefined) ;;
  all_solutions ← add_easy_solutions ∅ (n + 100);
  derive_all order fuel (entries solutions_from_file) all_solutions.

(** What [main] writes to [wolfy-out.txt] and the strategy whose tests
    it prints; [None] stands for the [std::out_of_range] that
    [all_solutions.at(ND{n, d})] throws for a missing key. *)
Definition main_run (order : eval_order) (fuel : nat) (file : list ascii)
    (n d : Z) : outcome (list ascii * option Strategy) :=
  all_solutions ← main_solutions order fuel file n;
  text ← write_solutions_to_file all_solutions;
  Ok (text, all_solutions !! (n, d)).


(** The word [infile >> word] leaves in [word] once the words [ws]
    were read and the input has run out: the last of them, or what
    [word] held before. *)
Definition stale_word (word0 : list ascii) (ws : list (list ascii)) : list ascii :=
  default word0 (last ws).

(** The lengths of the lines of a text; [cur] characters of the first
    line were seen already. *)
Fixpoint line_widths (cur : nat) (s : list ascii) : list nat :=
  match s with
  | [] => [cur]
  | c :: s' =>
      if Ascii.eqb c newline then cur :: line_widths 0 s'
      else line_widths (S cur) s'
  end.

(** * Properties *)

Lemma bind_Ok {A B} (a : A) (f : A -> outcome B) : Ok a ≫= f = f a.
Proof. done. Qed.

(** [map] is the list instance of [fmap]; these carry stdpp's lemmas
    over to goals written with [map]. *)
Lemma lookup_map {A B} (f : A -> B) (l : list A) (i : nat) :
  map f l !! i = f <$> l !! i.
Proof. apply list_lookup_fmap. Qed.

(** ** The dominance order and the table update *)

Section Dominance.
Implicit Types (m : table) (s cur : Strategy).

Lemma isBetterThan_better s cur : isBetterThan s cur = true <-> better s cur.
Proof.
  unfold isBetterThan, better.
  destruct (Z.eqb_spec (t s) (t cur)) as [E|E]; simpl.
  - destruct (guaranteed_best s), (guaranteed_best cur); simpl;
      split; intros H; try discriminate; try lia; auto;
      destruct H as [H|(_ & H1 & H2)]; try lia; discriminate.
  - rewrite Z.ltb_lt. split; [auto | intros [H|[H _]]; [done | lia]].
Qed.

Lemma isBetterThan_le s cur : isBetterThan s cur = true -> t s <= t cur.
Proof. rewrite isBetterThan_better. unfold better. lia. Qed.

Lemma isBetterThan_irrefl s : isBetterThan s s = false.
Proof.
  unfold isBetterThan. rewrite Z.eqb_refl. simpl.
  by destruct (guaranteed_best s).
Qed.

Lemma key_asserts_pass n d :
  0 <= d <= n -> (0 <=? n) = true /\ ((0 <=? d) && (d <=? n)) = true.
Proof.
  intros H. split; [apply Z.leb_le; lia|].
  apply andb_true_intro; split; apply Z.leb_le; lia.
Qed.

Lemma overwrite_if_better_absent m n d s :
  0 <= d <= n -> m !! (n, d) = None ->
  overwrite_if_better m n d s = Ok (m, false).
Proof.
  intros [K1 K2]%key_asserts_pass Hm. unfold overwrite_if_better.
  by rewrite K1, K2, Hm.
Qed.

Lemma overwrite_if_better_not_better m n d s cur :
  0 <= d <= n -> m !! (n, d) = Some cur -> isBetterThan s cur = false ->
  overwrite_if_better m n d s = Ok (m, false).
Proof.
  intros [K1 K2]%key_asserts_pass Hm Hb. unfold overwrite_if_better.
  by rewrite K1, K2, Hm; simpl; rewrite Hb.
Qed.

Lemma overwrite_if_better_guaranteed m n d s cur :
  0 <= d <= n -> m !! (n, d) = Some cur -> isBetterThan s cur = true ->
  guaranteed_best cur = GuaranteedBest.Yes ->
  overwrite_if_better m n d s = AssertFail A_guaranteed_best.
Proof.
  intros [K1 K2]%key_asserts_pass Hm Hb Hg. unfold overwrite_if_better.
  by rewrite K1, K2, Hm; simpl; rewrite Hb, Hg.
Qed.

Lemma overwrite_if_better_replaces m n d s cur :
  0 <= d <= n -> m !! (n, d) = Some cur -> isBetterThan s cur = true ->
  guaranteed_best cur = GuaranteedBest.No ->
  overwrite_if_better m n d s = Ok (<[(n, d) := installed s cur]> m, true).
Proof.
  intros [K1 K2]%key_asserts_pass Hm Hb Hg. unfold overwrite_if_better.
  by rewrite K1, K2, Hm; simpl; rewrite Hb, Hg.
Qed.

(** Every way [overwrite_if_better] can return. *)
Lemma overwrite_if_better_inv m n d s m' b :
  overwrite_if_better m n d s = Ok (m', b) ->
  0 <= d <= n /\
  ((b = false /\ m' = m /\
    forall cur, m !! (n, d) = Some cur -> isBetterThan s cur = false) \/
   (b = true /\ exists cur,
      m !! (n, d) = Some cur /\ isBetterThan s cur = true /\
      guaranteed_best cur = GuaranteedBest.No /\
      m' = <[(n, d) := installed s cur]> m)).
Proof.
  unfold overwrite_if_better, assert.
  destruct (Z.leb_spec 0 n); simpl; [|done].
  destruct (Z.leb_spec 0 d); simpl; [|done].
  destruct (Z.leb_spec d n); simpl; [|done].
  destruct (m !! (n, d)) as [cur|] eqn:Hm.
  - destruct (isBetterThan s cur) eqn:Hb.
    + destruct (guaranteed_best cur) eqn:Hg; simpl; [done|].
      intros [= <- <-]. split; [lia|]. right. split; [done|].
      exists cur. by rewrite Hg.
    + intros [= <- <-]. split; [lia|]. left. repeat split; try done.
      by intros ? [= <-].
  - intros [= <- <-]. split; [lia|]. left. by repeat split.
Qed.

Lemma installed_t s cur : t (installed s cur) = t s.
Proof. unfold installed. by destruct (BelongsInFile.eqb _ _). Qed.

Lemma installed_tests s cur : tests (installed s cur) = tests s.
Proof. unfold installed. by destruct (BelongsInFile.eqb _ _). Qed.

Lemma installed_guaranteed_best s cur :
  guaranteed_best (installed s cur) = guaranteed_best s.
Proof. unfold installed. by destruct (BelongsInFile.eqb _ _). Qed.

Lemma installed_belongs s cur :
  belongs_in_file cur = BelongsInFile.Yes ->
  belongs_in_file (installed s cur) = BelongsInFile.Yes.
Proof. unfold installed. by intros ->. Qed.

Lemma installed_unflagged s cur :
  belongs_in_file cur = BelongsInFile.No -> installed s cur = s.
Proof. unfold installed. by intros ->. Qed.
End Dominance.

(** One update never raises a stored test count and never touches an
    entry marked guaranteed best. *)
Lemma overwrite_if_better_monotone (m m' : table) n d s b k cur :
  overwrite_if_better m n d s = Ok (m', b) ->
  m !! k = Some cur ->
  exists cur', m' !! k = Some cur' /\ t cur' <= t cur /\
    (guaranteed_best cur = GuaranteedBest.Yes -> cur' = cur).
Proof.
  intros (_ & [(_ & -> & _)|(_ & old & Hold & Hb & Hg & ->)])%overwrite_if_better_inv Hk.
  - exists cur. split; [done|]. split; [lia | done].
  - destruct (decide ((n, d) = k)) as [<-|Hne].
    + rewrite Hk in Hold. injection Hold as <-.
      exists (installed s cur). rewrite lookup_insert_eq, installed_t.
      split; [done|]. split; [by apply isBetterThan_le | congruence].
    + exists cur. rewrite lookup_insert_ne by done.
      split; [done|]. split; [lia | done].
Qed.

Lemma run_updates_monotone (ups : list (Z * Z * Strategy)) :
  forall (m m' : table) k cur,
    run_updates m ups = Ok m' -> m !! k = Some cur ->
    exists cur', m' !! k = Some cur' /\ t cur' <= t cur /\
      (guaranteed_best cur = GuaranteedBest.Yes -> cur' = cur).
Proof.
  induction ups as [|[[n d] s] ups IH]; intros m m' k cur; simpl.
  - intros [= <-] Hk. exists cur. split; [done|]. split; [lia | done].
  - destruct (overwrite_if_better m n d s) as [[m1 b]| | |] eqn:Hstep;
      simpl; try done.
    intros Hrun Hk.
    destruct (overwrite_if_better_monotone _ _ _ _ _ _ _ _ Hstep Hk)
      as (c1 & Hk1 & Hle1 & Hg1).
    destruct (IH _ _ _ _ Hrun Hk1) as (c2 & Hk2 & Hle2 & Hg2).
    exists c2. split; [done|]. split; [lia|].
    intros Hg. specialize (Hg1 Hg). subst c1. auto.
Qed.

Lemma run_updates_app (ups1 ups2 : list (Z * Z * Strategy)) :
  forall m : table,
    run_updates m (ups1 ++ ups2) = (m1 ← run_updates m ups1; run_updates m1 ups2).
Proof.
  induction ups1 as [|[[n d] s] ups1 IH]; intros m; simpl; [done|].
  destruct (overwrite_if_better m n d s) as [[m1 b]| | |]; simpl; auto.
Qed.

(** C1 (as amended): with no entry for (N,D) the table is unchanged and
    no improvement is reported.  With an entry [cur], the candidate
    replaces it exactly when it is better under the dominance order
    (fewer tests, or as many with the candidate guaranteed best and
    [cur] not) and [cur] is not guaranteed best; the stored strategy is
    the candidate, with [belongs_in_file] set whenever it was set on
    [cur].  A better candidate against a guaranteed-best entry stops the
    run on the assertion instead. *)
Theorem overwrite_if_better_spec (m : table) (n d : Z) (s : Strategy) :
  0 <= d <= n ->
  (m !! (n, d) = None -> overwrite_if_better m n d s = Ok (m, false)) /\
  (forall cur, m !! (n, d) = Some cur ->
     (isBetterThan s cur = true <-> better s cur) /\
     (better s cur /\ guaranteed_best cur = GuaranteedBest.No <->
      exists s', overwrite_if_better m n d s = Ok (<[(n, d) := s']> m, true) /\
        tests s' = tests s /\ t s' = t s /\
        guaranteed_best s' = guaranteed_best s /\
        (belongs_in_file cur = BelongsInFile.Yes ->
         belongs_in_file s' = BelongsInFile.Yes) /\
        (belongs_in_file cur = BelongsInFile.No -> s' = s)) /\
     (better s cur -> guaranteed_best cur = GuaranteedBest.Yes ->
      overwrite_if_better m n d s = AssertFail A_guaranteed_best) /\
     (~ better s cur -> overwrite_if_better m n d s = Ok (m, false))).
Proof.
  intros Hkey. split; [by apply overwrite_if_better_absent|].
  intros cur Hm. split; [apply isBetterThan_better|].
  split; [split|split].
  - intros [Hb%isBetterThan_better Hg]. exists (installed s cur).
    split; [by apply overwrite_if_better_replaces|].
    rewrite installed_tests, installed_t, installed_guaranteed_best.
    repeat split; auto using installed_belongs, installed_unflagged.
  - intros (s' & Hrun & _).
    apply overwrite_if_better_inv in Hrun
      as (_ & [(? & _)|(_ & c & Hc & Hb & Hg & _)]); [done|].
    rewrite Hm in Hc. injection Hc as <-.
    split; [by apply isBetterThan_better | done].
  - intros Hb%isBetterThan_better Hg.
    by eapply overwrite_if_better_guaranteed.
  - intros Hnb. eapply overwrite_if_better_not_better; [done..|].
    destruct (isBetterThan s cur) eqn:E; [|done].
    by apply isBetterThan_better in E.
Qed.

Lemma overwrite_if_better_spec_witness :
  let cur := mkStrategy [["1"; "."]%char] 1 GuaranteedBest.No BelongsInFile.Yes in
  let s := mkStrategy [] 0 GuaranteedBest.No BelongsInFile.No in
  let m : table := {[ (2, 1) := cur ]} in
  overwrite_if_better m 3 1 s = Ok (m, false) /\
  exists s', overwrite_if_better m 2 1 s = Ok (<[(2, 1) := s']> m, true) /\
             belongs_in_file s' = BelongsInFile.Yes.
Proof.
  intros cur s m. split.
  - apply (proj1 (overwrite_if_better_spec m 3 1 s ltac:(lia))). reflexivity.
  - destruct (overwrite_if_better_spec m 2 1 s ltac:(lia)) as [_ H].
    destruct (H cur ltac:(reflexivity)) as (_ & [H1 _] & _).
    destruct H1 as (s' & Hrun & _ & _ & _ & Hfile & _).
    + split; [left; simpl; lia | reflexivity].
    + exists s'. split; [exact Hrun | apply Hfile; reflexivity].
Defined.

(** C1 as worded fails: a candidate with fewer tests than a
    guaranteed-best entry is better under the dominance order, yet it is
    not installed. *)
Lemma overwrite_if_better_guaranteed_counterexample :
  let cur := mkStrategy [["."; "1"]%char] 1 GuaranteedBest.Yes BelongsInFile.No in
  let s := mkStrategy [] 0 GuaranteedBest.No BelongsInFile.No in
  let m : table := {[ (2, 1) := cur ]} in
  m !! (2, 1) = Some cur /\ better s cur /\
  ~ (better s cur <-> exists m', overwrite_if_better m 2 1 s = Ok (m', true)).
Proof.
  intros cur s m. split; [reflexivity|]. split; [left; simpl; lia|].
  intros [H _]. destruct H as [m' Hm']; [left; simpl; lia|].
  vm_compute in Hm'. discriminate.
Qed.

(** C2: along any sequence of table updates that runs to completion,
    the test count stored for a key never increases and an entry marked
    guaranteed best stays as it is; an update whose candidate is better
    than a guaranteed-best entry stops the whole sequence on the
    assertion "found something better than the guaranteed best". *)
Theorem dominance_monotone
    (m : table) (ups : list (Z * Z * Strategy)) :
  (forall m' k cur,
     run_updates m ups = Ok m' -> m !! k = Some cur ->
     exists cur', m' !! k = Some cur' /\ t cur' <= t cur /\
       (guaranteed_best cur = GuaranteedBest.Yes -> cur' = cur)) /\
  (forall pre n d s post m1 cur,
     ups = pre ++ (n, d, s) :: post ->
     run_updates m pre = Ok m1 ->
     0 <= d <= n -> m1 !! (n, d) = Some cur ->
     guaranteed_best cur = GuaranteedBest.Yes -> better s cur ->
     overwrite_if_better m1 n d s = AssertFail A_guaranteed_best /\
     run_updates m ups = AssertFail A_guaranteed_best).
Proof.
  split.
  - intros m' k cur. apply run_updates_monotone.
  - intros pre n d s post m1 cur -> Hpre Hkey Hm1 Hg Hb%isBetterThan_better.
    assert (Hstep : overwrite_if_better m1 n d s = AssertFail A_guaranteed_best)
      by by eapply overwrite_if_better_guaranteed.
    split; [done|].
    rewrite run_updates_app, Hpre. simpl. by rewrite Hstep.
Qed.

Lemma dominance_monotone_witness :
  let opt := mkStrategy [["."; "1"]%char] 1 GuaranteedBest.Yes BelongsInFile.No in
  let prov := mkStrategy [["1"; "."; "."; "."]; ["."; "1"; "."; "."];
                          ["."; "."; "1"; "."]]%char 3
                         GuaranteedBest.No BelongsInFile.No in
  let s2 := mkStrategy [["1"; "1"; "."; "."]; ["1"; "."; "1"; "."]]%char 2
                       GuaranteedBest.No BelongsInFile.No in
  let s0 := mkStrategy [] 0 GuaranteedBest.No BelongsInFile.No in
  let m : table := {[ (2, 1) := opt; (4, 2) := prov ]} in
  (exists cur', <[(4, 2) := s2]> m !! (4, 2) = Some cur' /\ t cur' <= 3) /\
  run_updates m [(4, 2, s2); (2, 1, s0)] = AssertFail A_guaranteed_best.
Proof.
  intros opt prov s2 s0 m.
  destruct (dominance_monotone m [(4, 2, s2)]) as [H1 _].
  destruct (dominance_monotone m [(4, 2, s2); (2, 1, s0)]) as [_ H2].
  split.
  - destruct (H1 (<[(4, 2) := s2]> m) (4, 2) prov) as (c & Hc & Hle & _);
      [reflexivity | reflexivity |].
    exists c. split; [exact Hc | exact Hle].
  - refine (proj2 (H2 [(4, 2, s2)] 2 1 s0 [] (<[(4, 2) := s2]> m) opt
                      eq_refl eq_refl _ eq_refl eq_refl _)).
    + lia.
    + left; simpl; lia.
Defined.

(** With an entry already there, merging is one update that must succeed. *)
Lemma preserve_from_file_present (m : table) (n d : Z) (s cur : Strategy) :
  m !! (n, d) = Some cur ->
  preserve_from_file m n d s
  = ('(m2, overwritten) ← overwrite_if_better m n d s;
     assert overwritten A_overwritten ;; Ok m2).
Proof. intros Hm. unfold preserve_from_file, map_insert_new. by rewrite Hm. Qed.

(** C10: [preserve_from_file] first makes sure the key has an entry (the
    worst-case strategy, not guaranteed best, when it had none) and then
    requires the loaded strategy to be strictly better than that entry:
    it returns only in that case, and a loaded strategy that ties with
    or is worse than the entry stops the run on [assert(overwritten)]. *)
Theorem preserve_from_file_requires_better (m : table) (n d : Z) (s : Strategy) :
  0 <= d <= n ->
  let base := default (worst_case_strategy n GuaranteedBest.No) (m !! (n, d)) in
  (forall m', preserve_from_file m n d s = Ok m' ->
     better s base /\ guaranteed_best base = GuaranteedBest.No /\
     m' = <[(n, d) := installed s base]> m) /\
  (~ better s base -> preserve_from_file m n d s = AssertFail A_overwritten) /\
  (better s base -> guaranteed_best base = GuaranteedBest.No ->
   preserve_from_file m n d s = Ok (<[(n, d) := installed s base]> m)).
Proof.
  intros Hkey base.
  set (m1 := map_insert_new m (n, d) (worst_case_strategy n GuaranteedBest.No)).
  assert (Hm1 : m1 !! (n, d) = Some base).
  { unfold m1, map_insert_new, base.
    destruct (m !! (n, d)) eqn:E; [exact E | apply lookup_insert_eq]. }
  assert (Hins : forall x, <[(n, d) := x]> m1 = <[(n, d) := x]> m).
  { intros x. unfold m1, map_insert_new.
    destruct (m !! (n, d)); [done | by rewrite insert_insert_eq]. }
  unfold preserve_from_file. fold m1. split; [|split].
  - intros m'.
    destruct (overwrite_if_better m1 n d s) as [[m2 b]| | |] eqn:Hrun;
      simpl; try done.
    destruct b; simpl; [|done]. intros [= <-].
    apply overwrite_if_better_inv in Hrun
      as (_ & [(? & _)|(_ & c & Hc & Hb & Hg & ->)]); [done|].
    rewrite Hm1 in Hc. injection Hc as <-.
    split; [by apply isBetterThan_better|]. by rewrite Hins.
  - intros Hnb.
    rewrite (overwrite_if_better_not_better m1 n d s base); [done..|].
    destruct (isBetterThan s base) eqn:E; [|done].
    by apply isBetterThan_better in E.
  - intros Hb%isBetterThan_better Hg.
    rewrite (overwrite_if_better_replaces m1 n d s base); [|done..].
    simpl. by rewrite Hins.
Qed.

(** ** Base cases *)

Section OneWolf.
Lemma wrap_int_small z : - 2 ^ 31 <= z < 2 ^ 31 -> wrap_int z = z.
Proof. intros H. unfold wrap_int. rewrite Z.mod_small; lia. Qed.

Lemma land_pow2 i r :
  0 <= r -> Z.land i (2 ^ r) = if Z.testbit i r then 2 ^ r else 0.
Proof.
  intros Hr. apply Z.bits_inj'. intros k Hk.
  rewrite Z.land_spec, Z.pow2_bits_eqb by done.
  destruct (Z.eqb_spec r k) as [->|Hne].
  - destruct (Z.testbit i k) eqn:E; simpl.
    + by rewrite Z.pow2_bits_true.
    + by rewrite Z.bits_0.
  - rewrite andb_false_r. destruct (Z.testbit i r).
    + by rewrite Z.pow2_bits_false.
    + by rewrite Z.bits_0.
Qed.

Lemma one_wolf_row_length n bit : length (one_wolf_row n bit) = Z.to_nat n.
Proof. unfold one_wolf_row. by rewrite length_map, length_seq. Qed.

Lemma one_wolf_row_lookup n r (i : nat) :
  0 <= r -> (Z.of_nat i < n) ->
  one_wolf_row n (2 ^ r) !! i
  = Some (if Z.testbit (Z.of_nat i) r then "1"%char else "."%char).
Proof.
  intros Hr Hi. unfold one_wolf_row.
  rewrite lookup_map, lookup_seq_lt by lia. simpl.
  rewrite land_pow2 by done.
  destruct (Z.testbit (Z.of_nat i) r); [|done].
  destruct (Z.eqb_spec (2 ^ r) 0) as [E|_]; [|done].
  pose proof (Z.pow_pos_nonneg 2 r). lia.
Qed.

(** The rows produced from [bit = 2^k] on. *)
Lemma one_wolf_loop_rows n :
  n <= 2 ^ 30 ->
  forall (fuel : nat) k,
    0 <= k <= Z.log2_up n -> Z.log2_up n - k <= Z.of_nat fuel ->
    one_wolf_loop fuel n (2 ^ k)
    = Ok (map (fun r => one_wolf_row n (2 ^ r)) (seqZ k (Z.log2_up n - k))).
Proof.
  intros Hn.
  assert (HL : Z.log2_up n <= 30).
  { change 30 with (Z.log2_up (2 ^ 30)). by apply Z.log2_up_le_mono. }
  induction fuel as [|fuel IH]; intros k Hk Hfuel.
  - assert (k = Z.log2_up n) as -> by lia.
    rewrite Z.sub_diag. simpl.
    destruct (Z.ltb_spec (2 ^ Z.log2_up n) n) as [Hlt|_]; [|done].
    destruct (Z.le_gt_cases n 0) as [H0|H0].
    + pose proof (Z.pow_pos_nonneg 2 (Z.log2_up n)). lia.
    + apply Z.log2_up_lt_pow2 in Hlt; lia.
  - simpl. destruct (Z.ltb_spec (2 ^ k) n) as [Hlt|Hge].
    + assert (0 < n) by (pose proof (Z.pow_pos_nonneg 2 k); lia).
      assert (k < Z.log2_up n) by (apply Z.log2_up_lt_pow2; lia).
      assert (Hsh : wrap_int (Z.shiftl (2 ^ k) 1) = 2 ^ (k + 1)).
      { rewrite Z.shiftl_mul_pow2 by lia.
        replace (2 ^ k * 2 ^ 1) with (2 ^ (k + 1))
          by (rewrite Z.pow_add_r by lia; lia).
        apply wrap_int_small.
        assert (2 ^ (k + 1) <= 2 ^ 30) by (apply Z.pow_le_mono_r; lia).
        pose proof (Z.pow_pos_nonneg 2 (k + 1)). lia. }
      rewrite Hsh, IH by lia. simpl.
      rewrite (seqZ_cons k (Z.log2_up n - k)) by lia. simpl.
      replace (Z.succ k) with (k + 1) by lia.
      by replace (Z.pred (Z.log2_up n - k)) with (Z.log2_up n - (k + 1)) by lia.
    + assert (k = Z.log2_up n) as ->.
      { destruct (Z.le_gt_cases n 0) as [H0|H0].
        - pose proof (Z.log2_up_nonpos n H0). lia.
        - pose proof (Z.log2_up_lt_pow2 n k H0). lia. }
      by rewrite Z.sub_diag.
Qed.

Lemma perfect_strategy_for_one_wolf_rows n :
  n <= 2 ^ 30 ->
  perfect_strategy_for_one_wolf n
  = Ok (Strategy_of_vec
          (map (fun r => one_wolf_row n (2 ^ r)) (seqZ 0 (Z.log2_up n)))
          GuaranteedBest.Yes BelongsInFile.No).
Proof.
  intros Hn. unfold perfect_strategy_for_one_wolf.
  assert (HL : Z.log2_up n <= 30).
  { change 30 with (Z.log2_up (2 ^ 30)). by apply Z.log2_up_le_mono. }
  pose proof (Z.log2_up_nonneg n).
  change 1 with (2 ^ 0) at 1.
  rewrite (one_wolf_loop_rows n Hn 33 0) by lia.
  simpl. by rewrite Z.sub_0_r.
Qed.
End OneWolf.

Section EasySolutions.
Implicit Types (m : table) (s : Strategy).

Lemma map_insert_new_lookup m k k' s :
  map_insert_new m k s !! k'
  = match m !! k' with
    | Some old => Some old
    | None => if decide (k = k') then Some s else None
    end.
Proof.
  unfold map_insert_new. destruct (m !! k) as [old|] eqn:Hk.
  - destruct (m !! k') eqn:Hk'; [done|].
    case_decide; [congruence | done].
  - rewrite lookup_insert. case_decide as Hd.
    + subst k'. by rewrite Hk.
    + by destruct (m !! k').
Qed.

Lemma easy_strategy_total n d :
  n <= 2 ^ 30 -> exists s, easy_strategy n d = Ok s.
Proof.
  intros Hn. unfold easy_strategy.
  destruct ((d =? 0) || (d =? n)); [eauto|].
  destruct (d =? 1).
  - rewrite perfect_strategy_for_one_wolf_rows by done. eauto.
  - destruct (d >=? Z.quot n 2); eauto.
Qed.

(** The inner loop fills the free keys (n, d), d in [ds], and leaves
    every other key alone. *)
Lemma add_easy_row_spec n :
  n <= 2 ^ 30 ->
  forall ds m, exists m',
    add_easy_row ds n m = Ok m' /\
    (forall k s, m !! k = Some s -> m' !! k = Some s) /\
    (forall k, (forall d, d ∈ ds -> k <> (n, d)) -> m' !! k = m !! k) /\
    (forall d, d ∈ ds -> m !! (n, d) = None ->
       exists s, easy_strategy n d = Ok s /\ m' !! (n, d) = Some s).
Proof.
  intros Hn. induction ds as [|d0 ds IH]; intros m; simpl.
  - exists m. repeat split; auto. intros d Hd. by apply elem_of_nil in Hd.
  - destruct (easy_strategy_total n d0 Hn) as [s0 Hs0]. rewrite Hs0. simpl.
    destruct (IH (map_insert_new m (n, d0) s0)) as (m' & -> & Hkeep & Hoth & Hnew).
    exists m'. split; [done|]. split; [|split].
    + intros k s Hk. apply Hkeep. by rewrite map_insert_new_lookup, Hk.
    + intros k Hk. rewrite Hoth.
      * rewrite map_insert_new_lookup. destruct (m !! k); [done|].
        case_decide as E; [|done]. exfalso. eapply (Hk d0); [left | done].
      * intros d Hd. apply Hk. by right.
    + intros d Hd Hfree.
      destruct (decide (d = d0)) as [->|Hne].
      * exists s0. split; [done|]. apply Hkeep.
        rewrite map_insert_new_lookup, Hfree. by rewrite decide_True.
      * apply elem_of_cons in Hd as [?|Hd]; [done|].
        apply Hnew; [done|].
        rewrite map_insert_new_lookup, Hfree.
        rewrite decide_False; [done | congruence].
Qed.

Lemma add_easy_rows_spec :
  forall ns m, (forall n, n ∈ ns -> n <= 2 ^ 30) ->
  exists m',
    add_easy_rows ns m = Ok m' /\
    (forall k s, m !! k = Some s -> m' !! k = Some s) /\
    (forall n d, n ∈ ns -> 0 <= d <= n -> m !! (n, d) = None ->
       exists s, easy_strategy n d = Ok s /\ m' !! (n, d) = Some s).
Proof.
  induction ns as [|n0 ns IH]; intros m Hns; simpl.
  - exists m. repeat split; auto. intros n d Hn. by apply elem_of_nil in Hn.
  - destruct (add_easy_row_spec n0 (Hns n0 ltac:(left)) (seqZ 0 (n0 + 1)) m)
      as (m1 & -> & Hkeep1 & Hoth1 & Hnew1). simpl.
    destruct (IH m1) as (m' & -> & Hkeep & Hnew).
    { intros n Hn. apply Hns. by right. }
    exists m'. split; [done|]. split; [by auto|].
    intros n d Hn Hd Hfree.
    destruct (decide (n = n0)) as [->|Hne].
    + destruct (Hnew1 d) as (s & Hs & Hm1); [|done|].
      { apply elem_of_seqZ. lia. }
      exists s. split; [done|]. by apply Hkeep.
    + apply elem_of_cons in Hn as [?|Hn]; [done|].
      apply Hnew; [done..|].
      rewrite Hoth1; [done|]. intros d' _. congruence.
Qed.

Lemma worst_case_tests_length n :
  length (worst_case_tests n) = Z.to_nat (n - 1).
Proof. unfold worst_case_tests. by rewrite length_map, length_seq. Qed.

Lemma worst_case_tests_cell n (r i : nat) :
  Z.of_nat r < n - 1 -> Z.of_nat i < n ->
  cell (worst_case_tests n) r i
  = Some (if decide (r = i) then "1"%char else "."%char).
Proof.
  intros Hr Hi. unfold cell, worst_case_tests, unit_row.
  rewrite lookup_map, lookup_seq_lt by lia. simpl.
  case_decide as E.
  - subst i. apply list_lookup_insert_eq. rewrite length_replicate. lia.
  - rewrite list_lookup_insert_ne by done.
    apply lookup_replicate_2. lia.
Qed.
End EasySolutions.

(** C3: seeding the empty table up to [max_n] gives every key (N,D),
    0 <= D <= N <= max_n, its base case.  D = 0 or D = N: no tests,
    guaranteed best.  D = 1: [Z.log2_up N] tests (the ceiling of the
    binary logarithm: 2^(T-1) < N <= 2^T), guaranteed best, test r
    marking item i exactly when bit r of i is set.  Otherwise the N-1 tests that check every
    item but the last on its own, guaranteed best exactly when
    D >= N/2 (N/2 being the integer quotient, so that the boundary is
    N <= 2D+1) and not guaranteed best when 1 < D < N/2.  [max_n] is
    kept within 2^30 so that the doubling of [bit] stays within [int]. *)
Theorem add_easy_solutions_spec (max_n : Z) :
  max_n <= 2 ^ 30 ->
  exists m, add_easy_solutions ∅ max_n = Ok m /\
  forall n d, 0 <= d <= n -> n <= max_n ->
    exists s, m !! (n, d) = Some s /\
      belongs_in_file s = BelongsInFile.No /\
      (d = 0 \/ d = n ->
         t s = 0 /\ tests s = [] /\ guaranteed_best s = GuaranteedBest.Yes) /\
      (d = 1 ->
         t s = Z.log2_up n /\ Z.of_nat (length (tests s)) = Z.log2_up n /\
         (1 < n -> 2 ^ (t s - 1) < n <= 2 ^ t s) /\
         guaranteed_best s = GuaranteedBest.Yes /\
         forall r i : nat, Z.of_nat r < Z.log2_up n -> Z.of_nat i < n ->
           cell (tests s) r i
           = Some (if Z.testbit (Z.of_nat i) (Z.of_nat r)
                   then "1"%char else "."%char)) /\
      (d <> 0 -> d <> n -> d <> 1 ->
         t s = n - 1 /\ Z.of_nat (length (tests s)) = n - 1 /\
         (forall r i : nat, Z.of_nat r < n - 1 -> Z.of_nat i < n ->
            cell (tests s) r i
            = Some (if decide (r = i) then "1"%char else "."%char)) /\
         (guaranteed_best s = GuaranteedBest.Yes <-> d >= n / 2) /\
         (d >= n / 2 <-> n <= 2 * d + 1) /\
         (1 < d < n / 2 -> guaranteed_best s = GuaranteedBest.No)).
Proof.
  intros Hmax. unfold add_easy_solutions.
  destruct (add_easy_rows_spec (seqZ 0 (max_n + 1)) ∅) as (m & Hrun & _ & Hnew).
  { intros n Hn%elem_of_seqZ. lia. }
  exists m. split; [done|]. intros n d Hnd Hnmax.
  destruct (Hnew n d) as (s & Hs & Hm); [apply elem_of_seqZ; lia | lia | done |].
  exists s. split; [done|]. clear Hm Hnew Hrun m.
  unfold easy_strategy in Hs.
  assert (Hquot : Z.quot n 2 = n / 2) by (apply Z.quot_div_nonneg; lia).
  destruct (Z.eqb_spec d 0) as [E0|E0]; simpl in Hs;
    [|destruct (Z.eqb_spec d n) as [En|En]; simpl in Hs].
  - injection Hs as <-. subst d.
    split; [done|]. split; [done|]. split; [intros; lia|]. intros; lia.
  - injection Hs as <-. subst d.
    split; [done|]. split; [done|]. split; [|intros; lia].
    intros ->. change (Z.log2_up 1) with 0.
    repeat split; try done; intros; lia.
  - destruct (Z.eqb_spec d 1) as [E1|E1].
    + rewrite perfect_strategy_for_one_wolf_rows in Hs by lia.
      injection Hs as <-. pose proof (Z.log2_up_nonneg n).
      split; [done|]. split; [intros; lia|]. split; [|intros; lia].
      intros _. simpl. rewrite length_map, length_seqZ.
      split; [lia|]. split; [lia|].
      split; [intros Hn1; rewrite Z2Nat.id by lia;
              replace (Z.log2_up n - 1) with (Z.pred (Z.log2_up n)) by lia;
              by apply Z.log2_up_spec|].
      split; [done|].
      intros r i Hr Hi. unfold cell.
      rewrite lookup_map, lookup_seqZ_lt by lia. simpl.
      rewrite Z.add_0_l. apply one_wolf_row_lookup; lia.
    + assert (Hw : exists gb, s = worst_case_strategy n gb /\
                (gb = GuaranteedBest.Yes <-> d >= n / 2)).
      { rewrite Hquot in Hs.
        destruct (Z.geb_spec d (n / 2)); injection Hs as <-;
          eexists; (split; [reflexivity|]); split; intros; try done; lia. }
      destruct Hw as (gb & -> & Hgb). simpl.
      split; [done|]. split; [intros; lia|]. split; [intros; lia|].
      intros _ _ _. rewrite worst_case_tests_length.
      split; [done|]. split; [lia|].
      split; [by apply worst_case_tests_cell|]. split; [done|].
      split; [pose proof (Z.div_mod n 2); pose proof (Z.mod_pos_bound n 2); lia|].
      intros Hlt. destruct gb; [|done].
      assert (d >= n / 2) by by apply Hgb. lia.
Qed.

Lemma add_easy_solutions_spec_witness :
  exists m, add_easy_solutions ∅ 10 = Ok m /\
    (exists s, m !! (8, 1) = Some s /\ t s = 3) /\
    (exists s, m !! (9, 1) = Some s /\ t s = 4) /\
    (exists s, m !! (10, 5) = Some s /\ t s = 9 /\
               guaranteed_best s = GuaranteedBest.Yes) /\
    (exists s, m !! (10, 3) = Some s /\ t s = 9 /\
               guaranteed_best s = GuaranteedBest.No).
Proof.
  destruct (add_easy_solutions_spec 10 ltac:(lia)) as (m & Hm & H).
  exists m. split; [exact Hm|]. repeat split.
  - destruct (H 8 1 ltac:(lia) ltac:(lia)) as (s & Hs & _ & _ & H1 & _).
    exists s. split; [exact Hs|]. by destruct (H1 eq_refl) as [-> _].
  - destruct (H 9 1 ltac:(lia) ltac:(lia)) as (s & Hs & _ & _ & H1 & _).
    exists s. split; [exact Hs|]. by destruct (H1 eq_refl) as [-> _].
  - destruct (H 10 5 ltac:(lia) ltac:(lia)) as (s & Hs & _ & _ & _ & H2).
    exists s. split; [exact Hs|].
    destruct H2 as (-> & _ & _ & Hg & _); [lia..|].
    split; [reflexivity|]. apply Hg. by vm_compute.
  - destruct (H 10 3 ltac:(lia) ltac:(lia)) as (s & Hs & _ & _ & _ & H2).
    exists s. split; [exact Hs|].
    destruct H2 as (-> & _ & _ & _ & _ & Hg); [lia..|].
    split; [reflexivity|]. apply Hg. change (10 / 2) with 5. lia.
Defined.

(** The seeded entry for (5,1), and what happens when the store holds
    the very same strategy. *)
Example add_easy_solutions_5_1 :
  (m ← add_easy_solutions ∅ 5; Ok (m !! (5, 1)))
  = Ok (Some (mkStrategy [[".";"1";".";"1";"."]; [".";".";"1";"1";"."];
                          [".";".";".";".";"1"]]%char
                         3 GuaranteedBest.Yes BelongsInFile.No)).
Proof. by vm_compute. Qed.

Lemma preserve_from_file_requires_better_witness :
  let seeded := mkStrategy [[".";"1";".";"1";"."]; [".";".";"1";"1";"."];
                            [".";".";".";".";"1"]]%char
                           3 GuaranteedBest.Yes BelongsInFile.No in
  let loaded := set_belongs_in_file seeded BelongsInFile.Yes in
  preserve_from_file {[ (5, 1) := seeded ]} 5 1 loaded = AssertFail A_overwritten /\
  preserve_from_file ∅ 5 2
    (mkStrategy [] 4 GuaranteedBest.No BelongsInFile.Yes) = AssertFail A_overwritten.
Proof.
  intros seeded loaded. split.
  - refine (proj1 (proj2 (preserve_from_file_requires_better
                            {[ (5, 1) := seeded ]} 5 1 loaded _)) _); [lia|].
    intros [H|(_ & _ & H)]; [vm_compute in H | ]; discriminate H.
  - refine (proj1 (proj2 (preserve_from_file_requires_better ∅ 5 2 _ _)) _); [lia|].
    intros [H|(_ & H & _)]; [vm_compute in H | ]; discriminate H.
Defined.

(** ** Counting positive tests and picking the most tested animal *)

Section Counting.
Implicit Types (test : row) (tsts : list row) (counts : list Z).

Lemma string_at_positive test i c :
  string_at test i = Ok c -> is_one c = positive_at i test.
Proof.
  unfold string_at, positive_at. destruct (test !! i); [by intros [= ->]|].
  case_decide; [by intros [= <-] | done].
Qed.

Lemma string_at_in_range test i :
  (i < length test)%nat -> exists c, string_at test i = Ok c.
Proof.
  intros [c Hc]%lookup_lt_is_Some_2. unfold string_at. rewrite Hc. eauto.
Qed.

Lemma add_row_counts_spec test :
  forall k a counts counts',
    add_row_counts test (seq a k) counts = Ok counts' ->
    length counts' = length counts /\
    forall i, counts' !! i
      = if decide (a <= i < a + k)%nat
        then (fun x => x + Z.b2z (positive_at i test)) <$> counts !! i
        else counts !! i.
Proof.
  induction k as [|k IH]; intros a counts counts'; simpl.
  - intros [= <-]. split; [done|]. intros i. case_decide; [lia | done].
  - destruct (string_at test a) as [c| | |] eqn:Hc; simpl; try done.
    intros (Hlen & Hget)%IH. rewrite length_alter in Hlen.
    split; [done|]. intros i. rewrite Hget.
    rewrite (string_at_positive _ _ _ Hc).
    destruct (decide (i = a)) as [->|Hne].
    + rewrite list_lookup_alter_eq.
      rewrite decide_False by lia. by rewrite decide_True by lia.
    + rewrite list_lookup_alter_ne by done.
      repeat case_decide; try done; lia.
Qed.

Lemma add_row_counts_total test :
  forall k a counts, (a + k <= length test)%nat ->
    exists counts', add_row_counts test (seq a k) counts = Ok counts'.
Proof.
  induction k as [|k IH]; intros a counts Hlen; simpl; [eauto|].
  destruct (string_at_in_range test a) as [c ->]; [lia|]. simpl.
  apply IH. lia.
Qed.

Lemma column_count_cons test tsts i :
  column_count (test :: tsts) i
  = Z.b2z (positive_at i test) + column_count tsts i.
Proof.
  unfold column_count. simpl. destruct (positive_at i test); simpl; lia.
Qed.

Lemma column_count_nonneg tsts i : 0 <= column_count tsts i.
Proof. unfold column_count. lia. Qed.

Lemma count_tests_spec n :
  forall tsts counts counts',
    count_tests tsts n counts = Ok counts' ->
    length counts' = length counts /\
    forall i, (i < n)%nat ->
      counts' !! i = (fun x => x + column_count tsts i) <$> counts !! i.
Proof.
  induction tsts as [|test tsts IH]; intros counts counts'; simpl.
  - intros [= <-]. split; [done|]. intros i _.
    destruct (counts !! i) as [x|]; simpl; [|done].
    f_equal. unfold column_count. simpl. lia.
  - destruct (add_row_counts test (seq 0 n) counts) as [c1| | |] eqn:Hrow;
      simpl; try done.
    apply add_row_counts_spec in Hrow as [Hlen1 Hget1].
    intros (Hlen & Hget)%IH. split; [congruence|].
    intros i Hi. rewrite Hget, Hget1 by done.
    rewrite decide_True by lia.
    destruct (counts !! i) as [x|]; simpl; [|done].
    f_equal. rewrite column_count_cons. lia.
Qed.

Lemma count_tests_total n :
  forall tsts counts, Forall (fun test => (n <= length test)%nat) tsts ->
    exists counts', count_tests tsts n counts = Ok counts'.
Proof.
  induction tsts as [|test tsts IH]; intros counts Hwf; simpl; [eauto|].
  apply Forall_cons in Hwf as [Hlen Hwf].
  destruct (add_row_counts_total test n 0%nat counts) as [c1 ->]; [lia|].
  simpl. by apply IH.
Qed.

(** The counts computed from zeros are the column counts. *)
Lemma count_tests_from_zero tsts n counts :
  count_tests tsts n (replicate n 0) = Ok counts ->
  length counts = n /\
  forall i, (i < n)%nat -> counts !! i = Some (column_count tsts i).
Proof.
  intros (Hlen & Hget)%count_tests_spec.
  rewrite length_replicate in Hlen. split; [done|].
  intros i Hi. rewrite Hget by done.
  by rewrite lookup_replicate_2 by done.
Qed.

Lemma max_element_from_spec :
  forall l bi b i,
    let r := max_element_from bi b i l in
    (r = bi /\ forall x, x ∈ l -> x <= b) \/
    (exists j v, r = (i + j)%nat /\ l !! j = Some v /\ b < v /\
       (forall j' x, (j' < j)%nat -> l !! j' = Some x -> x < v) /\
       (forall x, x ∈ l -> x <= v)).
Proof.
  induction l as [|x l IH]; intros bi b i; simpl.
  - left. split; [done|]. intros x Hx. by apply elem_of_nil in Hx.
  - destruct (Z.ltb_spec b x) as [Hlt|Hge].
    + right. destruct (IH i x (S i)) as [[-> Hall]|(j & v & -> & Hj & Hv & Hbefore & Hall)].
      * exists 0%nat, x. split; [lia|]. split; [done|]. split; [done|].
        split; [intros; lia|].
        intros y [->|Hy]%elem_of_cons; [lia | auto].
      * exists (S j), v. split; [lia|]. split; [done|]. split; [lia|].
        split.
        -- intros [|j'] y Hj'; simpl; [intros [= <-]; lia|].
           apply Hbefore. lia.
        -- intros y [->|Hy]%elem_of_cons; [lia | auto].
    + destruct (IH bi b (S i)) as [[-> Hall]|(j & v & -> & Hj & Hv & Hbefore & Hall)].
      * left. split; [done|].
        intros y [->|Hy]%elem_of_cons; [lia | auto].
      * right. exists (S j), v. split; [lia|]. split; [done|].
        split; [done|]. split.
        -- intros [|j'] y Hj'; simpl; [intros [= <-]; lia|].
           apply Hbefore. lia.
        -- intros y [->|Hy]%elem_of_cons; [lia | auto].
Qed.

(** [max_element] returns the lowest position of the greatest value. *)
Lemma max_element_spec l :
  l <> [] ->
  exists v, l !! max_element l = Some v /\
    (forall j x, l !! j = Some x -> x <= v) /\
    (forall j x, (j < max_element l)%nat -> l !! j = Some x -> x < v).
Proof.
  destruct l as [|x l]; [done|]. intros _. unfold max_element.
  destruct (max_element_from_spec l 0%nat x 1%nat)
    as [[-> Hall]|(j & v & -> & Hj & Hv & Hbefore & Hall)].
  - exists x. split; [done|]. split.
    + intros [|j] y; simpl; [intros [= <-]; lia|].
      intros Hy%list_elem_of_lookup_2. auto.
    + intros; lia.
  - exists v. split; [done|]. split.
    + intros [|j'] y; simpl; [intros [= <-]; lia|].
      intros Hy%list_elem_of_lookup_2. auto.
    + intros [|j'] y Hlt; simpl; [intros [= <-]; lia|].
      apply Hbefore. lia.
Qed.
End Counting.

Section MostTested.
Implicit Types (order : eval_order) (orig : Strategy) (tsts : list row).

Lemma filter_negb_length {A} (p : A -> bool) (l : list A) :
  Z.of_nat (length (List.filter (fun x => negb (p x)) l))
  = Z.of_nat (length l) - Z.of_nat (length (List.filter p l)).
Proof.
  induction l as [|x l IH]; simpl; [done|].
  destruct (p x); simpl; lia.
Qed.

(** The rows that stay when the most tested animal is removed. *)
Lemma replace_most_tested_animal_inv order orig with_wolf s' :
  replace_most_tested_animal order orig with_wolf = Ok s' ->
  exists first rest idx,
    tests orig = first :: rest /\ (idx < length first)%nat /\
    (forall j, (j < length first)%nat ->
       column_count (tests orig) j <= column_count (tests orig) idx) /\
    (forall j, (j < idx)%nat ->
       column_count (tests orig) j < column_count (tests orig) idx) /\
    2 <= column_count (tests orig) idx /\
    let kept := if with_wolf
                then List.filter (fun test => negb (positive_at idx test)) (tests orig)
                else tests orig in
    Forall (fun test => (idx < length test)%nat) kept /\
    s' = mkStrategy (map (delete idx) kept)
                    (Z.of_nat (match order with
                               | SizeFirst => length kept
                               | CaptureFirst => O
                               end))
                    GuaranteedBest.No BelongsInFile.No.
Proof.
  unfold replace_most_tested_animal.
  destruct (tests orig) as [|first rest] eqn:Htests; [done|].
  destruct (count_tests (first :: rest) (length first)
              (replicate (length first) 0)) as [counts| | |] eqn:Hcounts;
    simpl; try done.
  apply count_tests_from_zero in Hcounts as [Hlen Hget].
  destruct (counts !! max_element counts) as [v|] eqn:Hv; [|done].
  assert (Hidx : (max_element counts < length first)%nat).
  { rewrite <- Hlen. by eapply lookup_lt_Some. }
  assert (Hne : counts <> []) by (intros ->; simpl in Hlen; lia).
  destruct (max_element_spec counts Hne) as (v' & Hv' & Hmax & Hfirst).
  rewrite Hv in Hv'. injection Hv' as <-.
  rewrite Hget in Hv by done. injection Hv as <-.
  unfold assert. destruct (Z.leb_spec 2 (column_count (first :: rest)
                                         (max_element counts))); [|done].
  simpl. destruct (forallb _ _) eqn:Hlong; [|done]. intros [= <-].
  exists first, rest, (max_element counts).
  split; [done|]. split; [done|]. split; [|split; [|split; [done|split; [|done]]]].
  - intros j Hj. eapply Hmax. by apply Hget.
  - intros j Hj. eapply Hfirst; [done|]. apply Hget. lia.
  - apply Forall_forall. intros test Hin.
    rewrite forallb_forall in Hlong. apply Nat.ltb_lt, Hlong.
    by apply list_elem_of_In.
Qed.

(** On a matrix whose rows are as long as the first one and not empty,
    the function returns a strategy or stops on its assertion, and it
    stops exactly when no animal is in two tests. *)
Lemma replace_most_tested_animal_total order orig with_wolf first rest :
  tests orig = first :: rest -> first <> [] ->
  Forall (fun test => (length first <= length test)%nat) (tests orig) ->
  (exists s', replace_most_tested_animal order orig with_wolf = Ok s') \/
  (replace_most_tested_animal order orig with_wolf = AssertFail A_most_tested /\
   forall j, (j < length first)%nat -> column_count (tests orig) j < 2).
Proof.
  intros Htests Hne Hwf. unfold replace_most_tested_animal.
  rewrite Htests in *.
  destruct (count_tests_total (length first) (first :: rest)
              (replicate (length first) 0) Hwf) as [counts Hcounts].
  rewrite Hcounts, bind_Ok.
  apply count_tests_from_zero in Hcounts as [Hlen Hget].
  assert (Hcne : counts <> []).
  { intros ->. destruct first; [done | simpl in Hlen; lia]. }
  destruct (max_element_spec counts Hcne) as (v & Hv & Hmax & _).
  rewrite Hv. unfold assert.
  destruct (Z.leb_spec 2 v) as [Hge|Hlt].
  - left. rewrite bind_Ok. cbv zeta.
    rewrite (proj2 (forallb_forall _ _)); [eauto|].
    intros test Hin. apply Nat.ltb_lt.
    assert (max_element counts < length first)%nat
      by (rewrite <- Hlen; by eapply lookup_lt_Some).
    assert (test ∈ first :: rest) as Hmem.
    { destruct with_wolf; [|by apply list_elem_of_In].
      apply filter_In in Hin as [Hin _]. by apply list_elem_of_In. }
    rewrite Forall_forall in Hwf. specialize (Hwf _ Hmem). lia.
  - right. split; [done|]. intros j Hj.
    specialize (Hmax j _ (Hget j Hj)). lia.
Qed.
End MostTested.

(** C4: when [replace_most_tested_animal] is asked to remove the most
    tested animal as a wolf and returns, the animal [idx] it picked has
    the greatest number of positive tests and is the lowest index with
    that number; the new rows are the rows not positive for [idx], each
    with column [idx] deleted, so there are as many as the old number
    of rows less the rows dropped; the result is not guaranteed best;
    and under the guard of rule 2 (2 <= D < N, T < N-1, D-1 >= 2) it is
    the candidate proposed for (N-1, D-1), after the one for (N-1, D).
    The test count stored with it is that number of rows only in a
    build that evaluates [tests.size()] before the capture.  In a build
    that evaluates the capture first it is 0, which differs from T less
    the rows dropped as soon as one row is kept. *)
Theorem replace_most_tested_animal_with_wolf
    (order : eval_order) (orig s' : Strategy) :
  replace_most_tested_animal order orig true = Ok s' ->
  (exists (idx : nat) (first : row),
    head (tests orig) = Some first /\ (idx < length first)%nat /\
    (forall j, (j < length first)%nat ->
       column_count (tests orig) j <= column_count (tests orig) idx) /\
    (forall j, (j < idx)%nat ->
       column_count (tests orig) j < column_count (tests orig) idx) /\
    tests s' = map (delete idx)
                 (List.filter (fun test => negb (positive_at idx test)) (tests orig)) /\
    Z.of_nat (length (tests s'))
    = Z.of_nat (length (tests orig)) - column_count (tests orig) idx /\
    t s' = match order with
           | SizeFirst => Z.of_nat (length (tests s'))
           | CaptureFirst => 0
           end /\
    (t orig = Z.of_nat (length (tests orig)) ->
     match order with
     | SizeFirst => t s' = t orig - column_count (tests orig) idx
     | CaptureFirst =>
         tests s' <> [] -> t s' <> t orig - column_count (tests orig) idx
     end)) /\
  guaranteed_best s' = GuaranteedBest.No /\
  forall recur (m : table) n d,
    2 <= d < n -> t orig < n - 1 -> d - 1 >= 2 ->
    rule_remove order recur m (Pair (n, d) orig) n d (t orig)
    = (smaller ← replace_most_tested_animal order orig false;
       m1 ← propose recur m (n - 1, d) smaller;
       propose recur m1 (n - 1, d - 1) s').
Proof.
  intros Hrun.
  destruct (replace_most_tested_animal_inv _ _ _ _ Hrun)
    as (first & rest & idx & Htests & Hidx & Hmax & Hlow & Htwo & _ & ->).
  split; [|split; [done|]].
  - exists idx, first. cbn [tests t].
    split; [by rewrite Htests|]. split; [done|]. split; [done|]. split; [done|].
    rewrite length_map.
    split; [done|]. split; [apply filter_negb_length|].
    split; [by destruct order|].
    intros Ht. destruct order; [rewrite Ht; apply filter_negb_length|].
    intros Hkept. rewrite Ht. unfold column_count.
    rewrite <- filter_negb_length.
    destruct (List.filter _ (tests orig)); [done | simpl; lia].
  - intros recur m n d Hd Ht Hd2. unfold rule_remove.
    destruct (Z.leb_spec 2 d); [|lia]. destruct (Z.ltb_spec d n); [|lia].
    destruct (Z.ltb_spec (t orig) (n - 1)); [|lia]. simpl.
    destruct (replace_most_tested_animal order orig false) as [s1| | |];
      simpl; try done.
    destruct (propose recur m (n - 1, d) s1) as [m1| | |]; simpl; try done.
    destruct (Z.geb_spec (d - 1) 2); [|lia].
    by rewrite Hrun.
Qed.

Example replace_most_tested_animal_example :
  let orig := Strategy_of_vec
                (rows_of ["11.1.."; "1.1.1."; ".11..1"; "...111"]%string)
                GuaranteedBest.No BelongsInFile.Yes in
  replace_most_tested_animal SizeFirst orig true
  = Ok (mkStrategy (rows_of ["11..1"; "..111"]%string) 2
                   GuaranteedBest.No BelongsInFile.No) /\
  replace_most_tested_animal SizeFirst orig false
  = Ok (mkStrategy (rows_of ["1.1.."; ".1.1."; "11..1"; "..111"]%string) 4
                   GuaranteedBest.No BelongsInFile.No) /\
  replace_most_tested_animal CaptureFirst orig true
  = Ok (mkStrategy (rows_of ["11..1"; "..111"]%string) 0
                   GuaranteedBest.No BelongsInFile.No) /\
  replace_most_tested_animal CaptureFirst orig false
  = Ok (mkStrategy (rows_of ["1.1.."; ".1.1."; "11..1"; "..111"]%string) 0
                   GuaranteedBest.No BelongsInFile.No).
Proof. by vm_compute. Qed.

(** The failing input of C4: four tests of which two are dropped, and
    a stored test count of 0 where the claim says 2. *)
Lemma replace_most_tested_animal_with_wolf_witness :
  let orig := Strategy_of_vec
                (rows_of ["11.1.."; "1.1.1."; ".11..1"; "...111"]%string)
                GuaranteedBest.No BelongsInFile.Yes in
  let s' := mkStrategy (rows_of ["11..1"; "..111"]%string) 0
                       GuaranteedBest.No BelongsInFile.No in
  replace_most_tested_animal CaptureFirst orig true = Ok s' /\
  (exists idx : nat,
     tests s' = map (delete idx)
                  (List.filter (fun test => negb (positive_at idx test)) (tests orig)) /\
     Z.of_nat (length (tests s'))
     = t orig - column_count (tests orig) idx /\
     t s' = 0 /\
     t s' <> t orig - column_count (tests orig) idx).
Proof.
  intros orig s'.
  destruct (replace_most_tested_animal_with_wolf CaptureFirst orig s' eq_refl)
    as ((idx & first & _ & _ & _ & _ & Hrows & Hlen & Ht & Hdiff) & _ & _).
  split; [reflexivity|]. exists idx.
  split; [exact Hrows|]. split; [exact Hlen|]. split; [exact Ht|].
  apply Hdiff; [reflexivity | discriminate].
Defined.

(** ** Why a separating matrix with few tests has a much tested animal

    Two animals with the same column cannot be told apart, so the
    columns of a strategy that works are pairwise different. *)

Section Pigeonhole.
Implicit Types (tsts : list row).

Lemma column_count_zero tsts i :
  column_count tsts i <= 0 -> column tsts i = map (fun _ => false) tsts.
Proof.
  induction tsts as [|test tsts IH]; [done|].
  rewrite column_count_cons. pose proof (column_count_nonneg tsts i).
  unfold column in *. simpl. destruct (positive_at i test); simpl; [lia|].
  intros Hzero. f_equal. apply IH. lia.
Qed.

Lemma first_positive_lt tsts i r :
  first_positive tsts i = Some r -> (r < length tsts)%nat.
Proof.
  revert r. induction tsts as [|test tsts IH]; intros r; simpl; [done|].
  destruct (positive_at i test); [intros [= <-]; lia|].
  destruct (first_positive tsts i) as [r'|]; simpl; [|done].
  intros [= <-]. specialize (IH r' eq_refl). lia.
Qed.

(** A column with at most one positive test is known from where that
    test is. *)
Lemma column_determined tsts i j :
  column_count tsts i <= 1 -> column_count tsts j <= 1 ->
  first_positive tsts i = first_positive tsts j ->
  column tsts i = column tsts j.
Proof.
  induction tsts as [|test tsts IH]; [done|].
  rewrite !column_count_cons.
  pose proof (column_count_nonneg tsts i). pose proof (column_count_nonneg tsts j).
  unfold column in *. simpl.
  destruct (positive_at i test), (positive_at j test); simpl; intros Hi Hj Hfirst.
  - f_equal. fold (column tsts i) (column tsts j).
    rewrite !column_count_zero by lia. done.
  - by destruct (first_positive tsts j).
  - by destruct (first_positive tsts i).
  - f_equal. apply IH; [lia | lia |].
    destruct (first_positive tsts i), (first_positive tsts j); simpl in *; congruence.
Qed.

(** With fewer than N-1 tests for N animals whose columns all differ,
    some animal is in at least two tests. *)
Lemma distinct_columns_much_tested (N : nat) tsts :
  (forall i j, (i < j < N)%nat -> column tsts i <> column tsts j) ->
  Z.of_nat (length tsts) < Z.of_nat N - 1 ->
  exists i, (i < N)%nat /\ 2 <= column_count tsts i.
Proof.
  intros Hdistinct Hfew.
  destruct (decide (Exists (fun i => 2 <= column_count tsts i) (seq 0 N)))
    as [Hex|Hall].
  - apply Exists_exists in Hex as (i & Hi%elem_of_seq & Hcount).
    exists i. split; [lia | done].
  - exfalso. apply not_Exists_Forall in Hall; [|intros i; apply _].
    assert (Hsmall : forall i, (i < N)%nat -> column_count tsts i <= 1).
    { intros i Hi. eapply Forall_forall in Hall; [|apply elem_of_seq; split; [lia|exact Hi]].
      simpl in Hall. lia. }
    set (codes := (fun i => first_positive tsts i) <$> seq 0 N).
    set (slots := None :: (Some <$> seq 0 (length tsts))).
    assert (Hnodup : NoDup codes).
    { apply NoDup_fmap_2_strong; [|apply NoDup_seq].
      intros i j Hi%elem_of_seq Hj%elem_of_seq Hcode.
      assert (Hcol : column tsts i = column tsts j)
        by (apply column_determined; auto with lia).
      destruct (Nat.lt_trichotomy i j) as [Hlt|[Heq|Hgt]]; [|done|].
      - by destruct (Hdistinct i j ltac:(lia)).
      - by destruct (Hdistinct j i ltac:(lia)). }
    assert (Hincl : codes ⊆ slots).
    { intros code (i & -> & _)%list_elem_of_fmap. unfold slots.
      destruct (first_positive tsts i) as [r|] eqn:Hr; [|left].
      right. apply list_elem_of_fmap. exists r. split; [done|].
      apply elem_of_seq. pose proof (first_positive_lt _ _ _ Hr). lia. }
    pose proof (submseteq_length _ _ (NoDup_submseteq _ _ Hnodup Hincl)) as Hlen.
    unfold codes, slots in Hlen. simpl in Hlen.
    rewrite !length_fmap, !length_seq in Hlen. lia.
Qed.

(** So on such a matrix the transform never stops on its assertion. *)
Lemma replace_most_tested_animal_separating order orig with_wolf (N : nat) :
  well_formed N (tests orig) ->
  (forall i j, (i < j < N)%nat -> column (tests orig) i <> column (tests orig) j) ->
  Z.of_nat (length (tests orig)) < Z.of_nat N - 1 ->
  exists s', replace_most_tested_animal order orig with_wolf = Ok s'.
Proof.
  intros Hwf Hdistinct Hfew.
  destruct (distinct_columns_much_tested N (tests orig) Hdistinct Hfew)
    as (i & Hi & Hcount).
  destruct (tests orig) as [|first rest] eqn:Htests.
  { unfold column_count in Hcount. simpl in Hcount. lia. }
  pose proof Hwf as Hwf'. apply Forall_cons in Hwf' as [Hfirst _].
  destruct (replace_most_tested_animal_total order orig with_wolf first rest Htests)
    as [Hok|[_ Hnone]].
  - intros ->. simpl in Hfirst. lia.
  - rewrite Htests. eapply Forall_impl; [exact Hwf|]. simpl. intros test ->. lia.
  - done.
  - specialize (Hnone i ltac:(lia)). rewrite Htests in Hnone. lia.
Qed.
End Pigeonhole.

(** ** The cascade *)

Section Cascade.
Implicit Types (m : table) (kv : kvref) (k : ND).
Variable lo : Z.
Variable ks : list ND.
Hypothesis lo_nonpos : lo <= 0.
Variable order : eval_order.

Local Abbreviation settles := (settles lo ks).
Local Abbreviation kv_bounded := (kv_bounded lo).

Lemma rank_better s cur :
  lo <= t s -> isBetterThan s cur = true -> (rank lo s < rank lo cur)%nat.
Proof.
  intros Hlo [Hlt|(Heq & Hs & Hcur)]%isBetterThan_better; unfold rank.
  - destruct (guaranteed_best s), (guaranteed_best cur); simpl; lia.
  - rewrite Hs, Hcur, Heq. simpl. lia.
Qed.

Lemma rank_installed s cur : rank lo (installed s cur) = rank lo s.
Proof. unfold rank. by rewrite installed_t, installed_guaranteed_best. Qed.

(** Lowering the rank at one listed key, leaving the others, lowers
    the weight. *)
Lemma weight_insert_le m k s l :
  (rank lo s <= rank_at lo m k)%nat ->
  (sum_list (map (rank_at lo (<[k := s]> m)) l)
   <= sum_list (map (rank_at lo m) l))%nat.
Proof.
  intros Hle. induction l as [|k' l IH]; simpl; [done|].
  assert (rank_at lo (<[k := s]> m) k' <= rank_at lo m k')%nat; [|lia].
  unfold rank_at at 1. rewrite lookup_insert. case_decide; [by subst | done].
Qed.

Lemma weight_insert_lt m k s :
  k ∈ ks -> (rank lo s < rank_at lo m k)%nat ->
  (weight lo ks (<[k := s]> m) < weight lo ks m)%nat.
Proof.
  intros Hin Hlt. unfold weight. induction Hin as [k l|k k' l Hin IH]; simpl.
  - pose proof (weight_insert_le m k s l ltac:(lia)).
    assert (rank_at lo (<[k := s]> m) k = rank lo s)
      by (unfold rank_at; by rewrite lookup_insert_eq).
    lia.
  - assert (rank_at lo (<[k := s]> m) k' <= rank_at lo m k')%nat; [|lia].
    unfold rank_at at 1. rewrite lookup_insert.
    case_decide; [subst; lia | done].
Qed.

(** A successful update keeps the bounds and strictly lowers the
    weight; an unsuccessful one changes nothing. *)
Lemma overwrite_if_better_weight m n d s m' b :
  bounded lo ks m -> lo <= t s ->
  overwrite_if_better m n d s = Ok (m', b) ->
  bounded lo ks m' /\
  (if b then (weight lo ks m' < weight lo ks m)%nat /\ is_Some (m' !! (n, d))
   else m' = m).
Proof.
  intros Hbd Hlo
    (_ & [(-> & -> & _)|(-> & cur & Hcur & Hb & Hg & ->)])%overwrite_if_better_inv.
  - done.
  - destruct (Hbd _ _ Hcur) as [Hcur_lo Hin]. split; [|split].
    + intros k s0. rewrite lookup_insert. case_decide as E.
      * intros [= <-]. subst k. by rewrite installed_t.
      * apply Hbd.
    + apply weight_insert_lt; [done|].
      unfold rank_at. rewrite Hcur, rank_installed. by apply rank_better.
    + rewrite lookup_insert_eq. eauto.
Qed.

Lemma settles_ret m (w : nat) :
  bounded lo ks m -> (weight lo ks m <= w)%nat -> settles w (Ok m).
Proof. intros Hbd Hw. split; [done|]. by intros m' [= <-]. Qed.

Lemma settles_bind (w : nat) (x : outcome table) (f : table -> outcome table) :
  settles w x ->
  (forall m1, bounded lo ks m1 -> (weight lo ks m1 <= w)%nat -> settles w (f m1)) ->
  settles w (x ≫= f).
Proof.
  intros [Hfin Hpost] Hf. destruct x as [m1| | |]; simpl; try done.
  destruct (Hpost m1 eq_refl). by apply Hf.
Qed.

Lemma settles_stop {A} (w : nat) (x : outcome A) (f : A -> outcome table) :
  finished x ->
  (forall a, x = Ok a -> settles w (f a)) ->
  settles w (x ≫= f).
Proof.
  intros Hfin Hf. destruct x as [a| | |]; simpl; try done; auto.
Qed.

Lemma overwrite_if_better_finished m n d s :
  finished (overwrite_if_better m n d s).
Proof.
  unfold overwrite_if_better, assert.
  destruct (0 <=? n); simpl; [|done].
  destruct ((0 <=? d) && (d <=? n)); simpl; [|done].
  destruct (m !! (n, d)) as [cur|]; [|done].
  destruct (isBetterThan s cur); [|done].
  by destruct (GuaranteedBest.eqb _ _).
Qed.

Lemma kv_second_finished m kv : finished (kv_second m kv).
Proof. destruct kv as [k s|k]; simpl; [done|]. by destruct (m !! k). Qed.

Lemma replace_most_tested_animal_finished s w :
  finished (replace_most_tested_animal order s w).
Proof.
  unfold replace_most_tested_animal. destruct (tests s) as [|first rest]; [done|].
  assert (Hrow : forall test idxs counts,
             finished (add_row_counts test idxs counts)).
  { intros test. induction idxs as [|i idxs IH]; intros counts; simpl; [done|].
    unfold string_at. destruct (test !! i); simpl; [apply IH|].
    case_decide; simpl; [apply IH | done]. }
  assert (Hcnt : forall tsts n counts, finished (count_tests tsts n counts)).
  { induction tsts as [|test tsts IH]; intros n counts; simpl; [done|].
    specialize (Hrow test (seq 0 n) counts).
    destruct (add_row_counts test (seq 0 n) counts); simpl; try done; apply IH. }
  specialize (Hcnt (first :: rest) (length first) (replicate (length first) 0)).
  destruct (count_tests _ _ _) as [counts| | |]; simpl; try done.
  destruct (counts !! max_element counts) as [v|]; [|done].
  unfold assert. destruct (2 <=? v); simpl; [|done]. by destruct (forallb _ _).
Qed.

Lemma replace_most_tested_animal_t s w s' :
  replace_most_tested_animal order s w = Ok s' -> 0 <= t s'.
Proof.
  intros (first & rest & idx & _ & _ & _ & _ & _ & _ & ->)%replace_most_tested_animal_inv.
  simpl. lia.
Qed.

Lemma kv_second_bounded m kv s :
  bounded lo ks m -> kv_bounded kv -> kv_second m kv = Ok s -> lo <= t s.
Proof.
  intros Hbd Hkv. destruct kv as [k s0|k]; simpl in *.
  - by intros [= <-].
  - destruct (m !! k) as [s0|] eqn:E; [|done]. intros [= <-].
    by destruct (Hbd _ _ E).
Qed.

Section Step.
Variable recur : table -> ND -> outcome table.
Variable w : nat.
Hypothesis recur_settles :
  forall m k, bounded lo ks m -> (weight lo ks m < w)%nat ->
    settles (weight lo ks m) (recur m k).

Lemma settles_weaken (w1 w2 : nat) x : (w1 <= w2)%nat -> settles w1 x -> settles w2 x.
Proof.
  intros Hle [Hfin Hpost]. split; [done|]. intros m' Hm'.
  destruct (Hpost m' Hm'). split; [done | lia].
Qed.

Lemma propose_settles m k cand :
  bounded lo ks m -> (weight lo ks m <= w)%nat -> lo <= t cand ->
  settles w (propose recur m k cand).
Proof.
  intros Hbd Hw Hcand. unfold propose.
  apply settles_stop; [apply overwrite_if_better_finished|].
  intros [m' b] Hrun.
  destruct (overwrite_if_better_weight _ _ _ _ _ _ Hbd Hcand Hrun) as [Hbd' Hb].
  destruct b.
  - destruct Hb as [Hlt _].
    eapply settles_weaken; [|apply recur_settles; [done | lia]]. lia.
  - subst m'. by apply settles_ret.
Qed.

Lemma rule_remove_settles m kv n d t0 :
  bounded lo ks m -> (weight lo ks m <= w)%nat -> kv_bounded kv ->
  settles w (rule_remove order recur m kv n d t0).
Proof.
  intros Hbd Hw Hkv. unfold rule_remove.
  destruct ((2 <=? d) && (d <? n) && (t0 <? n - 1)); [|by apply settles_ret].
  apply settles_stop; [apply kv_second_finished|]. intros s Hs.
  apply settles_stop; [apply replace_most_tested_animal_finished|].
  intros s1 Hs1%replace_most_tested_animal_t.
  apply settles_bind; [apply propose_settles; auto; lia|].
  intros m1 Hbd1 Hw1.
  destruct (d - 1 >=? 2); [|by apply settles_ret].
  apply settles_stop; [apply kv_second_finished|]. intros s' Hs'.
  apply settles_stop; [apply replace_most_tested_animal_finished|].
  intros s2 Hs2%replace_most_tested_animal_t.
  apply propose_settles; auto; lia.
Qed.

Lemma rule_relax_settles m kv n d t0 :
  bounded lo ks m -> (weight lo ks m <= w)%nat -> kv_bounded kv ->
  settles w (rule_relax recur m kv n d t0).
Proof.
  intros Hbd Hw Hkv. unfold rule_relax.
  destruct ((2 <? d) && (d <? n - 1) && (t0 <? n - 1)); [|by apply settles_ret].
  apply settles_stop; [apply kv_second_finished|]. intros s Hs.
  apply propose_settles; auto. simpl. by eapply kv_second_bounded.
Qed.

Lemma rule_pad_settles m kv n d t0 :
  bounded lo ks m -> (weight lo ks m <= w)%nat -> kv_bounded kv ->
  settles w (rule_pad recur m kv n d t0).
Proof.
  intros Hbd Hw Hkv. unfold rule_pad.
  destruct ((2 <=? d) && (d <? n) && (t0 <? n - 1)); [|by apply settles_ret].
  apply settles_stop; [apply kv_second_finished|]. intros s Hs.
  apply propose_settles; auto. simpl.
  pose proof (kv_second_bounded _ _ _ Hbd Hkv Hs). lia.
Qed.

Lemma rule_double_settles m kv n d :
  bounded lo ks m -> (weight lo ks m <= w)%nat -> kv_bounded kv ->
  settles w (rule_double recur m kv n d).
Proof.
  intros Hbd Hw Hkv. unfold rule_double.
  apply settles_stop; [apply kv_second_finished|]. intros s Hs.
  destruct (Z.eqb_spec (t s) (n - 1)) as [E|_]; [|by apply settles_ret].
  apply propose_settles; auto. simpl.
  pose proof (kv_second_bounded _ _ _ Hbd Hkv Hs). lia.
Qed.
End Step.

(** With more fuel than the weight of the table, the cascade ends. *)
Lemma add_solutions_derived_from_settles :
  forall fuel m kv,
    bounded lo ks m -> kv_bounded kv -> (weight lo ks m < fuel)%nat ->
    settles (weight lo ks m) (add_solutions_derived_from order fuel m kv).
Proof.
  induction fuel as [|fuel IH]; intros m kv Hbd Hkv Hfuel; [lia|].
  simpl.
  set (recur := fun m' k => add_solutions_derived_from order fuel m' (Node k)).
  assert (Hrec : forall m1 k, bounded lo ks m1 ->
            (weight lo ks m1 < weight lo ks m)%nat ->
            settles (weight lo ks m1) (recur m1 k)).
  { intros m1 k Hbd1 Hlt. apply IH; [done | done | lia]. }
  apply settles_stop; [apply kv_second_finished|]. intros s Hs.
  apply settles_bind; [by apply rule_remove_settles|]. intros m1 Hbd1 Hw1.
  apply settles_bind; [by apply rule_relax_settles|]. intros m2 Hbd2 Hw2.
  apply settles_bind; [by apply rule_pad_settles|]. intros m3 Hbd3 Hw3.
  by apply rule_double_settles.
Qed.
End Cascade.

Section Fuel.
Implicit Types (m : table) (kv : kvref) (k : ND).

Lemma bind_extends {A B} (x : outcome A) (f1 f2 : A -> outcome B) :
  (forall a, x = Ok a -> finished (f1 a) -> f2 a = f1 a) ->
  finished (x ≫= f1) -> x ≫= f2 = x ≫= f1.
Proof. destruct x; simpl; auto. Qed.

Lemma bind_extends2 {A B} (x1 x2 : outcome A) (f1 f2 : A -> outcome B) :
  (finished x1 -> x2 = x1) ->
  (forall a, x1 = Ok a -> finished (f1 a) -> f2 a = f1 a) ->
  finished (x1 ≫= f1) -> x2 ≫= f2 = x1 ≫= f1.
Proof.
  intros Hx Hf Hfin. rewrite Hx.
  - by apply bind_extends.
  - intros ->. by apply Hfin.
Qed.

Variable order : eval_order.
Variables r1 r2 : table -> ND -> outcome table.
Hypothesis r12 : extends r1 r2.

Lemma propose_extends m k cand :
  finished (propose r1 m k cand) -> propose r2 m k cand = propose r1 m k cand.
Proof.
  unfold propose. apply bind_extends. intros [m' b] _.
  destruct b; [apply r12 | done].
Qed.

Lemma rule_remove_extends m kv n d t0 :
  finished (rule_remove order r1 m kv n d t0) ->
  rule_remove order r2 m kv n d t0 = rule_remove order r1 m kv n d t0.
Proof.
  unfold rule_remove. destruct (_ && _); [|done].
  apply bind_extends. intros s _. apply bind_extends. intros s1 _.
  apply bind_extends2; [apply propose_extends|]. intros m1 _.
  destruct (d - 1 >=? 2); [|done].
  apply bind_extends. intros s' _. apply bind_extends. intros s2 _.
  apply propose_extends.
Qed.

Lemma rule_relax_extends m kv n d t0 :
  finished (rule_relax r1 m kv n d t0) ->
  rule_relax r2 m kv n d t0 = rule_relax r1 m kv n d t0.
Proof.
  unfold rule_relax. destruct (_ && _); [|done].
  apply bind_extends. intros s _. apply propose_extends.
Qed.

Lemma rule_pad_extends m kv n d t0 :
  finished (rule_pad r1 m kv n d t0) ->
  rule_pad r2 m kv n d t0 = rule_pad r1 m kv n d t0.
Proof.
  unfold rule_pad. destruct (_ && _); [|done].
  apply bind_extends. intros s _. apply propose_extends.
Qed.

Lemma rule_double_extends m kv n d :
  finished (rule_double r1 m kv n d) ->
  rule_double r2 m kv n d = rule_double r1 m kv n d.
Proof.
  unfold rule_double. apply bind_extends. intros s _.
  destruct (_ =? _); [apply propose_extends | done].
Qed.
End Fuel.

(** Once the cascade ends with some fuel, more fuel changes nothing. *)
Lemma add_solutions_derived_from_fuel_S (order : eval_order) :
  forall fuel (m : table) kv,
    finished (add_solutions_derived_from order fuel m kv) ->
    add_solutions_derived_from order (S fuel) m kv = add_solutions_derived_from order fuel m kv.
Proof.
  induction fuel as [|fuel IH]; intros m kv Hfin; [done|].
  remember (S fuel) as fuel1 eqn:Hfuel1.
  rewrite Hfuel1 at 2. rewrite Hfuel1 in Hfin. revert Hfin. simpl.
  assert (Hext : extends
            (fun m' k => add_solutions_derived_from order fuel m' (Node k))
            (fun m' k => add_solutions_derived_from order fuel1 m' (Node k))).
  { intros m' k Hfin'. subst fuel1. by apply IH. }
  apply bind_extends. intros s _.
  apply bind_extends2; [by apply rule_remove_extends|]. intros m1 _.
  apply bind_extends2; [by apply rule_relax_extends|]. intros m2 _.
  apply bind_extends2; [by apply rule_pad_extends|]. intros m3 _.
  by apply rule_double_extends.
Qed.

Lemma add_solutions_derived_from_fuel_le (order : eval_order) :
  forall fuel fuel' (m : table) kv,
    (fuel <= fuel')%nat ->
    finished (add_solutions_derived_from order fuel m kv) ->
    add_solutions_derived_from order fuel' m kv = add_solutions_derived_from order fuel m kv.
Proof.
  intros fuel fuel' m kv Hle Hfin. induction Hle as [|fuel' Hle IH]; [done|].
  rewrite add_solutions_derived_from_fuel_S; [done|]. by rewrite IH.
Qed.

(** Every table has a floor under its test counts. *)
Lemma table_floor (m : table) :
  exists lo, lo <= 0 /\ forall k s, m !! k = Some s -> lo <= t s.
Proof.
  induction m as [|k s m Hk IH] using map_ind.
  - exists 0. split; [done|]. intros k s. by rewrite lookup_empty.
  - destruct IH as (lo & Hlo & Hall). exists (Z.min lo (t s)).
    split; [lia|]. intros k' s'. rewrite lookup_insert. case_decide.
    + intros [= <-]. lia.
    + intros Hs'. specialize (Hall _ _ Hs'). lia.
Qed.

Lemma table_bounded (m : table) (kv : kvref) :
  exists lo ks, lo <= 0 /\ bounded lo ks m /\ kv_bounded lo kv.
Proof.
  destruct (table_floor m) as (lo & Hlo & Hall).
  set (lo' := match kv with Pair _ s => Z.min lo (t s) | Node _ => lo end).
  exists lo', (map fst (map_to_list m)).
  assert (lo' <= lo) by (unfold lo'; destruct kv; lia).
  split; [lia|]. split.
  - intros k s Hs. split; [specialize (Hall _ _ Hs); lia|].
    apply list_elem_of_fmap. exists (k, s). split; [done|].
    by apply elem_of_map_to_list.
  - unfold lo'. destruct kv; simpl; [lia | done].
Qed.

(** C9: the cascade ends, whatever the table and the starting entry:
    there is an amount of fuel from which [add_solutions_derived_from]
    no longer runs out, and its outcome is then the same for every
    larger amount.  The reasons are the claim's: a key with no entry is
    left alone and not followed; the procedure is re-entered only after
    an update that installed a strictly better strategy at an existing
    key; and every such update strictly lowers the weight of the table
    (twice the distance of each stored test count to a common floor,
    plus one per entry not guaranteed best), a natural number.  The
    run ends with a table, by stopping on one of the assertions, or at
    a read that C++ leaves undefined ([replace_most_tested_animal] on a
    strategy without tests).  This holds in either order of evaluation
    of the arguments that build a candidate. *)
Theorem cascade_terminates (order : eval_order) (m : table) (kv : kvref) :
  (exists (fuel : nat) (result : outcome table),
     finished result /\
     forall fuel', (fuel <= fuel')%nat ->
       add_solutions_derived_from order fuel' m kv = result) /\
  (forall recur k cand,
     0 <= k.2 <= k.1 -> m !! k = None -> propose recur m k cand = Ok m) /\
  (forall recur k cand m1,
     overwrite_if_better m k.1 k.2 cand = Ok (m1, false) ->
     m1 = m /\ propose recur m k cand = Ok m) /\
  (forall recur k cand m1,
     overwrite_if_better m k.1 k.2 cand = Ok (m1, true) ->
     propose recur m k cand = recur m1 k /\
     exists cur, m !! k = Some cur /\ better cand cur /\
       m1 = <[k := installed cand cur]> m /\
       forall lo ks, bounded lo ks m -> lo <= t cand ->
         (weight lo ks m1 < weight lo ks m)%nat).
Proof.
  split; [|split; [|split]].
  - destruct (table_bounded m kv) as (lo & ks & Hlo & Hbd & Hkv).
    exists (S (weight lo ks m)), (add_solutions_derived_from order (S (weight lo ks m)) m kv).
    destruct (add_solutions_derived_from_settles lo ks Hlo order
                (S (weight lo ks m)) m kv)
      as [Hfin _]; [done | done | lia |].
    split; [done|]. intros fuel' Hle.
    by apply add_solutions_derived_from_fuel_le.
  - intros recur [n d] cand Hkey Hnone. unfold propose. simpl in *.
    by rewrite overwrite_if_better_absent.
  - intros recur [n d] cand m1 Hrun. unfold propose. rewrite Hrun. simpl in *.
    apply overwrite_if_better_inv in Hrun as (_ & [(_ & -> & _)|(? & _)]); done.
  - intros recur [n d] cand m1 Hrun. unfold propose. rewrite Hrun.
    split; [done|]. simpl in *.
    pose proof Hrun as (_ & [(? & _)|(_ & cur & Hcur & Hb & Hg & ->)])%overwrite_if_better_inv;
      [done|].
    exists cur. split; [done|]. split; [by apply isBetterThan_better|].
    split; [done|]. intros lo ks Hbd Hlo.
    destruct (overwrite_if_better_weight lo ks _ _ _ _ _ _ Hbd Hlo Hrun) as [_ [Hlt _]].
    done.
Qed.

(** A store entry for nine animals and two wolves (rows and columns of
    a 3 by 3 square), merged into the seeded table and followed, in a
    build that evaluates [tests.size()] first. *)
Example cascade_from_grid :
  let grid := Strategy_of_vec
                (rows_of ["111......"; "...111..."; "......111";
                          "1..1..1.."; ".1..1..1."; "..1..1..1"]%string)
                GuaranteedBest.No BelongsInFile.Yes in
  (m ← add_easy_solutions ∅ 10;
   m1 ← preserve_from_file m 9 2 grid;
   m2 ← add_solutions_derived_from SizeFirst 3 m1 (Pair (9, 2) grid);
   Ok (t <$> m2 !! (8, 2), t <$> m2 !! (9, 2), t <$> m2 !! (10, 2),
       tests <$> m2 !! (8, 2)))
  = Ok (Some 6, Some 6, Some 7,
        Some (rows_of ["11......"; "..111..."; ".....111";
                       "..1..1.."; "1..1..1."; ".1..1..1"]%string)).
Proof. by vm_compute. Qed.

Lemma cascade_terminates_witness :
  let grid := Strategy_of_vec
                (rows_of ["111......"; "...111..."; "......111";
                          "1..1..1.."; ".1..1..1."; "..1..1..1"]%string)
                GuaranteedBest.No BelongsInFile.Yes in
  let m : table := {[ (9, 2) := grid;
                      (8, 2) := worst_case_strategy 8 GuaranteedBest.No ]} in
  (exists (fuel : nat) (result : outcome table),
     finished result /\
     forall fuel', (fuel <= fuel')%nat ->
       add_solutions_derived_from SizeFirst fuel' m (Pair (9, 2) grid) = result) /\
  (exists (fuel : nat) (result : outcome table),
     finished result /\
     forall fuel', (fuel <= fuel')%nat ->
       add_solutions_derived_from CaptureFirst fuel' m (Pair (9, 2) grid) = result) /\
  propose (fun m' _ => Ok m') m (10, 2) (test_last_animal_individually 9 grid) = Ok m.
Proof.
  intros grid m.
  destruct (cascade_terminates SizeFirst m (Pair (9, 2) grid))
    as (Hends & Habsent & _).
  destruct (cascade_terminates CaptureFirst m (Pair (9, 2) grid))
    as (Hends' & _).
  split; [exact Hends|]. split; [exact Hends'|].
  apply Habsent; [simpl; lia | reflexivity].
Defined.

(** C6 (as amended): rule 3 proposes the strategy [kv] refers to, with
    the same tests and the same test count, marked not guaranteed best,
    for key (N, D-1) exactly when 2 < D < N-1 and the test count read on
    entry is below N-1; otherwise it proposes nothing and leaves the
    table as it is. *)
Theorem rule_relax_spec (recur : table -> ND -> outcome table)
    (m : table) (kv : kvref) (n d t0 : Z) (strategy : Strategy) :
  kv_second m kv = Ok strategy ->
  (2 < d < n - 1 -> t0 < n - 1 ->
   rule_relax recur m kv n d t0
   = propose recur m (n, d - 1)
       (mkStrategy (tests strategy) (t strategy)
                   GuaranteedBest.No BelongsInFile.No)) /\
  (~ (2 < d < n - 1 /\ t0 < n - 1) -> rule_relax recur m kv n d t0 = Ok m).
Proof.
  intros Hkv. unfold rule_relax. split.
  - intros Hd Ht.
    destruct (Z.ltb_spec 2 d); [|lia]. destruct (Z.ltb_spec d (n - 1)); [|lia].
    destruct (Z.ltb_spec t0 (n - 1)); [|lia]. simpl. by rewrite Hkv.
  - intros Hno.
    destruct (Z.ltb_spec 2 d); [|done]. destruct (Z.ltb_spec d (n - 1)); [|done].
    destruct (Z.ltb_spec t0 (n - 1)); [|done]. lia.
Qed.

Lemma rule_relax_spec_witness :
  let grid := Strategy_of_vec
                (rows_of ["111......"; "...111..."; "......111";
                          "1..1..1.."; ".1..1..1."; "..1..1..1"]%string)
                GuaranteedBest.No BelongsInFile.Yes in
  let m : table := {[ (9, 3) := grid;
                      (9, 2) := worst_case_strategy 9 GuaranteedBest.No ]} in
  rule_relax (fun m' _ => Ok m') m (Node (9, 3)) 9 3 6
  = Ok (<[(9, 2) := set_belongs_in_file grid BelongsInFile.No]> m).
Proof.
  intros grid m.
  rewrite (proj1 (rule_relax_spec (fun m' _ => Ok m') m (Node (9, 3)) 9 3 6 grid
                    eq_refl) ltac:(lia) ltac:(lia)).
  reflexivity.
Defined.

(** C6 as worded fails: with 2 < D < N-1 but a test count that is not
    below N-1, nothing is proposed for (N, D-1), although the proposal
    would have been accepted by the table at hand. *)
Lemma rule_relax_counterexample :
  let s := worst_case_strategy 6 GuaranteedBest.Yes in
  let r := mkStrategy (tests s) (t s) GuaranteedBest.No BelongsInFile.No in
  let m : table := {[ (6, 3) := s;
                      (6, 2) := Strategy_of_vec (replicate 9 (replicate 6 "1"%char))
                                  GuaranteedBest.No BelongsInFile.No ]} in
  let recur := fun (m' : table) (_ : ND) => Ok m' in
  2 < 3 < 6 - 1 /\
  propose recur m (6, 2) r = Ok (<[(6, 2) := r]> m) /\
  rule_relax recur m (Pair (6, 3) s) 6 3 (t s) = Ok m /\
  rule_relax recur m (Pair (6, 3) s) 6 3 (t s) <> propose recur m (6, 2) r /\
  forall order, add_solutions_derived_from order 4 m (Pair (6, 3) s) = Ok m.
Proof.
  intros s r m recur. split; [lia|].
  assert (Hne : <[(6, 2) := r]> m <> m).
  { intros E. apply (f_equal (fun x : table => t <$> x !! (6, 2))) in E.
    vm_compute in E. discriminate. }
  assert (Hp : propose recur m (6, 2) r = Ok (<[(6, 2) := r]> m)) by reflexivity.
  assert (Hr : rule_relax recur m (Pair (6, 3) s) 6 3 (t s) = Ok m) by reflexivity.
  split; [done|]. split; [done|]. split.
  - rewrite Hp, Hr. intros E. apply Hne.
    exact (f_equal (fun x => match x with Ok a => a | _ => m end) (eq_sym E)).
  - intros []; by vm_compute.
Qed.

(** C5, the missed case: a strategy with no test at all passes the
    guard T < N-1 of rules 1 and 2, and [replace_most_tested_animal]
    then reads [tests[0]] of an empty vector before it reaches
    [assert(most_tested_count >= 2)].  The store record
    "N=6 D=2 T=0 guaranteed_best=0" is read without complaint, replaces
    the seeded worst case for (6,2), and the cascade started from it
    has no defined outcome. *)
Theorem replace_most_tested_animal_no_tests :
  let s := Strategy_of_vec [] GuaranteedBest.No BelongsInFile.Yes in
  let file := list_ascii_of_string "N=6 D=2 T=0 guaranteed_best=0" ++ [newline] in
  (forall order with_wolf,
     replace_most_tested_animal order s with_wolf = Undefined) /\
  read_solutions_from_file file ∅ = Ok {[ (6, 2) := s ]} /\
  forall all : table,
    add_easy_solutions ∅ 106 = Ok all ->
    exists m1,
      preserve_from_file all 6 2 s = Ok m1 /\
      forall order fuel,
        add_solutions_derived_from order (S fuel) m1 (Pair (6, 2) s) = Undefined.
Proof.
  intros s file. split; [done|]. split; [by vm_compute|].
  intros all Hall.
  destruct (add_easy_rows_spec (seqZ 0 (106 + 1)) ∅) as (m & Hm & _ & Hnew).
  { intros n Hn%elem_of_seqZ. lia. }
  unfold add_easy_solutions in Hall. rewrite Hall in Hm. injection Hm as <-.
  destruct (Hnew 6 2) as (seeded & Hseeded & Hlook);
    [apply elem_of_seqZ; lia | lia | done |].
  vm_compute in Hseeded. injection Hseeded as <-.
  rewrite (preserve_from_file_present all 6 2 s _ Hlook).
  rewrite (overwrite_if_better_replaces all 6 2 s _ ltac:(lia) Hlook) by done.
  eexists. split; [reflexivity|]. by intros order fuel.
Qed.

(** ** Digits *)

Section Digits.
Variable base : Z.
Hypothesis base_range : 2 <= base <= 16.

Lemma digit_value_char v :
  0 <= v < base -> digit_value base (digit_char v) = Some v.
Proof.
  intros Hv. assert (Hcases : v ∈ seqZ 0 16) by (apply elem_of_seqZ; lia).
  unfold digit_value.
  assert (Hk : (let k := Z.of_nat (nat_of_ascii (digit_char v)) in
                if (48 <=? k) && (k <=? 57) then k - 48
                else if (97 <=? k) && (k <=? 102) then k - 87
                else if (65 <=? k) && (k <=? 70) then k - 55 else -1) = v).
  { vm_compute in Hcases. repeat (apply elem_of_cons in Hcases as [->|Hcases]);
      try reflexivity. by apply elem_of_nil in Hcases. }
  cbv zeta in Hk. rewrite Hk.
  destruct (Z.leb_spec 0 v); [|lia]. destruct (Z.ltb_spec v base); [done | lia].
Qed.

Lemma digit_value_range c v : digit_value base c = Some v -> 0 <= v < base.
Proof.
  unfold digit_value. cbv zeta.
  match goal with |- context [(0 <=? ?x) && _] => generalize x end.
  intros x. destruct (Z.leb_spec 0 x); [|done].
  destruct (Z.ltb_spec x base); [|done]. intros [= <-]. lia.
Qed.

Lemma digits_loop_all_digits fuel :
  forall v acc, 0 <= v ->
    all_digits base acc -> all_digits base (digits_loop base fuel v acc).
Proof.
  induction fuel as [|fuel IH]; intros v acc Hv Hacc; simpl; [done|].
  assert (Hd : all_digits base (digit_char (v mod base) :: acc)).
  { apply Forall_cons. split; [|done].
    rewrite digit_value_char; [eauto | apply Z.mod_pos_bound; lia]. }
  destruct (v <? base); [done|]. apply IH; [|done].
  apply Z.div_pos; lia.
Qed.

Lemma digits_loop_nonempty fuel v acc :
  digits_loop base (S fuel) v acc <> [].
Proof.
  revert v acc. induction fuel as [|fuel IH]; intros v acc.
  - simpl. by destruct (v <? base).
  - change (digits_loop base (S (S fuel)) v acc)
      with (let acc' := digit_char (v mod base) :: acc in
            if v <? base then acc' else digits_loop base (S fuel) (v / base) acc').
    cbv zeta. destruct (v <? base); [done | apply IH].
Qed.

(** Scanning what [digits_loop] wrote gives the number back. *)
Lemma scan_digits_loop fuel :
  forall v acc X,
    0 <= v < base ^ Z.of_nat (S fuel) ->
    scan_digits base (digits_loop base (S fuel) v acc ++ X) 0
    = scan_digits base (acc ++ X) v.
Proof.
  induction fuel as [|fuel IH]; intros v acc X Hv.
  - simpl in *. rewrite Z.pow_1_r in Hv.
    destruct (Z.ltb_spec v base); [|lia]. simpl.
    rewrite digit_value_char by (apply Z.mod_pos_bound; lia).
    by rewrite Z.mod_small by lia.
  - change (digits_loop base (S (S fuel)) v acc)
      with (let acc' := digit_char (v mod base) :: acc in
            if v <? base then acc' else digits_loop base (S fuel) (v / base) acc').
    cbv zeta. destruct (Z.ltb_spec v base) as [Hlt|Hge].
    + simpl. rewrite digit_value_char by (apply Z.mod_pos_bound; lia).
      by rewrite Z.mod_small by lia.
    + rewrite IH.
      * simpl. rewrite digit_value_char by (apply Z.mod_pos_bound; lia).
        f_equal. pose proof (Z.div_mod v base). lia.
      * split; [apply Z.div_pos; lia|].
        apply Z.div_lt_upper_bound; [lia|].
        rewrite (Nat2Z.inj_succ (S fuel)), Z.pow_succ_r in Hv by lia. lia.
Qed.

Lemma scan_digits_stop X acc :
  starts_with_digit base X = false -> scan_digits base X acc = (acc, X).
Proof.
  destruct X as [|c X]; [done|]. simpl.
  destruct (digit_value base c); [|done].
  intros H. apply bool_decide_eq_false in H. by destruct H.
Qed.

Lemma scan_digits_app w :
  all_digits base w ->
  forall X acc, scan_digits base (w ++ X) acc
                = scan_digits base X (scan_digits base w acc).1.
Proof.
  induction 1 as [|c w [v Hc] _ IH]; intros X acc; simpl.
  - by destruct X.
  - rewrite Hc. apply IH.
Qed.

Lemma starts_with_digit_all w X :
  all_digits base w -> w <> [] -> starts_with_digit base (w ++ X) = true.
Proof.
  intros Hw Hne. destruct w as [|c w]; [done|]. simpl.
  apply Forall_cons in Hw as [Hc _]. by apply bool_decide_eq_true.
Qed.
End Digits.

(** ** Reading back what was written *)

Section Reading.
Implicit Types (w X : list ascii) (st : istream).

Lemma digit_value_16 base c :
  base <= 16 -> is_Some (digit_value base c) -> is_Some (digit_value 16 c).
Proof.
  intros Hb. unfold digit_value. cbv zeta.
  match goal with |- context [(0 <=? ?x) && _] => generalize x end.
  intros x. destruct (Z.leb_spec 0 x); simpl; [|by intros [? [=]]].
  destruct (Z.ltb_spec x base); [|by intros [? [=]]]. intros _.
  destruct (Z.ltb_spec x 16); [eauto | lia].
Qed.

(** A digit is not white space, a sign, or the [x] of a prefix. *)
Lemma digit_plain base c :
  base <= 16 -> is_Some (digit_value base c) ->
  is_space c = false /\ Ascii.eqb c "-" = false /\ Ascii.eqb c "+" = false /\
  Ascii.eqb c newline = false /\ Ascii.eqb c "x" = false /\
  Ascii.eqb c "X" = false.
Proof.
  intros Hb Hc%(digit_value_16 _ _ Hb). revert Hc.
  destruct c as [[] [] [] [] [] [] [] []]; vm_compute;
    intros [v Hv]; try discriminate Hv; by repeat split.
Qed.

Lemma skip_ws_digit base w X :
  base <= 16 -> all_digits base w -> w <> [] -> skip_ws (w ++ X) = w ++ X.
Proof.
  intros Hb Hw Hne. destruct w as [|c w]; [done|].
  apply Forall_cons in Hw as [Hc _]. simpl.
  by destruct (digit_plain base c Hb Hc) as (-> & _).
Qed.

Lemma scan_sign_digit base w X :
  base <= 16 -> all_digits base w -> w <> [] ->
  scan_sign (w ++ X) = (false, w ++ X).
Proof.
  intros Hb Hw Hne. destruct w as [|c w]; [done|].
  apply Forall_cons in Hw as [Hc _]. simpl.
  by destruct (digit_plain base c Hb Hc) as (_ & -> & -> & _).
Qed.

Lemma scan_d_print_int v X :
  in_int v -> starts_with_digit 10 X = false ->
  scan_d (print_int v ++ X) = Ok (v, X).
Proof.
  intros Hv HX. unfold scan_d, print_int, in_int in *.
  assert (Hb : 2 <= 10 <= 16) by lia.
  destruct (Z.ltb_spec v 0) as [Hneg|Hpos].
  - change (skip_ws (("-"%char :: digits_loop 10 10 (- v) []) ++ X))
      with ("-"%char :: digits_loop 10 10 (- v) [] ++ X).
    change (scan_sign ("-"%char :: digits_loop 10 10 (- v) [] ++ X))
      with (true, digits_loop 10 10 (- v) [] ++ X).
    cbv iota beta.
    rewrite starts_with_digit_all;
      [|apply digits_loop_all_digits; [lia | lia | constructor]
       |apply digits_loop_nonempty].
    rewrite (scan_digits_loop 10 Hb 9) by (change (10 ^ Z.of_nat 10) with 10000000000; lia).
    simpl app. rewrite scan_digits_stop by done.
    rewrite Z.opp_involutive.
    destruct (Z.leb_spec (- 2 ^ 31) v); [|lia].
    destruct (Z.ltb_spec v (2 ^ 31)); [done | lia].
  - assert (Hall : all_digits 10 (digits_loop 10 10 v []))
      by (apply digits_loop_all_digits; [lia | lia | constructor]).
    rewrite (skip_ws_digit 10) by (auto using digits_loop_nonempty; lia).
    rewrite (scan_sign_digit 10) by (auto using digits_loop_nonempty; lia).
    rewrite starts_with_digit_all by (auto using digits_loop_nonempty).
    rewrite (scan_digits_loop 10 Hb 9) by (change (10 ^ Z.of_nat 10) with 10000000000; lia).
    simpl app. rewrite scan_digits_stop by done.
    destruct (Z.leb_spec (- 2 ^ 31) v); [|lia].
    destruct (Z.ltb_spec v (2 ^ 31)); [done | lia].
Qed.

Lemma print_int_no_newline v : in_int v -> newline ∉ print_int v.
Proof.
  intros Hv. unfold print_int, in_int in *.
  assert (Hd : forall u, 0 <= u -> newline ∉ digits_loop 10 10 u []).
  { intros u Hu Hin.
    pose proof (digits_loop_all_digits 10 ltac:(lia) 10 u [] Hu ltac:(constructor)) as Hall.
    eapply Forall_forall in Hall; [|exact Hin].
    by destruct (digit_plain 10 newline ltac:(lia) Hall) as (_ & _ & _ & ? & _). }
  destruct (v <? 0) eqn:E.
  - apply Z.ltb_lt in E. intros [?|Hin]%elem_of_cons; [done|].
    by apply (Hd (- v) ltac:(lia)).
  - apply Z.ltb_ge in E. by apply Hd.
Qed.

Lemma no_newline_check (l : list ascii) :
  forallb (fun c => negb (Ascii.eqb c newline)) l = true -> newline ∉ l.
Proof.
  induction l as [|c l IH]; simpl; [intros _; apply not_elem_of_nil|].
  intros [Hc Hl]%andb_true_iff. apply not_elem_of_cons. split; [|auto].
  intros <-. by rewrite Ascii.eqb_refl in Hc.
Qed.

Lemma header_line_no_newline n d s :
  in_int n -> in_int d -> in_int (t s) -> newline ∉ header_line n d s.
Proof.
  intros Hn Hd Ht. unfold header_line.
  pose proof (print_int_no_newline n Hn). pose proof (print_int_no_newline d Hd).
  pose proof (print_int_no_newline (t s) Ht).
  repeat (apply not_elem_of_app; split); try done;
    try (by apply no_newline_check).
  apply no_newline_check. by destruct (GuaranteedBest.eqb _ _).
Qed.
End Reading.

Section ReadingRecords.
Implicit Types (w X : list ascii) (st : istream) (s : Strategy).

Lemma scan_lit_app lit X : scan_lit lit (lit ++ X) = Ok X.
Proof.
  induction lit as [|c lit IH]; simpl; [done|]. by rewrite Ascii.eqb_refl.
Qed.

(** The header parses to the numbers it was written from. *)
Lemma sscanf_header_line n d s :
  in_int n -> in_int d -> in_int (t s) ->
  sscanf_header (header_line n d s)
  = Ok (n, d, t s,
        if GuaranteedBest.eqb (guaranteed_best s) GuaranteedBest.Yes
        then 1 else 0).
Proof.
  intros Hn Hd Ht. unfold sscanf_header, header_line.
  rewrite scan_lit_app, bind_Ok, scan_d_print_int, bind_Ok by done.
  cbv beta iota.
  change (skip_ws (list_ascii_of_string " D=" ++ ?X))
    with (list_ascii_of_string "D=" ++ X).
  rewrite scan_lit_app, bind_Ok, scan_d_print_int, bind_Ok by done.
  cbv beta iota.
  change (skip_ws (list_ascii_of_string " T=" ++ ?X))
    with (list_ascii_of_string "T=" ++ X).
  rewrite scan_lit_app, bind_Ok, scan_d_print_int, bind_Ok by done.
  cbv beta iota.
  change (skip_ws (list_ascii_of_string " guaranteed_best=" ++ ?X))
    with (list_ascii_of_string "guaranteed_best=" ++ X).
  rewrite scan_lit_app, bind_Ok.
  by destruct (GuaranteedBest.eqb _ _).
Qed.

Lemma split_line_app l r :
  newline ∉ l -> split_line (l ++ newline :: r) = (l, Some r).
Proof.
  induction l as [|c l IH]; simpl; intros Hl.
  - by rewrite ?Ascii.eqb_refl.
  - apply not_elem_of_cons in Hl as [Hc Hl].
    destruct (Ascii.eqb_spec c newline) as [->|_]; [done|].
    by rewrite IH.
Qed.

Lemma getline_app l r line :
  newline ∉ l ->
  getline (mkStream (l ++ newline :: r) true) line = (true, mkStream r true, l).
Proof.
  intros Hl. unfold getline. cbn [good buf].
  pose proof (split_line_app l r Hl) as E.
  destruct (l ++ newline :: r) eqn:Hs; [by destruct l|]. by rewrite E.
Qed.

Lemma two_symbols_no_newline (test : row) :
  Forall (fun c => c = "1"%char \/ c = "."%char) test -> newline ∉ test.
Proof.
  intros Hrow Hin. eapply Forall_forall in Hrow; [|exact Hin].
  by destruct Hrow.
Qed.

(** The lines of a grid are read back one by one. *)
Lemma read_rows_written n :
  0 <= n < 2 ^ 64 ->
  forall tsts X line,
    well_formed (Z.to_nat n) tsts -> two_symbols tsts ->
    exists line',
      read_rows (length tsts) n
        (mkStream (concat (map (fun test => test ++ [newline]) tsts) ++ X) true)
        line
      = Ok (tsts, mkStream X true, line').
Proof.
  intros Hn. induction tsts as [|test tsts IH]; intros X line Hwf Hsym.
  - simpl. eauto.
  - apply Forall_cons in Hwf as [Hlen Hwf]. apply Forall_cons in Hsym as [Hrow Hsym].
    cbn [length map concat read_rows].
    rewrite <- !app_assoc. cbn ["++"].
    rewrite getline_app by by apply two_symbols_no_newline.
    rewrite Z.mod_small by done.
    destruct (Z.eqb_spec (Z.of_nat (length test)) n) as [_|Hne]; [|lia].
    cbn [assert mbind outcome_mbind outcome_bind].
    destruct (IH X test Hwf Hsym) as [line' ->]. simpl. eauto.
Qed.
End ReadingRecords.

Section Packing.
Implicit Types (w X : list ascii) (tsts : list row) (bs : list bool).

Lemma bits_value_range bs : 0 <= bits_value bs < 2 ^ Z.of_nat (length bs).
Proof.
  induction bs as [|b bs IH]; [simpl; lia|].
  cbn [bits_value length]. rewrite Nat2Z.inj_succ, Z.pow_succ_r by lia.
  destruct b; simpl Z.b2z; lia.
Qed.

Lemma bits_value_snoc bs b :
  bits_value (bs ++ [b]) = bits_value bs + 2 ^ Z.of_nat (length bs) * Z.b2z b.
Proof.
  induction bs as [|b' bs IH]; [simpl; lia|].
  cbn [bits_value length app]. rewrite IH, Nat2Z.inj_succ, Z.pow_succ_r by lia. lia.
Qed.

Lemma bits_value_testbit bs (r : nat) :
  Z.testbit (bits_value bs) (Z.of_nat r) = default false (bs !! r).
Proof.
  revert r. induction bs as [|b bs IH]; intros r.
  - simpl. apply Z.bits_0.
  - cbn [bits_value]. rewrite Z.add_comm. destruct r as [|r].
    + simpl. apply Z.testbit_0_r.
    + rewrite Nat2Z.inj_succ, Z.testbit_succ_r by lia. apply IH.
Qed.

Lemma lor_shiftl_bit bits (b : bool) :
  0 <= bits -> Z.lor (Z.shiftl bits 1) (Z.b2z b) = 2 * bits + Z.b2z b.
Proof.
  intros Hb. rewrite Z.shiftl_mul_pow2 by lia. change (2 ^ 1) with 2.
  destruct b; simpl Z.b2z.
  - destruct bits as [|p|p]; [done | | lia].
    rewrite Z.mul_comm. by simpl.
  - rewrite Z.lor_0_r. lia.
Qed.

(** [pack_column] on rows long enough: the bits so far, followed by
    the column of the first [r] tests. *)
Lemma pack_column_spec tsts (c : nat) :
  Forall (fun test => (c < length test)%nat) tsts ->
  forall (r : nat) bits,
    (r <= length tsts)%nat -> 0 <= bits ->
    (bits + 1) * 2 ^ Z.of_nat r <= 2 ^ 64 ->
    pack_column tsts c r bits
    = Ok (bits * 2 ^ Z.of_nat r + bits_value (take r (column tsts c))).
Proof.
  intros Hwf. induction r as [|r IH]; intros bits Hr Hbits Hfit.
  - simpl. f_equal. lia.
  - cbn [pack_column].
    destruct (lookup_lt_is_Some_2 tsts r ltac:(lia)) as [test Htest].
    unfold test_at. rewrite Htest, bind_Ok.
    assert (Hc : (c < length test)%nat).
    { eapply Forall_forall in Hwf; [exact Hwf|]. by eapply list_elem_of_lookup_2. }
    destruct (string_at_in_range test c Hc) as [ch Hch]. rewrite Hch, bind_Ok.
    rewrite (string_at_positive _ _ _ Hch).
    rewrite Nat2Z.inj_succ, Z.pow_succ_r in Hfit by lia.
    pose proof (Z.pow_pos_nonneg 2 (Z.of_nat r) ltac:(lia) ltac:(lia)).
    assert (Hsmall : 0 <= Z.shiftl bits 1 < 2 ^ 64).
    { rewrite Z.shiftl_mul_pow2 by lia. change (2 ^ 1) with 2. nia. }
    assert (Hor : Z.lor (Z.shiftl bits 1 mod 2 ^ 64) (Z.b2z (positive_at c test))
                  = 2 * bits + Z.b2z (positive_at c test)).
    { rewrite Z.mod_small by done. by apply lor_shiftl_bit. }
    rewrite Hor, IH.
    + f_equal. rewrite (take_S_r (column tsts c) r (positive_at c test)).
      * rewrite bits_value_snoc, length_take.
        unfold column. rewrite length_map.
        rewrite Nat.min_l by lia.
        rewrite Nat2Z.inj_succ, Z.pow_succ_r by lia. lia.
      * unfold column. by rewrite lookup_map, Htest.
    + lia.
    + destruct (positive_at c test); simpl Z.b2z; lia.
    + destruct (positive_at c test); simpl Z.b2z; nia.
Qed.

(** A word of hexadecimal digits is read as its value, capped at the
    greatest [unsigned long long]. *)
Lemma sscanf_llx_digits w :
  all_digits 16 w -> w <> [] ->
  sscanf_llx w
  = Ok (if 2 ^ 64 <=? digits_value 16 w then 2 ^ 64 - 1 else digits_value 16 w).
Proof.
  intros Hw Hne. unfold sscanf_llx.
  rewrite <- (app_nil_r w) at 1.
  rewrite (skip_ws_digit 16), (scan_sign_digit 16), app_nil_r by (done || lia).
  assert (Hpre : scan_hex_prefix w = w).
  { destruct w as [|z [|x w']]; try done. unfold scan_hex_prefix.
    apply Forall_cons in Hw as [_ Hw]. apply Forall_cons in Hw as [Hx _].
    destruct (digit_plain 16 x ltac:(lia) Hx) as (_ & _ & _ & _ & -> & ->).
    by rewrite andb_false_r. }
  rewrite Hpre. rewrite <- (app_nil_r w) at 1.
  rewrite starts_with_digit_all by done.
  unfold digits_value. by destruct (scan_digits 16 w 0).
Qed.

Lemma to_hex_digits v : 0 <= v -> all_digits 16 (to_hex v) /\ to_hex v <> [].
Proof.
  intros Hv. split.
  - apply digits_loop_all_digits; [lia | done | constructor].
  - apply digits_loop_nonempty.
Qed.

Lemma digits_value_to_hex v : 0 <= v < 2 ^ 64 -> digits_value 16 (to_hex v) = v.
Proof.
  intros Hv. unfold digits_value, to_hex.
  rewrite <- (app_nil_r (digits_loop 16 16 v [])).
  by rewrite (scan_digits_loop 16 ltac:(lia) 15) by done.
Qed.

(** Bit [r] of the word goes to test [r]. *)
Lemma push_bits_lookup tsts :
  forall bits (r : nat),
    push_bits tsts bits !! r
    = (fun test => test ++ [bit_char (Z.testbit bits (Z.of_nat r))]) <$> tsts !! r.
Proof.
  induction tsts as [|test tsts IH]; intros bits r; [done|].
  cbn [push_bits]. destruct r as [|r].
  - pose proof (land_pow2 bits 0 ltac:(lia)) as Hl.
    change (2 ^ 0) with 1 in Hl. change (Z.of_nat 0) with 0.
    change (Some (test ++ [if Z.land bits 1 =? 0 then "."%char else "1"%char])
            = Some (test ++ [bit_char (Z.testbit bits 0)])).
    rewrite Hl. by destruct (Z.testbit bits 0).
  - cbn [lookup list_lookup]. rewrite IH.
    rewrite Z.shiftr_spec by lia.
    by replace (Z.of_nat r + 1) with (Z.of_nat (S r)) by lia.
Qed.

Lemma push_bits_length tsts bits : length (push_bits tsts bits) = length tsts.
Proof.
  revert bits. induction tsts as [|test tsts IH]; intros bits; simpl; [done|].
  by rewrite IH.
Qed.
End Packing.

Section Words.
Implicit Types (w X tail : list ascii) (tsts : list row).

Lemma take_word_app w tail :
  Forall (fun c => is_space c = false) w -> starts_with_space tail = true ->
  take_word (w ++ tail) = (w, tail).
Proof.
  intros Hw Htail. induction Hw as [|c w Hc _ IH]; cbn [app take_word].
  - destruct tail as [|c tail]; [done|].
    cbn [starts_with_space] in Htail. cbn [take_word]. by rewrite Htail.
  - by rewrite Hc, IH.
Qed.

Lemma read_word_at w tail word0 :
  Forall (fun c => is_space c = false) w -> w <> [] ->
  starts_with_space tail = true ->
  read_word (mkStream (w ++ tail) true) word0 = (mkStream tail true, w).
Proof.
  intros Hw Hne Htail. unfold read_word. cbn [good buf].
  assert (Hskip : skip_ws (w ++ tail) = w ++ tail).
  { destruct w as [|c w]; [done|]. apply Forall_cons in Hw as [Hc _].
    cbn [app skip_ws]. by rewrite Hc. }
  rewrite Hskip. destruct (w ++ tail) eqn:E; [by destruct w|].
  rewrite <- E, take_word_app by done.
  by destruct tail.
Qed.

Lemma read_word_skip sep X word0 :
  is_space sep = true ->
  read_word (mkStream (sep :: X) true) word0 = read_word (mkStream X true) word0.
Proof. intros Hsep. unfold read_word. cbn [good buf skip_ws]. by rewrite Hsep. Qed.

Lemma all_digits_no_space w :
  all_digits 16 w -> Forall (fun c => is_space c = false) w.
Proof.
  intros Hw. eapply Forall_impl; [exact Hw|]. intros c Hc.
  by destruct (digit_plain 16 c ltac:(lia) Hc) as (? & _).
Qed.

Lemma starts_with_space_spaced seps (ws : list (list ascii)) tail :
  length seps = length ws -> Forall (fun c => is_space c = true) seps ->
  starts_with_space tail = true ->
  starts_with_space (spaced_words seps ws ++ tail) = true.
Proof.
  intros Hlen Hseps Htail. destruct seps as [|sep seps], ws as [|w ws];
    try done. apply Forall_cons in Hseps as [Hsep _]. by cbn.
Qed.

Variable tc : Z.
Hypothesis tc_range : 0 <= tc <= 63.

(** One word of hexadecimal digits: accepted, with its bits pushed
    onto the tests, exactly when its value is below 2^tc. *)
Lemma read_column_digits sep w tail word0 tsts :
  is_space sep = true -> all_digits 16 w -> w <> [] ->
  starts_with_space tail = true ->
  read_column tc (mkStream (sep :: w ++ tail) true) word0 tsts
  = if digits_value 16 w <? 2 ^ tc
    then Ok (push_bits tsts (digits_value 16 w), mkStream tail true, w)
    else AssertFail A_hex_range.
Proof.
  intros Hsep Hw Hne Htail. unfold read_column.
  rewrite read_word_skip, read_word_at by auto using all_digits_no_space.
  cbv beta iota.
  rewrite sscanf_llx_digits, bind_Ok by done.
  unfold shl_1ull. destruct (Z.leb_spec 0 tc); [|lia].
  destruct (Z.ltb_spec tc 64); [|lia]. cbn [andb]. rewrite bind_Ok.
  assert (2 ^ tc <= 2 ^ 63) by (apply Z.pow_le_mono_r; lia).
  destruct (Z.leb_spec (2 ^ 64) (digits_value 16 w)) as [Hbig|Hfit].
  - destruct (Z.ltb_spec (2 ^ 64 - 1) (2 ^ tc)); [lia|].
    destruct (Z.ltb_spec (digits_value 16 w) (2 ^ tc)); [lia | done].
  - by destruct (Z.ltb_spec (digits_value 16 w) (2 ^ tc)).
Qed.

Lemma read_columns_spaced :
  forall (ws : list (list ascii)) seps tsts word0 tail,
    length seps = length ws -> Forall (fun c => is_space c = true) seps ->
    Forall (fun w => all_digits 16 w /\ w <> []) ws ->
    starts_with_space tail = true ->
    Forall (fun w => digits_value 16 w < 2 ^ tc) ws ->
    read_columns (length ws) tc
      (mkStream (spaced_words seps ws ++ tail) true) word0 tsts
    = Ok (fold_left push_bits (map (digits_value 16) ws) tsts,
          mkStream tail true).
Proof.
  induction ws as [|w ws IH]; intros seps tsts word0 tail Hlen Hseps Hws Htail Hok.
  - destruct seps; [done | done].
  - destruct seps as [|sep seps]; [done|].
    apply Forall_cons in Hseps as [Hsep Hseps].
    apply Forall_cons in Hws as [[Hw Hne] Hws].
    apply Forall_cons in Hok as [Hv Hok].
    injection Hlen as Hlen.
    cbn [length read_columns spaced_words map fold_left].
    rewrite <- app_comm_cons, <- app_assoc.
    rewrite read_column_digits;
      [|done|done|done|by apply starts_with_space_spaced].
    destruct (Z.ltb_spec (digits_value 16 w) (2 ^ tc)); [|lia].
    rewrite bind_Ok. by apply IH.
Qed.

Lemma read_columns_out_of_range :
  forall (pre : list (list ascii)) w post seps tsts word0 tail,
    length seps = length (pre ++ w :: post) ->
    Forall (fun c => is_space c = true) seps ->
    Forall (fun w => all_digits 16 w /\ w <> []) (pre ++ w :: post) ->
    starts_with_space tail = true ->
    Forall (fun w => digits_value 16 w < 2 ^ tc) pre ->
    2 ^ tc <= digits_value 16 w ->
    read_columns (length (pre ++ w :: post)) tc
      (mkStream (spaced_words seps (pre ++ w :: post) ++ tail) true) word0 tsts
    = AssertFail A_hex_range.
Proof.
  induction pre as [|p pre IH];
    intros w post seps tsts word0 tail Hlen Hseps Hws Htail Hok Hbad;
    (destruct seps as [|sep seps]; [done|]);
    apply Forall_cons in Hseps as [Hsep Hseps];
    apply Forall_cons in Hws as [[Hw Hne] Hws];
    injection Hlen as Hlen;
    cbn [length read_columns spaced_words app];
    rewrite <- app_assoc;
    (rewrite read_column_digits;
      [|done|done|done|by apply starts_with_space_spaced]).
  - by destruct (Z.ltb_spec (digits_value 16 w) (2 ^ tc)); [lia|].
  - apply Forall_cons in Hok as [Hv Hok].
    destruct (Z.ltb_spec (digits_value 16 p) (2 ^ tc)); [|lia].
    rewrite bind_Ok. by apply IH.
Qed.
End Words.

Section Matrix.
Implicit Types (tsts : list row).

Lemma fold_push_bits_lookup (vs : list Z) :
  forall tsts (r : nat),
    fold_left push_bits vs tsts !! r
    = (fun test => test ++ map (fun v => bit_char (Z.testbit v (Z.of_nat r))) vs)
        <$> tsts !! r.
Proof.
  induction vs as [|v vs IH]; intros tsts r; simpl.
  - destruct (tsts !! r); simpl; [|done]. by rewrite app_nil_r.
  - rewrite IH, push_bits_lookup. destruct (tsts !! r); simpl; [|done].
    by rewrite <- app_assoc.
Qed.

Lemma fold_push_bits_length (vs : list Z) :
  forall tsts, length (fold_left push_bits vs tsts) = length tsts.
Proof.
  induction vs as [|v vs IH]; intros tsts; simpl; [done|].
  by rewrite IH, push_bits_length.
Qed.

(** A row over the two symbols is determined by where its ones are. *)
Lemma row_rebuild (test : row) :
  Forall (fun c => c = "1"%char \/ c = "."%char) test ->
  map (fun c => bit_char (positive_at c test)) (seq 0 (length test)) = test.
Proof.
  intros Hsym. apply list_eq. intros i. rewrite lookup_map.
  destruct (decide (i < length test)%nat) as [Hi|Hi].
  - rewrite lookup_seq_lt by done. simpl.
    destruct (lookup_lt_is_Some_2 test i Hi) as [c Hc].
    unfold positive_at. rewrite Hc. f_equal.
    eapply Forall_forall in Hsym; [|by eapply list_elem_of_lookup_2].
    by destruct Hsym as [-> | ->].
  - rewrite lookup_seq_ge by lia. simpl. symmetry. apply lookup_ge_None. lia.
Qed.

(** Unpacking the packed columns gives the tests back. *)
Lemma unpack_columns (N : nat) tsts :
  well_formed N tsts -> two_symbols tsts ->
  fold_left push_bits
    (map (fun c => bits_value (column tsts c)) (seq 0 N))
    (replicate (length tsts) [])
  = tsts.
Proof.
  intros Hwf Hsym. apply list_eq. intros r.
  rewrite fold_push_bits_lookup.
  destruct (tsts !! r) as [test|] eqn:Htest.
  - rewrite lookup_replicate_2 by by eapply lookup_lt_Some. simpl. f_equal.
    rewrite map_map.
    assert (Hlen : length test = N).
    { eapply Forall_forall in Hwf; [exact Hwf|]. by eapply list_elem_of_lookup_2. }
    etrans; [|apply (row_rebuild test)].
    + rewrite Hlen. apply map_ext. intros c.
      rewrite bits_value_testbit. unfold column. by rewrite lookup_map, Htest.
    + eapply Forall_forall in Hsym; [exact Hsym|]. by eapply list_elem_of_lookup_2.
  - assert (@replicate row (length tsts) [] !! r = None) as ->; [|done].
    apply lookup_replicate_None. apply lookup_ge_None in Htest. lia.
Qed.
End Matrix.

Section RoundTrip.
Implicit Types (X : list ascii) (s : Strategy) (tsts : list row).

Lemma column_length tsts c : length (column tsts c) = length tsts.
Proof. unfold column. by rewrite length_map. Qed.

Lemma pack_column_whole tsts (c : nat) :
  Forall (fun test => (c < length test)%nat) tsts ->
  Z.of_nat (length tsts) <= 64 ->
  pack_column tsts c (length tsts) 0 = Ok (bits_value (column tsts c)).
Proof.
  intros Hwf Hlen.
  assert (Hfit : (0 + 1) * 2 ^ Z.of_nat (length tsts) <= 2 ^ 64).
  { assert (2 ^ Z.of_nat (length tsts) <= 2 ^ 64) by (apply Z.pow_le_mono_r; lia).
    lia. }
  rewrite (pack_column_spec tsts c Hwf (length tsts) 0 ltac:(lia) ltac:(lia) Hfit).
  rewrite take_ge by (rewrite column_length; lia). f_equal.
Qed.

(** The packed words are the columns in hexadecimal, each after one
    white-space character. *)
Lemma emathgroup_words_spec tsts tc :
  tc = Z.of_nat (length tsts) -> tc <= 64 ->
  forall cs wordwrap,
    Forall (fun c => Forall (fun test => (c < length test)%nat) tsts) cs ->
    exists seps,
      length seps = length cs /\ Forall (fun c => is_space c = true) seps /\
      emathgroup_words tsts tc cs wordwrap
      = Ok (spaced_words seps
              (map (fun c => to_hex (bits_value (column tsts c))) cs)).
Proof.
  intros -> Hlen. induction cs as [|c cs IH]; intros wordwrap Hcs.
  - exists []. by repeat split.
  - apply Forall_cons in Hcs as [Hc Hcs]. cbn [emathgroup_words].
    rewrite Nat2Z.id, pack_column_whole, bind_Ok by done.
    cbv zeta.
    destruct (_ >? 75).
    + destruct (IH (Z.of_nat (length (to_hex (bits_value (column tsts c))))) Hcs)
        as (seps & Hl & Hs & ->).
      exists (newline :: seps). split; [simpl; lia|].
      split; [by constructor|]. done.
    + destruct (IH (wordwrap + 1
                    + Z.of_nat (length (to_hex (bits_value (column tsts c))))) Hcs)
        as (seps & Hl & Hs & ->).
      exists (" "%char :: seps). split; [simpl; lia|].
      split; [by constructor|]. done.
Qed.

Lemma peek_rows tsts X :
  two_symbols tsts ->
  exists c, peek (mkStream (concat (map (fun test => test ++ [newline]) tsts)
                              ++ newline :: X) true)
            = (c, mkStream (concat (map (fun test => test ++ [newline]) tsts)
                              ++ newline :: X) true) /\
            Ascii.eqb c "e" = false.
Proof.
  intros Hsym. unfold peek. cbn [good buf].
  destruct tsts as [|[|c test] tsts]; cbn [map concat app].
  - by exists newline.
  - by exists newline.
  - exists c. split; [done|].
    apply Forall_cons in Hsym as [Hrow _]. apply Forall_cons in Hrow as [Hc _].
    by destruct Hc as [-> | ->].
Qed.

Variables (n d : Z) (s : Strategy) (X : list ascii).
Hypothesis n_int : in_int n.
Hypothesis n_nonneg : 0 <= n.
Hypothesis d_int : in_int d.
Hypothesis t_rows : t s = Z.of_nat (length (tests s)).
Hypothesis t_int : in_int (t s).
Hypothesis rows_wf : well_formed (Z.to_nat n) (tests s).
Hypothesis rows_sym : two_symbols (tests s).

Lemma strategy_as_read :
  Strategy_of_vec (tests s)
    (if (if GuaranteedBest.eqb (guaranteed_best s) GuaranteedBest.Yes
         then 1 else 0) =? 0
     then GuaranteedBest.No else GuaranteedBest.Yes)
    BelongsInFile.Yes
  = as_read s.
Proof.
  unfold Strategy_of_vec, as_read. rewrite <- t_rows.
  by destruct (guaranteed_best s).
Qed.

Lemma read_grid_to_string :
  getline (mkStream (to_string n d s ++ newline :: X) true) []
  = (true,
     mkStream (concat (map (fun test => test ++ [newline]) (tests s))
                 ++ newline :: X) true,
     header_line n d s) /\
  exists line',
    read_grid (header_line n d s)
      (mkStream (concat (map (fun test => test ++ [newline]) (tests s))
                   ++ newline :: X) true)
    = Ok (n, d, as_read s, mkStream (newline :: X) true, line').
Proof.
  split.
  - unfold to_string, header. rewrite <- !app_assoc. cbn [app].
    apply getline_app. by apply header_line_no_newline.
  - unfold read_grid. rewrite sscanf_header_line, bind_Ok by done.
    destruct (peek_rows (tests s) X rows_sym) as (c & -> & ->).
    unfold in_int in *.
    destruct (read_rows_written n ltac:(lia) (tests s) (newline :: X)
                (header_line n d s) rows_wf rows_sym) as [line' Hrows].
    rewrite t_rows, Nat2Z.id, Hrows, bind_Ok.
    rewrite strategy_as_read. eauto.
Qed.

Lemma read_grid_to_emathgroup_string :
  t s <= 63 ->
  exists words,
    to_emathgroup_string n d s
    = Ok (header n d s ++ list_ascii_of_string "emathgroup" ++ words ++ [newline]) /\
    getline (mkStream ((header n d s ++ list_ascii_of_string "emathgroup"
                          ++ words ++ [newline]) ++ X) true) []
    = (true,
       mkStream (list_ascii_of_string "emathgroup" ++ words ++ newline :: X) true,
       header_line n d s) /\
    read_grid (header_line n d s)
      (mkStream (list_ascii_of_string "emathgroup" ++ words ++ newline :: X) true)
    = Ok (n, d, as_read s, mkStream (newline :: X) true, header_line n d s).
Proof.
  intros Ht63.
  assert (Hcols : Forall (fun c => Forall (fun test => (c < length test)%nat) (tests s))
                    (seq 0 (Z.to_nat n))).
  { apply Forall_forall. intros c Hc%elem_of_seq.
    eapply Forall_impl; [exact rows_wf|]. simpl. intros test ->. lia. }
  destruct (emathgroup_words_spec (tests s) (t s) t_rows ltac:(lia)
              (seq 0 (Z.to_nat n)) 10 Hcols) as (seps & Hlen & Hseps & Hwords).
  set (vals := map (fun c => bits_value (column (tests s) c)) (seq 0 (Z.to_nat n))).
  set (ws := map (fun c => to_hex (bits_value (column (tests s) c)))
               (seq 0 (Z.to_nat n))) in *.
  exists (spaced_words seps ws).
  split; [unfold to_emathgroup_string; by rewrite Hwords|].
  split.
  - unfold header. rewrite <- !app_assoc. cbn [app].
    apply getline_app. by apply header_line_no_newline.
  - assert (Hlen' : length seps = length ws)
      by (unfold ws; by rewrite length_map).
    assert (Htail : starts_with_space (spaced_words seps ws ++ newline :: X) = true)
      by by apply starts_with_space_spaced.
    unfold read_grid. rewrite sscanf_header_line, bind_Ok by done.
    change (peek (mkStream (list_ascii_of_string "emathgroup" ++ ?Y) true))
      with ("e"%char, mkStream (list_ascii_of_string "emathgroup" ++ Y) true).
    cbv beta iota. change (Ascii.eqb "e" "e") with true. cbv beta iota.
    rewrite read_word_at; [|by repeat constructor|done|done].
    cbv beta iota.
    rewrite bool_decide_eq_true_2 by done.
    change (assert true A_marker) with (Ok tt : outcome unit). rewrite bind_Ok.
    destruct (Z.leb_spec 0 (t s)); [|lia].
    change (assert true E_length_error) with (Ok tt : outcome unit). rewrite bind_Ok.
    replace (Z.to_nat n) with (length ws)
      by (unfold ws; by rewrite length_map, length_seq).
    rewrite (read_columns_spaced (t s) ltac:(lia)); try done.
    + rewrite bind_Ok. rewrite t_rows, Nat2Z.id.
      assert (Hvals : map (digits_value 16) ws = vals).
      { unfold ws, vals. rewrite map_map. apply map_ext. intros c.
        apply digits_value_to_hex.
        pose proof (bits_value_range (column (tests s) c)) as Hr.
        rewrite column_length in Hr.
        assert (2 ^ Z.of_nat (length (tests s)) <= 2 ^ 64)
          by (apply Z.pow_le_mono_r; lia).
        lia. }
      rewrite Hvals. unfold vals.
      rewrite (unpack_columns (Z.to_nat n)) by done.
      rewrite bind_Ok. cbv beta iota. by rewrite strategy_as_read.
    + unfold ws. apply Forall_forall. intros w (c & -> & _)%list_elem_of_fmap.
      apply to_hex_digits. apply bits_value_range.
    + unfold ws. apply Forall_forall. intros w (c & -> & _)%list_elem_of_fmap.
      pose proof (bits_value_range (column (tests s) c)) as Hr.
      rewrite column_length, <- t_rows in Hr.
      assert (2 ^ t s <= 2 ^ 64) by (apply Z.pow_le_mono_r; lia).
      rewrite digits_value_to_hex by lia. lia.
Qed.
End RoundTrip.

(** C7 (as amended): a strategy with N >= 0 columns whose [t] is its
    number of rows, with rows of N characters over the two symbols, is
    read back from what was written for it with the same tests, the
    same test count and the same guaranteed-best flag (and flagged as
    belonging to the file): from the grid whatever T is, and from the
    packed form when T <= 63; so also from the record the writer
    chooses (the packed form above 150 animals) when N <= 150 or
    T <= 63.  [X] is what follows the record in the file. *)
Theorem codec_round_trip (n d : Z) (s : Strategy) (X : list ascii) :
  in_int n -> 0 <= n -> in_int d ->
  t s = Z.of_nat (length (tests s)) -> in_int (t s) ->
  well_formed (Z.to_nat n) (tests s) -> two_symbols (tests s) ->
  (tests (as_read s) = tests s /\ t (as_read s) = t s /\
   guaranteed_best (as_read s) = guaranteed_best s) /\
  (exists st line',
     getline (mkStream (to_string n d s ++ newline :: X) true) []
     = (true, st, header_line n d s) /\
     read_grid (header_line n d s) st
     = Ok (n, d, as_read s, mkStream (newline :: X) true, line')) /\
  (t s <= 63 ->
   exists text st line',
     to_emathgroup_string n d s = Ok text /\
     getline (mkStream (text ++ X) true) [] = (true, st, header_line n d s) /\
     read_grid (header_line n d s) st
     = Ok (n, d, as_read s, mkStream (newline :: X) true, line')) /\
  (n <= 150 \/ t s <= 63 ->
   exists text st line' rest,
     write_record n d s = Ok text /\
     getline (mkStream (text ++ X) true) [] = (true, st, header_line n d s) /\
     read_grid (header_line n d s) st
     = Ok (n, d, as_read s, mkStream rest true, line')).
Proof.
  intros Hn Hn0 Hd Ht Hti Hwf Hsym. split; [done|].
  assert (Hplain := fun Y => read_grid_to_string n d s Y Hn Hn0 Hd Ht Hti Hwf Hsym).
  assert (Hpacked := fun Y => read_grid_to_emathgroup_string n d s Y Hn Hd Ht Hti Hwf Hsym).
  split; [|split].
  - destruct (Hplain X) as (Hline & line' & Hgrid). eauto.
  - intros H63. destruct (Hpacked X H63) as (words & Htext & Hline & Hgrid).
    eauto 6.
  - intros Hsel. unfold write_record.
    destruct (Z.gtb_spec n 150) as [Hbig|Hsmall].
    + destruct (Hpacked (newline :: X)) as (words & -> & Hline & Hgrid); [lia|].
      rewrite bind_Ok. do 4 eexists. split; [done|].
      rewrite <- (app_assoc _ [newline] X). cbn [app]. eauto.
    + destruct (Hplain X) as (Hline & line' & Hgrid).
      rewrite bind_Ok. do 4 eexists. split; [done|].
      rewrite <- (app_assoc _ [newline] X). cbn [app]. eauto.
Qed.

Lemma codec_round_trip_witness :
  let s := Strategy_of_vec
             (rows_of ["111......"; "...111..."; "......111";
                       "1..1..1.."; ".1..1..1."; "..1..1..1"]%string)
             GuaranteedBest.No BelongsInFile.No in
  (exists st line',
     getline (mkStream (to_string 9 2 s ++ [newline]) true) []
     = (true, st, header_line 9 2 s) /\
     read_grid (header_line 9 2 s) st
     = Ok (9, 2, as_read s, mkStream [newline] true, line')) /\
  (exists text st line',
     to_emathgroup_string 9 2 s = Ok text /\
     getline (mkStream (text ++ []) true) [] = (true, st, header_line 9 2 s) /\
     read_grid (header_line 9 2 s) st
     = Ok (9, 2, as_read s, mkStream [newline] true, line')).
Proof.
  intros s.
  assert (Hwf : well_formed (Z.to_nat 9) (tests s)) by (repeat constructor).
  assert (Hsym : two_symbols (tests s))
    by (repeat (constructor; [repeat (constructor; [by (left + right)|]); constructor|]);
        constructor).
  destruct (codec_round_trip 9 2 s []) as (_ & Hplain & Hpacked & _);
    [unfold in_int; lia | lia | unfold in_int; lia | reflexivity
    | unfold in_int; simpl; lia | exact Hwf | exact Hsym |].
  split; [exact Hplain | apply Hpacked; simpl; lia].
Defined.

(** A store of two records, one in each form, read into a table. *)
Example read_solutions_from_file_example :
  let grid := Strategy_of_vec
                (rows_of ["111......"; "...111..."; "......111";
                          "1..1..1.."; ".1..1..1."; "..1..1..1"]%string)
                GuaranteedBest.No BelongsInFile.Yes in
  (packed ← to_emathgroup_string 9 3 grid;
   read_solutions_from_file
     (to_string 9 2 grid ++ [newline] ++ packed ++ [newline]) ∅)
  = Ok {[ (9, 2) := grid; (9, 3) := grid ]}.
Proof. by vm_compute. Qed.

(** C7 as worded fails for the packed form from 65 tests on: the word
    of a column keeps 64 bits, so two strategies that differ in test 64
    only are written alike, and the reader does not accept the record. *)
Lemma codec_round_trip_counterexample :
  let dots := replicate 64 (replicate 151 "."%char) in
  let s := Strategy_of_vec (dots ++ ["1"%char :: replicate 150 "."%char])
                           GuaranteedBest.No BelongsInFile.Yes in
  let s0 := Strategy_of_vec (dots ++ [replicate 151 "."%char])
                            GuaranteedBest.No BelongsInFile.Yes in
  t s = 65 /\ tests s <> tests s0 /\
  exists text,
    write_record 151 2 s = Ok text /\ write_record 151 2 s0 = Ok text /\
    (let '(_, st, line) := getline (mkStream text true) [] in read_grid line st)
    = Undefined.
Proof.
  intros dots s s0. split; [reflexivity|]. split.
  - intros E. apply (f_equal (fun l => l !! 64%nat ≫= head)) in E.
    vm_compute in E. discriminate.
  - destruct (write_record 151 2 s) as [text| | |] eqn:Hs;
      try (vm_compute in Hs; discriminate).
    exists text. split; [done|]. split.
    + vm_compute. vm_compute in Hs. exact Hs.
    + vm_compute in Hs. injection Hs as <-. by vm_compute.
Qed.

Lemma first_out_of_range (bound : Z) (ws : list (list ascii)) :
  (exists w, w ∈ ws /\ bound <= digits_value 16 w) ->
  exists pre w post,
    ws = pre ++ w :: post /\
    Forall (fun w => digits_value 16 w < bound) pre /\
    bound <= digits_value 16 w.
Proof.
  induction ws as [|w0 ws IH]; intros (w & Hin & Hbad).
  - by apply elem_of_nil in Hin.
  - destruct (Z.le_gt_cases bound (digits_value 16 w0)) as [Hbad0|Hok0].
    + exists [], w0, ws. by repeat split.
    + apply elem_of_cons in Hin as [->|Hin]; [lia|].
      destruct IH as (pre & w1 & post & -> & Hpre & Hbad1); [by eauto|].
      exists (w0 :: pre), w1, post. repeat split; [|done].
      constructor; [lia | done].
Qed.

(** C8 (as amended): for a header that declares T tests with
    0 <= T <= 63, a packed record of N words of hexadecimal digits is
    refused on [assert(0 <= bits && bits < (1uLL << t))] as soon as the
    value of some word is at least 2^T, and is accepted when every
    value is below 2^T; test r is then positive for item c exactly when
    bit r of word c is set. *)
Theorem packed_column_range
    (line : list ascii) (n d tc gb : Z)
    (ws : list (list ascii)) (seps X : list ascii) :
  sscanf_header line = Ok (n, d, tc, gb) ->
  0 <= tc <= 63 ->
  Z.to_nat n = length ws -> length seps = length ws ->
  Forall (fun c => is_space c = true) seps ->
  Forall (fun w => all_digits 16 w /\ w <> []) ws ->
  starts_with_space X = true ->
  let st := mkStream (list_ascii_of_string "emathgroup"
                        ++ spaced_words seps ws ++ X) true in
  ((exists w, w ∈ ws /\ 2 ^ tc <= digits_value 16 w) ->
   read_grid line st = AssertFail A_hex_range) /\
  (Forall (fun w => digits_value 16 w < 2 ^ tc) ws ->
   exists tsts,
     read_grid line st
     = Ok (n, d,
           Strategy_of_vec tsts
             (if gb =? 0 then GuaranteedBest.No else GuaranteedBest.Yes)
             BelongsInFile.Yes,
           mkStream X true, line) /\
     length tsts = Z.to_nat tc /\
     forall (r c : nat) w,
       (r < Z.to_nat tc)%nat -> ws !! c = Some w ->
       cell tsts r c
       = Some (bit_char (Z.testbit (digits_value 16 w) (Z.of_nat r)))).
Proof.
  intros Hhdr Htc Hn Hlen Hseps Hws HX st.
  assert (Htail : starts_with_space (spaced_words seps ws ++ X) = true)
    by by apply starts_with_space_spaced.
  assert (Hgrid : read_grid line st
            = ('(tsts, st', line') ←
                 ('(tsts, st') ← read_columns (length ws) tc
                                   (mkStream (spaced_words seps ws ++ X) true)
                                   (list_ascii_of_string "emathgroup")
                                   (replicate (Z.to_nat tc) []);
                  Ok (tsts, st', line));
               Ok (n, d,
                   Strategy_of_vec tsts
                     (if gb =? 0 then GuaranteedBest.No else GuaranteedBest.Yes)
                     BelongsInFile.Yes, st', line'))).
  { unfold read_grid, st. rewrite Hhdr, bind_Ok.
    change (peek (mkStream (list_ascii_of_string "emathgroup" ++ ?Y) true))
      with ("e"%char, mkStream (list_ascii_of_string "emathgroup" ++ Y) true).
    cbv beta iota. change (Ascii.eqb "e" "e") with true. cbv beta iota.
    rewrite read_word_at; [|by repeat constructor|done|done].
    cbv beta iota. rewrite bool_decide_eq_true_2 by done.
    change (assert true A_marker) with (Ok tt : outcome unit). rewrite bind_Ok.
    destruct (Z.leb_spec 0 tc); [|lia].
    change (assert true E_length_error) with (Ok tt : outcome unit).
    by rewrite bind_Ok, Hn. }
  rewrite Hgrid. split.
  - intros (pre & w & post & -> & Hpre & Hbad)%first_out_of_range.
    by rewrite (read_columns_out_of_range tc Htc pre w post).
  - intros Hok. rewrite (read_columns_spaced tc Htc) by done.
    eexists. split; [done|].
    split; [by rewrite fold_push_bits_length, length_replicate|].
    intros r c w Hr Hw. unfold cell.
    rewrite fold_push_bits_lookup, lookup_replicate_2 by done. simpl.
    by rewrite !lookup_map, Hw.
Qed.

Lemma packed_column_range_witness :
  let line := list_ascii_of_string "N=3 D=1 T=2 guaranteed_best=1" in
  read_grid line
    (mkStream (list_ascii_of_string "emathgroup"
                 ++ spaced_words (list_ascii_of_string "   ")
                      (rows_of ["0"; "4"; "3"]%string)
                 ++ [newline]) true)
  = AssertFail A_hex_range /\
  exists tsts,
    read_grid line
      (mkStream (list_ascii_of_string "emathgroup"
                   ++ spaced_words (list_ascii_of_string "   ")
                        (rows_of ["0"; "1"; "3"]%string)
                   ++ [newline]) true)
    = Ok (3, 1, Strategy_of_vec tsts GuaranteedBest.Yes BelongsInFile.Yes,
          mkStream [newline] true, line) /\
    length tsts = 2%nat.
Proof.
  intros line.
  assert (Hdigits : forall l : list (list ascii),
            forallb (fun w => forallb (fun c => bool_decide (is_Some (digit_value 16 c))) w
                              && negb (bool_decide (w = []))) l = true ->
            Forall (fun w => all_digits 16 w /\ w <> []) l).
  { intros l Hl. apply Forall_forall. intros w Hw.
    rewrite forallb_forall in Hl. specialize (Hl w (proj1 (list_elem_of_In _ _) Hw)).
    apply andb_true_iff in Hl as [Hall Hne]. split.
    - apply Forall_forall. intros c Hc. rewrite forallb_forall in Hall.
      specialize (Hall c (proj1 (list_elem_of_In _ _) Hc)).
      by apply bool_decide_eq_true in Hall.
    - apply negb_true_iff, bool_decide_eq_false in Hne. exact Hne. }
  split.
  - refine (proj1 (packed_column_range line 3 1 2 1
                     (rows_of ["0"; "4"; "3"]%string) (list_ascii_of_string "   ")
                     [newline] eq_refl _ eq_refl eq_refl _ _ eq_refl) _).
    + lia.
    + by repeat constructor.
    + by apply Hdigits.
    + exists (list_ascii_of_string "4"). split; [by right; left|]. by vm_compute.
  - destruct (packed_column_range line 3 1 2 1
                (rows_of ["0"; "1"; "3"]%string) (list_ascii_of_string "   ")
                [newline]) as [_ Hgood];
      [reflexivity | lia | reflexivity | reflexivity | by repeat constructor
      | by apply Hdigits | reflexivity |].
    destruct Hgood as (tsts & Hgrid & Hlen & _).
    + repeat constructor; by vm_compute.
    + exists tsts. split; [exact Hgrid | exact Hlen].
Defined.

(** C8 as worded fails from 64 declared tests on: [1uLL << t] is not
    defined there, and a column value of 2^64, below 2^65, does not fit
    the 64-bit word it is read into. *)
Lemma packed_column_range_counterexample :
  let line := list_ascii_of_string "N=1 D=0 T=65 guaranteed_best=0" in
  let w := list_ascii_of_string "10000000000000000" in
  sscanf_header line = Ok (1, 0, 65, 0) /\
  digits_value 16 w = 2 ^ 64 /\ 0 <= digits_value 16 w < 2 ^ 65 /\
  sscanf_llx w = Ok (2 ^ 64 - 1) /\
  read_grid line
    (mkStream (list_ascii_of_string "emathgroup" ++ " "%char :: w ++ [newline]) true)
  = Undefined /\
  read_grid (list_ascii_of_string "N=1 D=0 T=64 guaranteed_best=0")
    (mkStream (list_ascii_of_string "emathgroup 1" ++ [newline]) true)
  = Undefined.
Proof.
  intros line w.
  assert (Hv : digits_value 16 w = 2 ^ 64) by by vm_compute.
  split; [by vm_compute|]. split; [done|]. split; [rewrite Hv; lia|].
  split; [by vm_compute|]. split; by vm_compute.
Qed.

(** * Further properties of the code *)

(** ** The two orders *)

(** [isBetterThan] is a strict partial order that looks at the test
    count and the guaranteed-best flag only; two strategies neither of
    which is better agree on both. *)
Theorem isBetterThan_strict_order :
  (forall a, isBetterThan a a = false) /\
  (forall a b, isBetterThan a b = true -> isBetterThan b a = false) /\
  (forall a b c, isBetterThan a b = true -> isBetterThan b c = true ->
                 isBetterThan a c = true) /\
  (forall a b, isBetterThan a b = false -> isBetterThan b a = false ->
               t a = t b /\ guaranteed_best a = guaranteed_best b) /\
  (forall a a' b b',
     t a = t a' -> guaranteed_best a = guaranteed_best a' ->
     t b = t b' -> guaranteed_best b = guaranteed_best b' ->
     isBetterThan a b = isBetterThan a' b').
Proof.
  split; [apply isBetterThan_irrefl|]. split; [|split; [|split]].
  - intros a b Hab%isBetterThan_better.
    destruct (isBetterThan b a) eqn:Hba; [|done].
    apply isBetterThan_better in Hba. unfold better in *.
    destruct Hab as [?|(? & ? & ?)], Hba as [?|(? & ? & ?)]; try lia; congruence.
  - intros a b c Hab%isBetterThan_better Hbc%isBetterThan_better.
    apply isBetterThan_better. unfold better in *.
    destruct Hab as [?|(? & ? & ?)], Hbc as [?|(? & ? & ?)];
      try (left; lia); congruence.
  - intros a b. unfold isBetterThan.
    destruct (Z.eqb_spec (t a) (t b)) as [E|E]; simpl.
    + rewrite <- E, Z.eqb_refl. simpl.
      by destruct (guaranteed_best a), (guaranteed_best b).
    + destruct (Z.eqb_spec (t b) (t a)); [lia|]. simpl.
      rewrite !Z.ltb_ge. lia.
  - intros a a' b b' Ha Hga Hb Hgb. unfold isBetterThan.
    by rewrite Ha, Hga, Hb, Hgb.
Qed.

(** [ND::operator<] is a strict total order on keys, by [d] first and
    [n] second: two keys neither of which is below the other are the
    same key, so the table holds one entry per (n, d). *)
Theorem ND_lt_strict_total_order :
  (forall a, ND_lt a a = false) /\
  (forall a b c, ND_lt a b = true -> ND_lt b c = true -> ND_lt a c = true) /\
  (forall a b, ND_lt a b = false -> ND_lt b a = false -> a = b) /\
  (forall n d n' d',
     ND_lt (n, d) (n', d') = true <-> d < d' \/ (d = d' /\ n < n')).
Proof.
  assert (Hspec : forall n d n' d',
            ND_lt (n, d) (n', d') = true <-> d < d' \/ (d = d' /\ n < n')).
  { intros n d n' d'. unfold ND_lt. simpl.
    destruct (Z.ltb_spec d d'), (Z.ltb_spec d' d), (Z.ltb_spec n n'); simpl;
      split; intros; try done; try lia. }
  split; [|split; [|split]]; [| | |done].
  - intros [n d]. destruct (ND_lt (n, d) (n, d)) eqn:E; [|done].
    apply Hspec in E. lia.
  - intros [n d] [n' d'] [n'' d''] H1%Hspec H2%Hspec. apply Hspec. lia.
  - intros [n d] [n' d'] H1 H2.
    destruct (decide (d < d' \/ (d = d' /\ n < n'))) as [H|H];
      [apply Hspec in H; congruence|].
    destruct (decide (d' < d \/ (d' = d /\ n' < n))) as [H'|H'];
      [apply Hspec in H'; congruence|].
    f_equal; lia.
Qed.

(** ** What a table update leaves alone *)

Section NoWorse.
Implicit Types (m : table) (s cur : Strategy).

Lemma no_worse_refl m : no_worse m m.
Proof.
  intros k. destruct (m !! k) as [cur|]; [|done]. split; [lia|]. by split.
Qed.

Lemma no_worse_trans m1 m2 m3 :
  no_worse m1 m2 -> no_worse m2 m3 -> no_worse m1 m3.
Proof.
  intros H12 H23 k. specialize (H12 k). specialize (H23 k).
  destruct (m1 !! k) as [c1|], (m2 !! k) as [c2|], (m3 !! k) as [c3|];
    try done.
  destruct H12 as (Ht12 & Hg12 & Hf12), H23 as (Ht23 & Hg23 & Hf23).
  split; [lia|]. split.
  - intros Hg. specialize (Hg12 Hg). subst c2. auto.
  - auto.
Qed.

Lemma overwrite_if_better_no_worse m n d s m' b :
  overwrite_if_better m n d s = Ok (m', b) -> no_worse m m'.
Proof.
  intros (_ & [(_ & -> & _)|(_ & cur & Hcur & Hb & Hg & ->)])%overwrite_if_better_inv.
  - apply no_worse_refl.
  - intros k. rewrite lookup_insert. case_decide as E.
    + subst k. rewrite Hcur. rewrite installed_t.
      split; [by apply isBetterThan_le|]. split; [congruence|].
      apply installed_belongs.
    + destruct (m !! k) as [c|]; [|done]. split; [lia|]. by split.
Qed.

Lemma no_worse_dom m m' : no_worse m m' -> dom m' = dom m.
Proof.
  intros H. apply set_eq. intros k. rewrite !elem_of_dom. specialize (H k).
  destruct (m !! k), (m' !! k); try done; split; intros [? ?]; eauto; done.
Qed.
End NoWorse.

(** [overwrite_if_better] never adds or removes a key and touches no
    key but (n, d); the entry it leaves there is no worse than before;
    and offering the same candidate again changes nothing. *)
Theorem overwrite_if_better_frame
    (m m' : table) (n d : Z) (s : Strategy) (b : bool) :
  overwrite_if_better m n d s = Ok (m', b) ->
  dom m' = dom m /\
  (forall k, k <> (n, d) -> m' !! k = m !! k) /\
  no_worse m m' /\
  (b = true -> is_Some (m !! (n, d)) /\ m' !! (n, d) = Some (installed s
     (default s (m !! (n, d))))) /\
  overwrite_if_better m' n d s = Ok (m', false).
Proof.
  intros Hrun. pose proof (overwrite_if_better_no_worse _ _ _ _ _ _ Hrun) as Hnw.
  split; [by apply no_worse_dom|].
  pose proof Hrun as (Hkey & [(-> & -> & Hnb)|(-> & cur & Hcur & Hb & Hg & ->)])%overwrite_if_better_inv.
  - split; [done|]. split; [done|]. split; [done|]. done.
  - split; [intros k Hk; by rewrite lookup_insert_ne|].
    split; [done|]. split.
    + intros _. rewrite Hcur, lookup_insert_eq. eauto.
    + apply (overwrite_if_better_not_better _ n d s (installed s cur));
        [done | apply lookup_insert_eq |].
      unfold isBetterThan.
      rewrite installed_t, installed_guaranteed_best, Z.eqb_refl. simpl.
      by destruct (guaranteed_best s).
Qed.

Lemma overwrite_if_better_frame_witness :
  let cur := worst_case_strategy 4 GuaranteedBest.No in
  let s := Strategy_of_vec (rows_of ["11.."; "1.1."]%string)
                           GuaranteedBest.No BelongsInFile.No in
  let m : table := {[ (4, 2) := cur; (3, 1) := empty_strategy ]} in
  dom (<[(4, 2) := s]> m) = dom m /\
  overwrite_if_better (<[(4, 2) := s]> m) 4 2 s = Ok (<[(4, 2) := s]> m, false).
Proof.
  intros cur s m.
  destruct (overwrite_if_better_frame m (<[(4, 2) := s]> m) 4 2 s true eq_refl)
    as (Hdom & _ & _ & _ & Hagain).
  split; [exact Hdom | exact Hagain].
Defined.

(** [preserve_from_file], when it returns, has put the loaded strategy
    under (n, d), has added that key if it was missing and no other,
    and has left every other entry as it was; the key is a valid one
    and the entry replaced was not guaranteed best. *)
Theorem preserve_from_file_frame
    (m m' : table) (n d : Z) (s : Strategy) :
  preserve_from_file m n d s = Ok m' ->
  0 <= d <= n /\
  dom m' = {[ (n, d) ]} ∪ dom m /\
  (forall k, k <> (n, d) -> m' !! k = m !! k) /\
  (exists s', m' !! (n, d) = Some s' /\
     tests s' = tests s /\ t s' = t s /\
     guaranteed_best s' = guaranteed_best s /\
     (belongs_in_file s = BelongsInFile.Yes -> s' = s)) /\
  (forall cur, m !! (n, d) = Some cur ->
     guaranteed_best cur = GuaranteedBest.No /\ isBetterThan s cur = true).
Proof.
  unfold preserve_from_file.
  set (m1 := map_insert_new m (n, d) (worst_case_strategy n GuaranteedBest.No)).
  destruct (overwrite_if_better m1 n d s) as [[m2 b]| | |] eqn:Hrun; try done.
  simpl. destruct b; simpl; [|done]. intros [= <-].
  apply overwrite_if_better_inv in Hrun
    as (Hkey & [(? & _)|(_ & base & Hbase & Hb & Hg & ->)]); [done|].
  split; [done|].
  assert (Hm1 : forall k, k <> (n, d) -> m1 !! k = m !! k).
  { intros k Hk. unfold m1. rewrite map_insert_new_lookup.
    destruct (m !! k); [done|]. by rewrite decide_False. }
  split; [|split; [|split]].
  - apply set_eq. intros k. rewrite elem_of_union, elem_of_singleton, !elem_of_dom.
    rewrite lookup_insert. case_decide as E.
    + subst k. split; [by left | eauto].
    + rewrite Hm1 by done. split; [by right | intros [?|?]; congruence || done].
  - intros k Hk. rewrite lookup_insert_ne by done. by apply Hm1.
  - exists (installed s base). rewrite lookup_insert_eq.
    rewrite installed_tests, installed_t, installed_guaranteed_best.
    repeat split; try done.
    intros Hs. unfold installed. destruct (BelongsInFile.eqb _ _); [|done].
    destruct s; simpl in *. by subst.
  - intros cur Hcur. unfold m1, map_insert_new in Hbase. rewrite Hcur in Hbase.
    rewrite Hcur in Hbase. by injection Hbase as <-.
Qed.

Lemma preserve_from_file_frame_witness :
  let s := Strategy_of_vec
             (rows_of ["111......"; "...111..."; "......111";
                       "1..1..1.."; ".1..1..1."; "..1..1..1"]%string)
             GuaranteedBest.No BelongsInFile.Yes in
  let m : table := {[ (3, 1) := empty_strategy ]} in
  dom (<[(9, 2) := s]> m) = {[ (9, 2) ]} ∪ dom m.
Proof.
  intros s m.
  exact (proj1 (proj2 (preserve_from_file_frame m (<[(9, 2) := s]> m) 9 2 s eq_refl))).
Defined.

(** ** What the cascade keeps *)

(** Any reflexive and transitive relation that holds across one update
    holds across a whole cascade. *)
Section CascadeRelation.
Variable R : table -> table -> Prop.
Hypothesis R_refl : forall m, R m m.
Hypothesis R_trans : forall m1 m2 m3, R m1 m2 -> R m2 m3 -> R m1 m3.
Hypothesis R_step :
  forall m n d s m' b, overwrite_if_better m n d s = Ok (m', b) -> R m m'.
Variable order : eval_order.

Local Abbreviation relates := (relates R).

Lemma relates_bind (m : table) (x : outcome table) (f : table -> outcome table) :
  relates m x -> (forall m1, R m m1 -> relates m1 (f m1)) -> relates m (x ≫= f).
Proof.
  intros Hx Hf m'. destruct x as [m1| | |]; simpl; try done.
  intros Hm'. eapply R_trans; [by apply Hx|]. by eapply Hf; [apply Hx|].
Qed.

Lemma relates_skip {A : Type} (m : table) (x : outcome A) (f : A -> outcome table) :
  (forall a, x = Ok a -> relates m (f a)) -> relates m (x ≫= f).
Proof. intros Hf m'. destruct x as [a| | |]; simpl; try done. by apply Hf. Qed.

Lemma relates_weaken (m0 m : table) x : R m0 m -> relates m x -> relates m0 x.
Proof. intros H0 Hx m' Hm'. eapply R_trans; [done | by apply Hx]. Qed.

Section Step.
Variable recur : table -> ND -> outcome table.
Hypothesis recur_relates : forall m k, relates m (recur m k).

Lemma propose_relates (m : table) k cand : relates m (propose recur m k cand).
Proof.
  unfold propose. apply relates_skip. intros [m1 b] Hrun.
  apply R_step in Hrun. destruct b.
  - eapply relates_weaken; [done | apply recur_relates].
  - by intros m' [= <-].
Qed.

Lemma rule_remove_relates (m : table) kv n d t0 : relates m (rule_remove order recur m kv n d t0).
Proof.
  unfold rule_remove. destruct (_ && _); [|by intros m' [= <-]].
  apply relates_skip. intros s _. apply relates_skip. intros s1 _.
  apply relates_bind; [apply propose_relates|]. intros m1 _.
  destruct (d - 1 >=? 2); [|by intros m' [= <-]].
  apply relates_skip. intros s' _. apply relates_skip. intros s2 _.
  apply propose_relates.
Qed.

Lemma rule_relax_relates (m : table) kv n d t0 : relates m (rule_relax recur m kv n d t0).
Proof.
  unfold rule_relax. destruct (_ && _); [|by intros m' [= <-]].
  apply relates_skip. intros s _. apply propose_relates.
Qed.

Lemma rule_pad_relates (m : table) kv n d t0 : relates m (rule_pad recur m kv n d t0).
Proof.
  unfold rule_pad. destruct (_ && _); [|by intros m' [= <-]].
  apply relates_skip. intros s _. apply propose_relates.
Qed.

Lemma rule_double_relates (m : table) kv n d : relates m (rule_double recur m kv n d).
Proof.
  unfold rule_double. apply relates_skip. intros s _.
  destruct (_ =? _); [apply propose_relates | by intros m' [= <-]].
Qed.
End Step.

Lemma add_solutions_derived_from_relates :
  forall fuel (m : table) kv, relates m (add_solutions_derived_from order fuel m kv).
Proof.
  induction fuel as [|fuel IH]; intros m kv; [done|]. simpl.
  apply relates_skip. intros s _.
  apply relates_bind; [by apply rule_remove_relates|]. intros m1 _.
  apply relates_bind; [by apply rule_relax_relates|]. intros m2 _.
  apply relates_bind; [by apply rule_pad_relates|]. intros m3 _.
  by apply rule_double_relates.
Qed.
End CascadeRelation.

(** A cascade that returns has kept the set of keys, has raised no
    stored test count, has left every guaranteed-best entry as it was,
    and has kept the file flag on every key that had it, in either
    order of evaluation. *)
Theorem add_solutions_derived_from_no_worse
    (order : eval_order) (fuel : nat) (m m' : table) (kv : kvref) :
  add_solutions_derived_from order fuel m kv = Ok m' ->
  dom m' = dom m /\
  forall k cur, m !! k = Some cur ->
    exists cur', m' !! k = Some cur' /\ t cur' <= t cur /\
      (guaranteed_best cur = GuaranteedBest.Yes -> cur' = cur) /\
      (belongs_in_file cur = BelongsInFile.Yes ->
       belongs_in_file cur' = BelongsInFile.Yes).
Proof.
  intros Hrun.
  assert (Hnw : no_worse m m').
  { eapply (add_solutions_derived_from_relates no_worse); [..|exact Hrun].
    - apply no_worse_refl.
    - apply no_worse_trans.
    - apply overwrite_if_better_no_worse. }
  split; [by apply no_worse_dom|].
  intros k cur Hcur. specialize (Hnw k). rewrite Hcur in Hnw.
  destruct (m' !! k) as [cur'|]; [eauto | done].
Qed.

Lemma add_solutions_derived_from_no_worse_witness :
  let grid := Strategy_of_vec
                (rows_of ["111......"; "...111..."; "......111";
                          "1..1..1.."; ".1..1..1."; "..1..1..1"]%string)
                GuaranteedBest.No BelongsInFile.Yes in
  let rows8 := rows_of ["11......"; "..111..."; ".....111";
                        "..1..1.."; "1..1..1."; ".1..1..1"]%string in
  let s8 := mkStrategy rows8 6 GuaranteedBest.No BelongsInFile.No in
  let s8' := mkStrategy rows8 0 GuaranteedBest.No BelongsInFile.No in
  let s9' := mkStrategy
               (rows_of ["11......."; "..111...."; ".....111."; "..1..1...";
                         "1..1..1.."; ".1..1..1."; "........1"]%string)
               1 GuaranteedBest.No BelongsInFile.Yes in
  let m : table := {[ (9, 2) := grid;
                      (8, 2) := worst_case_strategy 8 GuaranteedBest.No ]} in
  (add_solutions_derived_from SizeFirst 3 m (Pair (9, 2) grid)
   = Ok (<[(8, 2) := s8]> m) /\
   dom (<[(8, 2) := s8]> m) = dom m) /\
  (add_solutions_derived_from CaptureFirst 3 m (Pair (9, 2) grid)
   = Ok (<[(9, 2) := s9']> (<[(8, 2) := s8']> m)) /\
   dom (<[(9, 2) := s9']> (<[(8, 2) := s8']> m)) = dom m).
Proof.
  intros grid rows8 s8 s8' s9' m.
  assert (Hsize : add_solutions_derived_from SizeFirst 3 m (Pair (9, 2) grid)
                  = Ok (<[(8, 2) := s8]> m)) by (vm_compute; reflexivity).
  assert (Hcapture : add_solutions_derived_from CaptureFirst 3 m (Pair (9, 2) grid)
                     = Ok (<[(9, 2) := s9']> (<[(8, 2) := s8']> m)))
    by (vm_compute; reflexivity).
  split.
  - split; [exact Hsize|].
    exact (proj1 (add_solutions_derived_from_no_worse SizeFirst 3 m _ _ Hsize)).
  - split; [exact Hcapture|].
    exact (proj1 (add_solutions_derived_from_no_worse CaptureFirst 3 m _ _ Hcapture)).
Defined.

(** ** The shape of the strategies the program builds *)

Section Shapes.
Variable order : eval_order.
Implicit Types (m : table) (s : Strategy) (k : ND).

Lemma counted_nonneg s : counted order s -> 0 <= t s.
Proof. unfold counted. destruct order; lia. Qed.

Lemma shaped_fits k s : shaped k s -> fits order k s.
Proof. intros [Ht Hwf]. split; [|done]. unfold counted. destruct order; lia. Qed.

Lemma installed_fits k s cur : fits order k s -> fits order k (installed s cur).
Proof. unfold fits, counted. by rewrite installed_t, installed_tests. Qed.

Lemma unit_row_length n i : length (unit_row n i) = Z.to_nat n.
Proof. unfold unit_row. by rewrite length_insert, length_replicate. Qed.

Lemma worst_case_strategy_shaped n d gb :
  1 <= n -> shaped (n, d) (worst_case_strategy n gb).
Proof.
  intros Hn. split; simpl.
  - rewrite worst_case_tests_length. lia.
  - unfold worst_case_tests. apply Forall_forall.
    intros test (i & -> & _)%list_elem_of_fmap. apply unit_row_length.
Qed.

Lemma test_last_animal_individually_wide (n : Z) (N : nat) s :
  N = Z.to_nat n -> 0 <= n -> well_formed N (tests s) ->
  well_formed (Z.to_nat (n + 1)) (tests (test_last_animal_individually n s)).
Proof.
  intros -> Hn Hwf. simpl. apply Forall_app. split.
  - apply Forall_forall. intros test (old & -> & Hold)%list_elem_of_fmap.
    eapply Forall_forall in Hwf; [|exact Hold]. rewrite length_app, Hwf. simpl. lia.
  - constructor; [|constructor]. rewrite length_app, length_replicate. simpl. lia.
Qed.

Lemma test_last_animal_individually_shaped n d d' s :
  0 <= n -> shaped (n, d) s ->
  shaped (n + 1, d') (test_last_animal_individually n s).
Proof.
  intros Hn [Ht Hwf]. split.
  - simpl in *. rewrite length_app, length_map. simpl. lia.
  - by apply (test_last_animal_individually_wide n (Z.to_nat n)).
Qed.

Lemma test_last_animal_individually_fits n d d' s :
  0 <= n -> fits order (n, d) s ->
  fits order (n + 1, d') (test_last_animal_individually n s).
Proof.
  intros Hn [Ht Hwf]. split.
  - unfold counted in *. simpl. rewrite length_app, length_map. simpl.
    destruct order; lia.
  - by apply (test_last_animal_individually_wide n (Z.to_nat n)).
Qed.

(** The candidate has one column less; its count is the number of its
    rows or 0, by the order of evaluation. *)
Lemma replace_most_tested_animal_fits n d' s with_wolf s' :
  well_formed (Z.to_nat n) (tests s) ->
  replace_most_tested_animal order s with_wolf = Ok s' ->
  fits order (n - 1, d') s'.
Proof.
  intros Hwf
    (first & rest & idx & Htests & Hidx & _ & _ & _ & _ & ->)%replace_most_tested_animal_inv.
  assert (Hfirst : length first = Z.to_nat n).
  { rewrite Htests in Hwf. by apply Forall_cons in Hwf as [? _]. }
  split.
  - unfold counted. cbn [t tests]. rewrite length_map. destruct order; lia.
  - cbn [tests fst]. apply Forall_forall.
    intros row (test & -> & Hin)%list_elem_of_fmap.
    assert (Hlen : length test = Z.to_nat n).
    { eapply Forall_forall in Hwf; [exact Hwf|].
      destruct with_wolf; [|done].
      apply list_elem_of_In, filter_In in Hin as [Hin _]. by apply list_elem_of_In. }
    rewrite length_delete by (apply lookup_lt_is_Some; lia). lia.
Qed.

Lemma kv_second_fits m kv s :
  all_fit order m -> kv_fits order kv -> kv_second m kv = Ok s ->
  fits order (kv_first kv) s.
Proof.
  intros Hm Hkv. destruct kv as [k s0|k]; simpl in *.
  - by intros [= <-].
  - destruct (m !! k) as [s0|] eqn:E; [|done]. intros [= <-]. by apply Hm.
Qed.

Lemma overwrite_if_better_fits m n d s m' b :
  all_fit order m -> fits order (n, d) s ->
  overwrite_if_better m n d s = Ok (m', b) -> all_fit order m'.
Proof.
  intros Hm Hs
    (_ & [(_ & -> & _)|(_ & cur & Hcur & _ & _ & ->)])%overwrite_if_better_inv;
    [done|].
  intros k s0. rewrite lookup_insert. case_decide as E.
  - intros [= <-]. subst k. by apply installed_fits.
  - apply Hm.
Qed.

Local Abbreviation keeps_shape := (keeps_shape order).

Lemma keeps_shape_bind (x : outcome table) (f : table -> outcome table) :
  keeps_shape x -> (forall m1, all_fit order m1 -> keeps_shape (f m1)) ->
  keeps_shape (x ≫= f).
Proof.
  intros Hx Hf m'. destruct x as [m1| | |]; simpl; try done.
  apply Hf. by apply Hx.
Qed.

Lemma keeps_shape_skip {A : Type} (x : outcome A) (f : A -> outcome table) :
  (forall a, x = Ok a -> keeps_shape (f a)) -> keeps_shape (x ≫= f).
Proof. intros Hf m'. destruct x as [a| | |]; simpl; try done. by apply Hf. Qed.

Lemma keeps_shape_ret m : all_fit order m -> keeps_shape (Ok m).
Proof. by intros Hm m' [= <-]. Qed.

Section Step.
Variable recur : table -> ND -> outcome table.
Hypothesis recur_keeps : forall m k, all_fit order m -> keeps_shape (recur m k).

Lemma propose_keeps_shape m k cand :
  all_fit order m -> fits order k cand -> keeps_shape (propose recur m k cand).
Proof.
  intros Hm Hcand. unfold propose. apply keeps_shape_skip. intros [m1 b] Hrun.
  destruct k as [n d]. simpl in Hrun.
  pose proof (overwrite_if_better_fits _ _ _ _ _ _ Hm Hcand Hrun) as Hm1.
  destruct b; [by apply recur_keeps | by apply keeps_shape_ret].
Qed.

Variable kv : kvref.
Hypothesis kv_ok : kv_fits order kv.
Local Abbreviation n := ((kv_first kv).1).
Local Abbreviation d := ((kv_first kv).2).

Lemma kv_second_fits_nd m s d' :
  all_fit order m -> kv_second m kv = Ok s -> fits order (n, d') s.
Proof.
  intros Hm Hs. pose proof (kv_second_fits m kv s Hm kv_ok Hs) as H.
  by destruct (kv_first kv).
Qed.

Lemma rule_remove_keeps_shape m t0 :
  all_fit order m -> keeps_shape (rule_remove order recur m kv n d t0).
Proof.
  intros Hm. unfold rule_remove. destruct (_ && _); [|by apply keeps_shape_ret].
  apply keeps_shape_skip. intros s Hs. apply keeps_shape_skip. intros s1 Hs1.
  apply keeps_shape_bind.
  - apply propose_keeps_shape; [done|].
    eapply (replace_most_tested_animal_fits n); [|exact Hs1].
    by destruct (kv_second_fits_nd m s d Hm Hs).
  - intros m1 Hm1. destruct (d - 1 >=? 2); [|by apply keeps_shape_ret].
    apply keeps_shape_skip. intros s' Hs'. apply keeps_shape_skip. intros s2 Hs2.
    apply propose_keeps_shape; [done|].
    eapply (replace_most_tested_animal_fits n); [|exact Hs2].
    by destruct (kv_second_fits_nd m1 s' d Hm1 Hs').
Qed.

Lemma rule_relax_keeps_shape m t0 :
  all_fit order m -> keeps_shape (rule_relax recur m kv n d t0).
Proof.
  intros Hm. unfold rule_relax. destruct (_ && _); [|by apply keeps_shape_ret].
  apply keeps_shape_skip. intros s Hs. apply propose_keeps_shape; [done|].
  exact (kv_second_fits_nd m s d Hm Hs).
Qed.

Lemma rule_pad_keeps_shape m t0 :
  all_fit order m -> keeps_shape (rule_pad recur m kv n d t0).
Proof.
  intros Hm. unfold rule_pad.
  destruct (Z.leb_spec 2 d); simpl; [|by apply keeps_shape_ret].
  destruct (Z.ltb_spec d n); simpl; [|by apply keeps_shape_ret].
  destruct (t0 <? n - 1); [|by apply keeps_shape_ret].
  apply keeps_shape_skip. intros s Hs. apply propose_keeps_shape; [done|].
  apply (test_last_animal_individually_fits n d); [lia|].
  by apply (kv_second_fits_nd m).
Qed.

Lemma rule_double_keeps_shape m :
  all_fit order m -> keeps_shape (rule_double recur m kv n d).
Proof.
  intros Hm. unfold rule_double. apply keeps_shape_skip. intros s Hs.
  destruct (Z.eqb_spec (t s) (n - 1)) as [E|_]; [|by apply keeps_shape_ret].
  apply propose_keeps_shape; [done|].
  apply shaped_fits, worst_case_strategy_shaped.
  destruct (kv_second_fits_nd m s d Hm Hs) as [Ht%counted_nonneg _]. lia.
Qed.
End Step.

Lemma add_solutions_derived_from_keeps_shape :
  forall fuel m kv,
    all_fit order m -> kv_fits order kv ->
    keeps_shape (add_solutions_derived_from order fuel m kv).
Proof.
  induction fuel as [|fuel IH]; intros m kv Hm Hkv; [done|]. simpl.
  assert (Hrec : forall m1 k, all_fit order m1 ->
            keeps_shape (add_solutions_derived_from order fuel m1 (Node k))).
  { intros m1 k Hm1. by apply IH. }
  apply keeps_shape_skip. intros s _.
  apply keeps_shape_bind; [by apply rule_remove_keeps_shape|]. intros m1 Hm1.
  apply keeps_shape_bind; [by apply rule_relax_keeps_shape|]. intros m2 Hm2.
  apply keeps_shape_bind; [by apply rule_pad_keeps_shape|]. intros m3 Hm3.
  by apply rule_double_keeps_shape.
Qed.
End Shapes.

(** What the cascade keeps of the shape of the stored strategies.  In
    either order of evaluation, if every stored strategy and the
    starting entry have rows of one character per animal of their key,
    so does every strategy in the table a cascade returns.  The stored
    test count is the number of rows throughout in a build that
    evaluates [tests.size()] first; in a build that evaluates the
    capture first it stays between 0 and the number of rows, and need
    not be that number, the candidates of [replace_most_tested_animal]
    carrying 0. *)
Theorem add_solutions_derived_from_shaped
    (order : eval_order) (fuel : nat) (m m' : table) (kv : kvref) :
  (forall k s, m !! k = Some s -> fits order k s) ->
  kv_fits order kv ->
  add_solutions_derived_from order fuel m kv = Ok m' ->
  forall k s, m' !! k = Some s ->
    well_formed (Z.to_nat k.1) (tests s) /\
    match order with
    | SizeFirst => t s = Z.of_nat (length (tests s))
    | CaptureFirst => 0 <= t s <= Z.of_nat (length (tests s))
    end.
Proof.
  intros Hm Hkv Hrun k s Hs.
  destruct (add_solutions_derived_from_keeps_shape order fuel m kv Hm Hkv m' Hrun k s Hs)
    as [Hcount Hwide].
  split; [exact Hwide|]. by destruct order.
Qed.

Lemma add_solutions_derived_from_shaped_witness :
  let grid := Strategy_of_vec
                (rows_of ["111......"; "...111..."; "......111";
                          "1..1..1.."; ".1..1..1."; "..1..1..1"]%string)
                GuaranteedBest.No BelongsInFile.Yes in
  let rows8 := rows_of ["11......"; "..111..."; ".....111";
                        "..1..1.."; "1..1..1."; ".1..1..1"]%string in
  let s8 := mkStrategy rows8 6 GuaranteedBest.No BelongsInFile.No in
  let s8' := mkStrategy rows8 0 GuaranteedBest.No BelongsInFile.No in
  let s9' := mkStrategy
               (rows_of ["11......."; "..111...."; ".....111."; "..1..1...";
                         "1..1..1.."; ".1..1..1."; "........1"]%string)
               1 GuaranteedBest.No BelongsInFile.Yes in
  let m : table := {[ (9, 2) := grid;
                      (8, 2) := worst_case_strategy 8 GuaranteedBest.No ]} in
  (add_solutions_derived_from SizeFirst 3 m (Pair (9, 2) grid)
   = Ok (<[(8, 2) := s8]> m) /\
   well_formed 8 (tests s8) /\ t s8 = Z.of_nat (length (tests s8))) /\
  (add_solutions_derived_from CaptureFirst 3 m (Pair (9, 2) grid)
   = Ok (<[(9, 2) := s9']> (<[(8, 2) := s8']> m)) /\
   well_formed 9 (tests s9') /\ 0 <= t s9' <= Z.of_nat (length (tests s9'))).
Proof.
  intros grid rows8 s8 s8' s9' m.
  assert (Hm : forall order k s, m !! k = Some s -> fits order k s).
  { intros order. apply (bool_decide_unpack _). by destruct order; vm_compute. }
  assert (Hgrid : forall order, kv_fits order (Pair (9, 2) grid)).
  { intros order. apply (bool_decide_unpack _). by destruct order; vm_compute. }
  assert (Hsize : add_solutions_derived_from SizeFirst 3 m (Pair (9, 2) grid)
                  = Ok (<[(8, 2) := s8]> m)) by (vm_compute; reflexivity).
  assert (Hcapture : add_solutions_derived_from CaptureFirst 3 m (Pair (9, 2) grid)
                     = Ok (<[(9, 2) := s9']> (<[(8, 2) := s8']> m)))
    by (vm_compute; reflexivity).
  split.
  - split; [exact Hsize|].
    exact (add_solutions_derived_from_shaped SizeFirst 3 m _ (Pair (9, 2) grid)
             (Hm SizeFirst) (Hgrid SizeFirst) Hsize (8, 2) s8 eq_refl).
  - split; [exact Hcapture|].
    exact (add_solutions_derived_from_shaped CaptureFirst 3 m _ (Pair (9, 2) grid)
             (Hm CaptureFirst) (Hgrid CaptureFirst) Hcapture (9, 2) s9' eq_refl).
Defined.

(** ** Seeding *)

Section Seeding.
Implicit Types (m : table) (s : Strategy).

Lemma one_wolf_loop_width n :
  forall fuel bit rows,
    one_wolf_loop fuel n bit = Ok rows -> well_formed (Z.to_nat n) rows.
Proof.
  induction fuel as [|fuel IH]; intros bit rows; simpl.
  - destruct (bit <? n); [done|]. intros [= <-]. constructor.
  - destruct (bit <? n); [|intros [= <-]; constructor].
    destruct (one_wolf_loop fuel n _) as [rest| | |] eqn:Hrest; simpl; try done.
    intros [= <-]. constructor; [apply one_wolf_row_length | by eapply IH].
Qed.

Lemma easy_strategy_shaped n d s :
  0 <= d <= n -> easy_strategy n d = Ok s ->
  shaped (n, d) s /\ belongs_in_file s = BelongsInFile.No.
Proof.
  intros Hnd. unfold easy_strategy.
  destruct (Z.eqb_spec d 0); simpl;
    [|destruct (Z.eqb_spec d n); simpl; [|destruct (Z.eqb_spec d 1)]].
  - intros [= <-]. split; [|done]. split; [done | constructor].
  - intros [= <-]. split; [|done]. split; [done | constructor].
  - unfold perfect_strategy_for_one_wolf.
    destruct (one_wolf_loop 33 n 1) as [rows| | |] eqn:Hrows; simpl; try done.
    intros [= <-]. split; [|done]. split; [done|]. by eapply one_wolf_loop_width.
  - destruct (d >=? Z.quot n 2); intros [= <-]; (split; [|done]);
      apply worst_case_strategy_shaped; lia.
Qed.

Lemma add_easy_row_inv n :
  forall ds m m',
    add_easy_row ds n m = Ok m' ->
    (forall k s, m !! k = Some s -> m' !! k = Some s) /\
    (forall k s, m !! k = None -> m' !! k = Some s ->
       exists d, d ∈ ds /\ k = (n, d) /\ easy_strategy n d = Ok s) /\
    (forall d, d ∈ ds -> is_Some (m' !! (n, d))).
Proof.
  induction ds as [|d0 ds IH]; intros m m'; simpl.
  - intros [= <-]. split; [done|]. split; [intros; congruence|].
    intros d Hd. by apply elem_of_nil in Hd.
  - destruct (easy_strategy n d0) as [s0| | |] eqn:Hs0; simpl; try done.
    intros (Hkeep & Hnew & Hall)%IH. split; [|split].
    + intros k s Hk. apply Hkeep. by rewrite map_insert_new_lookup, Hk.
    + intros k s Hk Hk'.
      destruct (decide ((n, d0) = k)) as [<-|Hne].
      * exists d0. split; [by left|]. split; [done|].
        assert (map_insert_new m (n, d0) s0 !! (n, d0) = Some s0) as Hin
          by (rewrite map_insert_new_lookup, Hk; by rewrite decide_True).
        apply Hkeep in Hin. congruence.
      * destruct (Hnew k s) as (d & Hd & -> & Hs); [|done|].
        { rewrite map_insert_new_lookup, Hk. by rewrite decide_False. }
        exists d. split; [by right | done].
    + intros d [->|Hd]%elem_of_cons; [|by apply Hall].
      destruct (m !! (n, d0)) as [old|] eqn:Hold.
      * exists old. apply Hkeep. by rewrite map_insert_new_lookup, Hold.
      * exists s0. apply Hkeep. rewrite map_insert_new_lookup, Hold.
        by rewrite decide_True.
Qed.

Lemma add_easy_rows_inv :
  forall ns m m',
    add_easy_rows ns m = Ok m' ->
    (forall k s, m !! k = Some s -> m' !! k = Some s) /\
    (forall k s, m !! k = None -> m' !! k = Some s ->
       k.1 ∈ ns /\ 0 <= k.2 <= k.1 /\ easy_strategy k.1 k.2 = Ok s) /\
    (forall n d, n ∈ ns -> 0 <= d <= n -> is_Some (m' !! (n, d))).
Proof.
  induction ns as [|n0 ns IH]; intros m m'; simpl.
  - intros [= <-]. split; [done|]. split; [intros; congruence|].
    intros n d Hn. by apply elem_of_nil in Hn.
  - destruct (add_easy_row (seqZ 0 (n0 + 1)) n0 m) as [m1| | |] eqn:Hrow;
      simpl; try done.
    apply add_easy_row_inv in Hrow as (Hkeep1 & Hnew1 & Hall1).
    intros (Hkeep & Hnew & Hall)%IH. split; [auto|]. split.
    + intros k s Hk Hk'. destruct (m1 !! k) as [s1|] eqn:Hk1.
      * pose proof (Hkeep _ _ Hk1) as Hk2. rewrite Hk' in Hk2. injection Hk2 as ->.
        destruct (Hnew1 k s1 Hk Hk1) as (d & Hd%elem_of_seqZ & -> & Hs).
        simpl. split; [by left|]. split; [lia | done].
      * destruct (Hnew k s Hk1 Hk') as (Hin & Hrange & Hs).
        split; [by right | done].
    + intros n d [->|Hn]%elem_of_cons Hd; [|by apply Hall].
      destruct (Hall1 d) as [s1 Hs1]; [apply elem_of_seqZ; lia|].
      exists s1. by apply Hkeep.
Qed.
End Seeding.

(** [add_easy_solutions], when it returns: every entry that was in the
    table is still there unchanged; the keys are the old ones and the
    whole triangle 0 <= d <= n <= max_n; each new entry is the base case
    of its key, shaped for it and not flagged for the file. *)
Theorem add_easy_solutions_frame (m m' : table) (max_n : Z) :
  add_easy_solutions m max_n = Ok m' ->
  (forall k s, m !! k = Some s -> m' !! k = Some s) /\
  (forall n d, is_Some (m' !! (n, d)) <->
               is_Some (m !! (n, d)) \/ (0 <= d <= n /\ n <= max_n)) /\
  (forall n d s, m !! (n, d) = None -> m' !! (n, d) = Some s ->
     easy_strategy n d = Ok s /\ shaped (n, d) s /\
     belongs_in_file s = BelongsInFile.No) /\
  (all_shaped m -> all_shaped m').
Proof.
  unfold add_easy_solutions. intros (Hkeep & Hnew & Hall)%add_easy_rows_inv.
  split; [done|].
  assert (Hfresh : forall n d s, m !! (n, d) = None -> m' !! (n, d) = Some s ->
            (0 <= d <= n /\ n <= max_n) /\ easy_strategy n d = Ok s /\
            shaped (n, d) s /\ belongs_in_file s = BelongsInFile.No).
  { intros n d s Hk Hk'.
    destruct (Hnew _ _ Hk Hk') as (Hn%elem_of_seqZ & Hd & Hs). simpl in *.
    split; [lia|]. split; [done|]. by apply easy_strategy_shaped. }
  split; [|split].
  - intros n d. split.
    + intros [s Hs]. destruct (m !! (n, d)) as [old|] eqn:Hold; [left; eauto|].
      right. by destruct (Hfresh n d s Hold Hs).
    + intros [[old Hold]|[Hd Hn]]; [eauto|].
      apply Hall; [apply elem_of_seqZ; lia | done].
  - intros n d s Hk Hk'. by destruct (Hfresh n d s Hk Hk') as (_ & ? & ? & ?).
  - intros Hm [n d] s Hs. destruct (m !! (n, d)) as [old|] eqn:Hold.
    + pose proof (Hkeep _ _ Hold) as Hs'. rewrite Hs in Hs'. injection Hs' as ->.
      by apply Hm.
    + by destruct (Hfresh n d s Hold Hs) as (_ & _ & ? & _).
Qed.

Lemma add_easy_solutions_frame_witness :
  exists m' : table,
    add_easy_solutions ∅ 4 = Ok m' /\ all_shaped m' /\
    (is_Some (m' !! (4, 2)) <-> is_Some ((∅ : table) !! (4, 2)) \/ (0 <= 2 <= 4 /\ 4 <= 4)).
Proof.
  eexists. split; [vm_compute; reflexivity|].
  match goal with |- all_shaped ?m1 /\ _ =>
    destruct (add_easy_solutions_frame ∅ m1 4) as (_ & Hdom & _ & Hshape) end.
  - vm_compute. reflexivity.
  - split; [apply Hshape; intros k s; by rewrite lookup_empty | apply Hdom].
Defined.

(** ** The matrices the constructors build *)

Section Columns.
Implicit Types (tsts : list row) (s : Strategy).

Lemma column_lookup tsts i r :
  column tsts i !! r = positive_at i <$> tsts !! r.
Proof. unfold column. apply lookup_map. Qed.

Lemma column_cell tsts r i c :
  cell tsts r i = Some c -> column tsts i !! r = Some (is_one c).
Proof.
  unfold cell. rewrite column_lookup.
  destruct (tsts !! r) as [test|]; simpl; [|done].
  unfold positive_at. by intros ->.
Qed.

Lemma distinct_columns_by_cell (N : nat) tsts :
  (forall i j, (i < j < N)%nat ->
     exists r ci cj, cell tsts r i = Some ci /\ cell tsts r j = Some cj /\
                     is_one ci <> is_one cj) ->
  distinct_columns N tsts.
Proof.
  intros H i j Hij Heq. destruct (H i j Hij) as (r & ci & cj & Hi & Hj & Hne).
  apply column_cell in Hi, Hj. rewrite Heq in Hi. congruence.
Qed.

(** Columns that all differ need enough tests to be written apart. *)
Lemma bits_value_inj (bs bs' : list bool) :
  length bs = length bs' -> bits_value bs = bits_value bs' -> bs = bs'.
Proof.
  revert bs'. induction bs as [|b bs IH]; intros [|b' bs']; simpl; try done.
  intros [= Hlen] Hval.
  assert (b = b') as -> by (destruct b, b'; simpl in Hval; try done; lia).
  f_equal. apply IH; [done | lia].
Qed.

Lemma distinct_columns_bound (N : nat) tsts :
  distinct_columns N tsts -> Z.of_nat N <= 2 ^ Z.of_nat (length tsts).
Proof.
  intros Hdist.
  set (code := fun i : nat => bits_value (column tsts i)).
  assert (Hnodup : NoDup (code <$> seq 0 N)).
  { apply NoDup_fmap_2_strong; [|apply NoDup_seq].
    intros i j [_ Hi]%elem_of_seq [_ Hj]%elem_of_seq Hcode.
    apply bits_value_inj in Hcode; [|by rewrite !column_length].
    destruct (Nat.lt_trichotomy i j) as [Hlt|[->|Hlt]]; [|done|].
    - by destruct (Hdist i j).
    - by destruct (Hdist j i). }
  assert (Hsub : (code <$> seq 0 N) ⊆+ seqZ 0 (2 ^ Z.of_nat (length tsts))).
  { apply NoDup_submseteq; [done|].
    intros v (i & -> & _)%list_elem_of_fmap. apply elem_of_seqZ.
    pose proof (bits_value_range (column tsts i)) as Hr.
    rewrite column_length in Hr. subst code. simpl. lia. }
  apply submseteq_length in Hsub.
  rewrite length_fmap, length_seq, length_seqZ in Hsub. lia.
Qed.

Lemma unit_row_positive n (r i : nat) :
  (r < Z.to_nat n)%nat ->
  positive_at i (unit_row n r) = bool_decide (r = i).
Proof.
  intros Hr. unfold positive_at, unit_row.
  destruct (decide (r = i)) as [->|Hne].
  - rewrite list_lookup_insert_eq by (by rewrite length_replicate).
    by rewrite bool_decide_eq_true_2.
  - rewrite list_lookup_insert_ne by done.
    rewrite bool_decide_eq_false_2 by done.
    destruct (replicate (Z.to_nat n) "."%char !! i) as [c|] eqn:Hc; [|done].
    by apply lookup_replicate in Hc as [-> _].
Qed.

Lemma unit_rows_column_count n (i : nat) :
  forall (k a : nat),
    (a + k <= Z.to_nat n)%nat ->
    column_count (map (unit_row n) (seq a k)) i
    = if decide (a <= i < a + k)%nat then 1 else 0.
Proof.
  induction k as [|k IH]; intros a Hk.
  - simpl. destruct (decide _); [lia | done].
  - cbn [seq map]. rewrite column_count_cons, unit_row_positive by lia.
    rewrite IH by lia.
    destruct (decide (a = i)) as [->|Hne].
    + rewrite bool_decide_eq_true_2 by done.
      repeat destruct (decide _); simpl; lia.
    + rewrite bool_decide_eq_false_2 by done.
      repeat destruct (decide _); simpl; lia.
Qed.

Lemma worst_case_column_count n (i : nat) :
  1 <= n ->
  column_count (worst_case_tests n) i
  = if decide (Z.of_nat i < n - 1) then 1 else 0.
Proof.
  intros Hn. unfold worst_case_tests. rewrite unit_rows_column_count by lia.
  destruct (decide (Z.of_nat i < n - 1));
    [rewrite decide_True by lia | rewrite decide_False by lia]; done.
Qed.

Lemma worst_case_distinct_columns n :
  distinct_columns (Z.to_nat n) (worst_case_tests n).
Proof.
  apply distinct_columns_by_cell. intros i j Hij.
  exists i, "1"%char, "."%char.
  rewrite !worst_case_tests_cell by lia.
  rewrite decide_True by done. rewrite decide_False by lia. done.
Qed.
End Columns.

(** [perfect_strategy_for_one_wolf] for [n] up to 2^30 returns a
    matrix of the right shape in which no two of the [n] columns are
    equal, and no matrix with fewer tests has that property: the
    [GuaranteedBest::Yes] it carries is earned. *)
Theorem perfect_strategy_for_one_wolf_distinct (n : Z) :
  n <= 2 ^ 30 ->
  exists s, perfect_strategy_for_one_wolf n = Ok s /\
    shaped (n, 1) s /\
    guaranteed_best s = GuaranteedBest.Yes /\
    distinct_columns (Z.to_nat n) (tests s) /\
    forall tsts : list row,
      distinct_columns (Z.to_nat n) tsts -> t s <= Z.of_nat (length tsts).
Proof.
  intros Hn. rewrite perfect_strategy_for_one_wolf_rows by done.
  eexists. split; [reflexivity|].
  set (L := Z.log2_up n).
  assert (0 <= L) by apply Z.log2_up_nonneg.
  cbn [Strategy_of_vec tests t guaranteed_best].
  assert (Hlen : Z.of_nat (length (map (fun r => one_wolf_row n (2 ^ r)) (seqZ 0 L))) = L).
  { rewrite length_map, length_seqZ. lia. }
  split; [|split; [done|split]].
  - split; [done|]. cbn [tests fst]. apply Forall_forall.
    intros test (r & -> & _)%list_elem_of_fmap. apply one_wolf_row_length.
  - apply distinct_columns_by_cell. intros i j Hij.
    assert (1 < n) by lia.
    assert (n <= 2 ^ L) by (apply Z.log2_up_spec; lia).
    destruct (Forall_Exists_dec
                (fun r : nat => Z.testbit (Z.of_nat i) (Z.of_nat r)
                                = Z.testbit (Z.of_nat j) (Z.of_nat r))
                (fun r : nat => Z.testbit (Z.of_nat i) (Z.of_nat r)
                                <> Z.testbit (Z.of_nat j) (Z.of_nat r))
                (fun r => decide _) (seq 0 (Z.to_nat L)))
      as [Hall|Hex].
    + exfalso. assert (Z.of_nat i = Z.of_nat j) as Heq; [|lia].
      rewrite Forall_forall in Hall.
      apply Z.bits_inj'. intros r Hr.
      destruct (decide (r < L)) as [Hlt|Hge].
      * specialize (Hall (Z.to_nat r)). rewrite Z2Nat.id in Hall by done.
        apply Hall. apply elem_of_seq. lia.
      * rewrite <- (Z.mod_small (Z.of_nat i) (2 ^ L)) by lia.
        rewrite <- (Z.mod_small (Z.of_nat j) (2 ^ L)) by lia.
        rewrite !Z.mod_pow2_bits_high by lia. done.
    + apply Exists_exists in Hex as (r & [_ Hr]%elem_of_seq & Hdiff).
      eexists r, _, _. unfold cell.
      assert (map (fun r => one_wolf_row n (2 ^ r)) (seqZ 0 L) !! r
              = Some (one_wolf_row n (2 ^ Z.of_nat r))) as ->.
      { rewrite lookup_map, lookup_seqZ_lt by lia. simpl. done. }
      simpl. rewrite !one_wolf_row_lookup by lia.
      split; [done|]. split; [done|].
      destruct (Z.testbit (Z.of_nat i) (Z.of_nat r)),
               (Z.testbit (Z.of_nat j) (Z.of_nat r)); done.
  - intros tsts Hdist%distinct_columns_bound.
    destruct (decide (n <= 1)) as [Hsmall|Hbig].
    + assert (L = 0); [|lia]. unfold L. apply Z.log2_up_eqn0. lia.
    + destruct (Z.log2_up_spec n) as [Hlow _]; [lia|]. fold L in Hlow.
      rewrite Hlen.
      destruct (decide (L <= Z.of_nat (length tsts))) as [|Hshort]; [done|].
      exfalso.
      assert (2 ^ Z.of_nat (length tsts) <= 2 ^ Z.pred L)
        by (apply Z.pow_le_mono_r; lia).
      lia.
Qed.

Lemma perfect_strategy_for_one_wolf_distinct_witness :
  exists s, perfect_strategy_for_one_wolf 5 = Ok s /\ t s = 3 /\
    distinct_columns 5 (tests s).
Proof.
  destruct (perfect_strategy_for_one_wolf_distinct 5) as (s & Hs & _ & _ & Hd & _);
    [vm_compute; discriminate|].
  exists s. split; [done|]. split; [|done].
  vm_compute in Hs. by injection Hs as <-.
Defined.

(** [worst_case_strategy] for [n >= 2] animals: a matrix of the right
    shape whose columns all differ, with animal [i < n-1] in test [i]
    alone and the last animal in no test.  No animal is in two tests,
    so [replace_most_tested_animal] stops at its assertion on it: the
    cascade's guard [t < n-1] is what keeps the two apart. *)
Theorem worst_case_strategy_columns (n : Z) (gb : GuaranteedBest.t) :
  2 <= n ->
  let s := worst_case_strategy n gb in
  shaped (n, 0) s /\
  distinct_columns (Z.to_nat n) (tests s) /\
  (forall i : nat, column_count (tests s) i
                   = if decide (Z.of_nat i < n - 1) then 1 else 0) /\
  forall order with_wolf,
    replace_most_tested_animal order s with_wolf = AssertFail A_most_tested.
Proof.
  intros Hn s.
  assert (Hshape : shaped (n, 0) s) by (apply worst_case_strategy_shaped; lia).
  assert (Hcount : forall i : nat, column_count (tests s) i
                   = if decide (Z.of_nat i < n - 1) then 1 else 0)
    by (intros i; apply worst_case_column_count; lia).
  split; [done|]. split; [apply worst_case_distinct_columns|]. split; [done|].
  intros order with_wolf.
  destruct (tests s) as [|first rest] eqn:Htests.
  { apply (f_equal length) in Htests. subst s. simpl in Htests.
    rewrite worst_case_tests_length in Htests. simpl in Htests. lia. }
  destruct Hshape as [_ Hwf]. unfold well_formed in Hwf. rewrite Htests in Hwf.
  pose proof (Forall_inv Hwf) as Hfirst. simpl in Hfirst.
  destruct (replace_most_tested_animal_total order s with_wolf first rest Htests)
    as [[s' Hs']|[Hfail _]]; [| |exfalso|done].
  - destruct first; [simpl in Hfirst; lia | done].
  - rewrite Htests. eapply Forall_impl; [exact Hwf|]. simpl. intros test ->. lia.
  - apply replace_most_tested_animal_inv in Hs'
      as (first' & rest' & idx & _ & _ & _ & _ & Htwice & _).
    rewrite Htests, Hcount in Htwice. by destruct (decide _).
Qed.

Lemma worst_case_strategy_columns_witness :
  distinct_columns 4 (tests (worst_case_strategy 4 GuaranteedBest.No)) /\
  replace_most_tested_animal CaptureFirst (worst_case_strategy 4 GuaranteedBest.No) true
  = AssertFail A_most_tested.
Proof.
  destruct (worst_case_strategy_columns 4 GuaranteedBest.No) as (_ & Hd & _ & Hr);
    [lia|]. split; [exact Hd | apply Hr].
Defined.

Section LastAnimal.
Implicit Types (tsts : list row) (s : Strategy).

Lemma positive_at_app_l i (test tail : row) :
  (i < length test)%nat -> positive_at i (test ++ tail) = positive_at i test.
Proof. intros Hi. unfold positive_at. by rewrite lookup_app_l. Qed.

Lemma positive_at_end (test : row) c :
  positive_at (length test) (test ++ [c]) = is_one c.
Proof.
  unfold positive_at. rewrite lookup_app_r by lia.
  by rewrite Nat.sub_diag.
Qed.

Lemma positive_at_blank (N i : nat) :
  positive_at i (replicate N "."%char) = false.
Proof.
  unfold positive_at.
  destruct (replicate N "."%char !! i) as [c|] eqn:Hc; [|done].
  by apply lookup_replicate in Hc as [-> _].
Qed.

Lemma column_extended (N : nat) tsts (i : nat) :
  well_formed N tsts -> (i < N)%nat ->
  column (map (fun test => test ++ ["."%char]) tsts) i = column tsts i.
Proof.
  intros Hwf Hi. unfold column. rewrite map_map. apply map_ext_Forall.
  eapply Forall_impl; [exact Hwf|]. simpl. intros test Hlen.
  apply positive_at_app_l. lia.
Qed.

Lemma column_extended_last (N : nat) tsts :
  well_formed N tsts ->
  column (map (fun test => test ++ ["."%char]) tsts) N = map (fun _ => false) tsts.
Proof.
  intros Hwf. unfold column. rewrite map_map. apply map_ext_Forall.
  eapply Forall_impl; [exact Hwf|]. simpl. intros test <-.
  apply positive_at_end.
Qed.

Lemma column_count_column tsts i :
  column_count tsts i = Z.of_nat (length (List.filter id (column tsts i))).
Proof.
  induction tsts as [|test tsts IH]; [done|].
  rewrite column_count_cons, IH. unfold column. simpl.
  destruct (positive_at i test); simpl; lia.
Qed.

Lemma column_app tsts tsts' i :
  column (tsts ++ tsts') i = column tsts i ++ column tsts' i.
Proof. unfold column. apply map_app. Qed.

Lemma filter_id_false {A : Type} (l : list A) :
  List.filter id (map (fun _ => false) l) = [].
Proof. by induction l. Qed.
End LastAnimal.

(** [test_last_animal_individually], on a matrix for [n] animals: the
    result is a matrix for [n+1] animals with one more test; every old
    animal is in the tests it was in and not in the new one; the new
    animal is in the new test alone; columns that all differed still
    do, the new one included. *)
Theorem test_last_animal_individually_columns (n d : Z) (orig : Strategy) :
  0 <= n -> shaped (n, d) orig ->
  let s := test_last_animal_individually n orig in
  shaped (n + 1, d + 1) s /\ t s = t orig + 1 /\
  (forall i : nat, Z.of_nat i < n ->
     column (tests s) i = column (tests orig) i ++ [false] /\
     column_count (tests s) i = column_count (tests orig) i) /\
  column (tests s) (Z.to_nat n) = map (fun _ => false) (tests orig) ++ [true] /\
  column_count (tests s) (Z.to_nat n) = 1 /\
  (distinct_columns (Z.to_nat n) (tests orig) ->
   distinct_columns (Z.to_nat (n + 1)) (tests s)).
Proof.
  intros Hn Hshape s.
  pose proof (test_last_animal_individually_shaped n d (d + 1) orig Hn Hshape) as Hs.
  destruct Hshape as [Ht Hwf]. cbn [fst] in Hwf.
  assert (Hold : forall i : nat, Z.of_nat i < n ->
            column (tests s) i = column (tests orig) i ++ [false]).
  { intros i Hi. subst s. cbn [test_last_animal_individually tests].
    rewrite column_app, (column_extended (Z.to_nat n)) by (done || lia).
    f_equal. unfold column. simpl. f_equal.
    rewrite positive_at_app_l by (rewrite length_replicate; lia).
    apply positive_at_blank. }
  assert (Hnew : column (tests s) (Z.to_nat n)
                 = map (fun _ => false) (tests orig) ++ [true]).
  { subst s. cbn [test_last_animal_individually tests].
    rewrite column_app, column_extended_last by done.
    f_equal. unfold column. simpl. f_equal.
    rewrite <- (length_replicate (Z.to_nat n) "."%char) at 1.
    apply positive_at_end. }
  split; [done|]. split; [done|]. split; [|split; [done|split]].
  - intros i Hi. split; [by apply Hold|].
    rewrite !column_count_column, Hold by done.
    rewrite List.filter_app. simpl. rewrite app_nil_r. done.
  - rewrite column_count_column, Hnew, List.filter_app, filter_id_false. done.
  - intros Hdist i j Hij.
    destruct (decide (j = Z.to_nat n)) as [->|Hj].
    + rewrite Hnew, Hold by lia. intros Heq.
      apply (f_equal (@rev bool)) in Heq. rewrite !rev_unit in Heq.
      by injection Heq.
    + rewrite !Hold by lia. intros Heq%app_inv_tail.
      apply (Hdist i j); [lia | done].
Qed.

Lemma test_last_animal_individually_columns_witness :
  let orig := Strategy_of_vec (rows_of ["11."; "1.1"]%string)
                              GuaranteedBest.No BelongsInFile.Yes in
  tests (test_last_animal_individually 3 orig)
  = rows_of ["11.."; "1.1."; "...1"]%string /\
  column_count (tests (test_last_animal_individually 3 orig)) 3 = 1.
Proof.
  intros orig. split; [reflexivity|].
  destruct (test_last_animal_individually_columns 3 1 orig) as (_ & _ & _ & _ & H & _).
  - lia.
  - split; [reflexivity|]. repeat constructor.
  - exact H.
Defined.

Lemma column_erased (tsts : list row) (idx j : nat) :
  column (map (delete idx) tsts) j = column tsts (before_erase idx j).
Proof.
  unfold column. rewrite map_map. apply map_ext. intros test.
  unfold positive_at, before_erase. by rewrite list_lookup_delete.
Qed.

(** [replace_most_tested_animal] without a wolf (the first rule of the
    cascade), on a matrix for [N] animals: the animal it removes is the
    first of those in the most tests, and is in two at least; the
    result keeps every test; each remaining animal is in exactly the
    tests it was in, its column only moving down by one past the erased
    position; columns that all differed still do; the result is never
    marked best or for the file.  The test count stored with the result
    is the number of rows only in a build that evaluates [tests.size()]
    first; in a build that evaluates the capture first it is 0,
    whatever the number of rows. *)
Theorem replace_most_tested_animal_without_wolf
    (order : eval_order) (N : nat) (orig s' : Strategy) :
  well_formed N (tests orig) ->
  replace_most_tested_animal order orig false = Ok s' ->
  exists idx : nat,
    (idx < N)%nat /\
    (forall j : nat, (j < N)%nat ->
       column_count (tests orig) j <= column_count (tests orig) idx) /\
    (forall j : nat, (j < idx)%nat ->
       column_count (tests orig) j < column_count (tests orig) idx) /\
    2 <= column_count (tests orig) idx /\
    t s' = match order with
           | SizeFirst => Z.of_nat (length (tests orig))
           | CaptureFirst => 0
           end /\
    length (tests s') = length (tests orig) /\
    (2 <= length (tests s'))%nat /\
    well_formed (N - 1) (tests s') /\
    (forall j : nat, column (tests s') j = column (tests orig) (before_erase idx j)) /\
    (forall j : nat, column_count (tests s') j
                     = column_count (tests orig) (before_erase idx j)) /\
    (distinct_columns N (tests orig) -> distinct_columns (N - 1) (tests s')) /\
    guaranteed_best s' = GuaranteedBest.No /\
    belongs_in_file s' = BelongsInFile.No.
Proof.
  intros Hwf (first & rest & idx & Htests & Hidx & Hmax & Hfirst & Htwice & _ & ->)
    %replace_most_tested_animal_inv.
  assert (length first = N) as HN.
  { unfold well_formed in Hwf. rewrite Htests in Hwf. by apply Forall_inv in Hwf. }
  subst N. cbn [tests t guaranteed_best belongs_in_file].
  exists idx. do 4 (split; [done|]). split; [by destruct order|].
  split; [by rewrite length_map|].
  split; [|split; [|split; [|split; [|split]]]].
  - rewrite length_map.
    unfold column_count in Htwice.
    assert (length (List.filter (positive_at idx) (tests orig))
            <= length (tests orig))%nat; [|lia].
    clear. induction (tests orig) as [|test l IH]; simpl; [lia|].
    destruct (positive_at idx test); simpl; lia.
  - apply Forall_forall. intros test (test0 & -> & Hin)%list_elem_of_fmap.
    unfold well_formed in Hwf. rewrite Forall_forall in Hwf.
    rewrite length_delete; [by rewrite (Hwf _ Hin)|].
    apply lookup_lt_is_Some. rewrite (Hwf _ Hin). done.
  - intros j. apply column_erased.
  - intros j. by rewrite !column_count_column, column_erased.
  - intros Hdist i j Hij. rewrite !column_erased. unfold before_erase.
    repeat destruct (decide _); try lia; apply Hdist; lia.
  - done.
Qed.

Lemma replace_most_tested_animal_without_wolf_witness :
  let orig := Strategy_of_vec
                (rows_of ["11.1.."; "1.1.1."; ".11..1"; "...111"]%string)
                GuaranteedBest.No BelongsInFile.Yes in
  let rows := rows_of ["1.1.."; ".1.1."; "11..1"; "..111"]%string in
  (replace_most_tested_animal SizeFirst orig false
   = Ok (mkStrategy rows 4 GuaranteedBest.No BelongsInFile.No) /\
   replace_most_tested_animal CaptureFirst orig false
   = Ok (mkStrategy rows 0 GuaranteedBest.No BelongsInFile.No)) /\
  exists idx : nat, (idx < 6)%nat /\
    column rows 0 = column (tests orig) (before_erase idx 0).
Proof.
  intros orig rows.
  assert (Hcapture : replace_most_tested_animal CaptureFirst orig false
            = Ok (mkStrategy rows 0 GuaranteedBest.No BelongsInFile.No))
    by (vm_compute; reflexivity).
  split; [split; [vm_compute; reflexivity | exact Hcapture]|].
  destruct (replace_most_tested_animal_without_wolf CaptureFirst 6 orig _
              ltac:(repeat constructor) Hcapture)
    as (idx & Hidx & _ & _ & _ & _ & _ & _ & _ & Hcol & _).
  exists idx. split; [exact Hidx | apply Hcol].
Defined.

(** ** The reading loop ends *)

Section StreamShrinks.
Implicit Types (st : istream) (line word : list ascii) (m : table).

Lemma finished_bind {A B : Type} (x : outcome A) (f : A -> outcome B) :
  finished x -> (forall a, x = Ok a -> finished (f a)) -> finished (x ≫= f).
Proof. unfold finished. destruct x; simpl; intros Hx Hf; try done. by apply Hf. Qed.

Lemma finished_assert b a : finished (assert b a).
Proof. by destruct b. Qed.

Lemma skip_ws_length (s : list ascii) : (length (skip_ws s) <= length s)%nat.
Proof.
  induction s as [|c s IH]; [done|]. cbn [skip_ws].
  destruct (is_space c); simpl; lia.
Qed.

Lemma take_word_length (s w r : list ascii) :
  take_word s = (w, r) -> (length r <= length s)%nat.
Proof.
  revert w. induction s as [|c s IH]; intros w; cbn [take_word].
  - by intros [= <- <-].
  - destruct (is_space c); [by intros [= <- <-]|].
    destruct (take_word s) as [w' r'] eqn:Hw. intros [= <- <-].
    specialize (IH w' eq_refl). simpl. lia.
Qed.

Lemma read_word_length st word st' word' :
  read_word st word = (st', word') -> (length (buf st') <= length (buf st))%nat.
Proof.
  unfold read_word. destruct (good st); [|by intros [= <- <-]].
  pose proof (skip_ws_length (buf st)) as Hskip.
  destruct (skip_ws (buf st)) as [|c s] eqn:Hs; [intros [= <- <-]; simpl; lia|].
  destruct (take_word (c :: s)) as [w r] eqn:Hw. intros [= <- <-].
  apply take_word_length in Hw. simpl in *. lia.
Qed.

Lemma split_line_length (s l r : list ascii) :
  split_line s = (l, Some r) -> (length r < length s)%nat.
Proof.
  revert l. induction s as [|c s IH]; intros l; cbn [split_line]; [done|].
  destruct (Ascii.eqb c newline); [intros [= <- <-]; simpl; lia|].
  destruct (split_line s) as [l' r'] eqn:Hl. intros [= <- ->].
  specialize (IH l' eq_refl). simpl. lia.
Qed.

Lemma getline_length st line more st' line' :
  getline st line = (more, st', line') ->
  (length (buf st') <= length (buf st))%nat /\
  (more = true -> (length (buf st') < length (buf st))%nat).
Proof.
  unfold getline. destruct (good st); [|by intros [= <- <- <-]].
  destruct (buf st) as [|c s] eqn:Hbuf; [by intros [= <- <- <-]|].
  destruct (split_line (c :: s)) as [l [r|]] eqn:Hl; intros [= <- <- <-].
  - apply split_line_length in Hl. simpl in *. lia.
  - simpl. lia.
Qed.

Lemma peek_length st c st' :
  peek st = (c, st') -> (length (buf st') <= length (buf st))%nat.
Proof.
  unfold peek. destruct (good st); [|by intros [= <- <-]].
  destruct (buf st) eqn:Hbuf; intros [= <- <-]; simpl; rewrite ?Hbuf; simpl; lia.
Qed.

Lemma read_column_length tc st word tsts tsts' st' word' :
  read_column tc st word tsts = Ok (tsts', st', word') ->
  (length (buf st') <= length (buf st))%nat.
Proof.
  unfold read_column. destruct (read_word st word) as [st1 word1] eqn:Hw.
  apply read_word_length in Hw.
  destruct (sscanf_llx word1); simpl; try done.
  destruct (shl_1ull tc); simpl; try done.
  destruct (_ <? _); simpl; [|done]. by intros [= <- <- <-].
Qed.

Lemma read_columns_length tc :
  forall (n : nat) st word tsts tsts' st',
    read_columns n tc st word tsts = Ok (tsts', st') ->
    (length (buf st') <= length (buf st))%nat.
Proof.
  induction n as [|n IH]; intros st word tsts tsts' st'; cbn [read_columns].
  - by intros [= <- <-].
  - destruct (read_column tc st word tsts) as [[[tsts1 st1] word1]| | |] eqn:Hc;
      simpl; try done.
    apply read_column_length in Hc. intros Hrest%IH. lia.
Qed.

Lemma read_rows_length n :
  forall (count : nat) st line rows st' line',
    read_rows count n st line = Ok (rows, st', line') ->
    (length (buf st') <= length (buf st))%nat.
Proof.
  induction count as [|count IH]; intros st line rows st' line'; cbn [read_rows].
  - by intros [= <- <- <-].
  - destruct (getline st line) as [[more st1] line1] eqn:Hg.
    apply getline_length in Hg as [Hg _].
    destruct (_ =? _); simpl; [|done].
    destruct (read_rows count n st1 line1) as [[[rest st2] line2]| | |] eqn:Hr;
      simpl; try done.
    apply IH in Hr. intros [= <- <- <-]. lia.
Qed.

Lemma read_grid_length line st n d s st' line' :
  read_grid line st = Ok (n, d, s, st', line') ->
  (length (buf st') <= length (buf st))%nat.
Proof.
  unfold read_grid.
  destruct (sscanf_header line) as [[[[n0 d0] tc] gb]| | |]; simpl; try done.
  destruct (peek st) as [nextch st1] eqn:Hp. apply peek_length in Hp.
  destruct (Ascii.eqb nextch "e").
  - destruct (read_word st1 []) as [st2 word] eqn:Hw. apply read_word_length in Hw.
    destruct (bool_decide _); simpl; [|done].
    destruct (0 <=? tc); simpl; [|done].
    destruct (read_columns _ _ _ _ _) as [[tsts st3]| | |] eqn:Hc; simpl; try done.
    apply read_columns_length in Hc. intros [= <- <- <- <- <-]. lia.
  - destruct (read_rows _ _ _ _) as [[[tsts st3] line3]| | |] eqn:Hr; simpl; try done.
    apply read_rows_length in Hr. intros [= <- <- <- <- <-]. lia.
Qed.

Lemma scan_lit_finished lit : forall s : list ascii, finished (scan_lit lit s).
Proof.
  induction lit as [|c lit IH]; intros s; cbn [scan_lit]; [done|].
  destruct s as [|c' s]; [done|]. destruct (Ascii.eqb c c'); [apply IH | done].
Qed.

Lemma scan_d_finished (s : list ascii) : finished (scan_d s).
Proof.
  unfold scan_d. destruct (scan_sign (skip_ws s)) as [neg s1].
  destruct (starts_with_digit 10 s1); [|done].
  destruct (scan_digits 10 s1 0) as [v rest]. by destruct (_ && _).
Qed.

Lemma sscanf_header_finished line : finished (sscanf_header line).
Proof.
  unfold sscanf_header.
  repeat (apply finished_bind;
          [first [apply scan_lit_finished | apply scan_d_finished]
          |intros ? _; try case_match]).
  done.
Qed.

Lemma sscanf_llx_finished word : finished (sscanf_llx word).
Proof.
  unfold sscanf_llx. destruct (scan_sign (skip_ws word)) as [neg s1].
  destruct (starts_with_digit 16 _); [|done]. by destruct (scan_digits 16 _ 0).
Qed.

Lemma read_columns_finished tc :
  forall (n : nat) st word tsts, finished (read_columns n tc st word tsts).
Proof.
  induction n as [|n IH]; intros st word tsts; cbn [read_columns]; [done|].
  apply finished_bind; [|intros [[tsts1 st1] word1] _; apply IH].
  unfold read_column. destruct (read_word st word) as [st1 word1].
  apply finished_bind; [apply sscanf_llx_finished|]. intros bits _.
  apply finished_bind; [unfold shl_1ull; by destruct (_ && _)|]. intros limit _.
  apply finished_bind; [apply finished_assert | done].
Qed.

Lemma read_rows_finished n :
  forall (count : nat) st line, finished (read_rows count n st line).
Proof.
  induction count as [|count IH]; intros st line; cbn [read_rows]; [done|].
  destruct (getline st line) as [[more st1] line1].
  apply finished_bind; [apply finished_assert|]. intros _ _.
  apply finished_bind; [apply IH|]. by intros [[rest st2] line2] _.
Qed.

Lemma read_grid_finished line st : finished (read_grid line st).
Proof.
  unfold read_grid. apply finished_bind; [apply sscanf_header_finished|].
  intros [[[n d] tc] gb] _. destruct (peek st) as [nextch st1].
  apply finished_bind; [|by intros [[tsts st2] line2] _].
  destruct (Ascii.eqb nextch "e"); [|apply read_rows_finished].
  destruct (read_word st1 []) as [st2 word].
  apply finished_bind; [apply finished_assert|]. intros _ _.
  apply finished_bind; [apply finished_assert|]. intros _ _.
  apply finished_bind; [apply read_columns_finished|]. by intros [tsts st3] _.
Qed.

Lemma preserve_from_file_finished m n d s :
  finished (preserve_from_file m n d s).
Proof.
  unfold preserve_from_file.
  apply finished_bind; [apply overwrite_if_better_finished|].
  intros [m2 overwritten] _.
  apply finished_bind; [apply finished_assert | done].
Qed.

(** Fuel beyond the length of what is left to read changes nothing. *)
Lemma read_loop_fuel :
  forall (fuel fuel' : nat) st line seen m,
    (length (buf st) < fuel)%nat -> (length (buf st) < fuel')%nat ->
    read_loop fuel st line seen m = read_loop fuel' st line seen m.
Proof.
  induction fuel as [|fuel IH]; intros [|fuel'] st line seen m Hf Hf'; try lia.
  cbn [read_loop].
  destruct (getline st line) as [[more st1] line1] eqn:Hg.
  apply getline_length in Hg as [_ Hg].
  destruct more; [|done]. specialize (Hg eq_refl).
  destruct (bool_decide _).
  - destruct (read_grid line1 st1) as [[[[[n d] s] st2] line2]| | |] eqn:Hgrid;
      simpl; try done.
    apply read_grid_length in Hgrid.
    destruct (preserve_from_file m n d s); simpl; try done.
    apply IH; lia.
  - destruct (negb _); simpl; [|done]. apply IH; lia.
Qed.

Lemma read_loop_finished :
  forall (fuel : nat) st line seen m,
    (length (buf st) < fuel)%nat -> finished (read_loop fuel st line seen m).
Proof.
  induction fuel as [|fuel IH]; intros st line seen m Hf; [lia|].
  cbn [read_loop].
  destruct (getline st line) as [[more st1] line1] eqn:Hg.
  apply getline_length in Hg as [_ Hg].
  destruct more; [|done]. specialize (Hg eq_refl).
  destruct (bool_decide _).
  - apply finished_bind; [apply read_grid_finished|].
    intros [[[[n d] s] st2] line2] Hgrid%read_grid_length.
    apply finished_bind; [apply preserve_from_file_finished|].
    intros m' _. apply IH. lia.
  - apply finished_bind; [apply finished_assert|]. intros _ _. apply IH. lia.
Qed.
End StreamShrinks.

(** ** What the reader stores *)

Section Loaded.
Implicit Types (st : istream) (line word : list ascii) (m : table).

Lemma isBetterThan_trans a b c :
  isBetterThan a b = true -> isBetterThan b c = true -> isBetterThan a c = true.
Proof.
  rewrite !isBetterThan_better. unfold better.
  intros [?|(? & ? & ?)] [?|(? & ? & ?)]; try (left; lia); congruence.
Qed.

Lemma installed_flagged s cur :
  belongs_in_file s = BelongsInFile.Yes -> installed s cur = s.
Proof.
  intros Hs. unfold installed. destruct (BelongsInFile.eqb _ _); [|done].
  destruct s; simpl in *. by subst.
Qed.

Lemma preserve_from_file_flagged m n d s m' :
  belongs_in_file s = BelongsInFile.Yes ->
  preserve_from_file m n d s = Ok m' ->
  0 <= d <= n /\ m' = <[(n, d) := s]> m /\
  (forall cur, m !! (n, d) = Some cur ->
     isBetterThan s cur = true /\ guaranteed_best cur = GuaranteedBest.No).
Proof.
  intros Hs. unfold preserve_from_file.
  set (m1 := map_insert_new m (n, d) (worst_case_strategy n GuaranteedBest.No)).
  destruct (overwrite_if_better m1 n d s) as [[m2 b]| | |] eqn:Hrun; try done.
  simpl. destruct b; simpl; [|done]. intros [= <-].
  apply overwrite_if_better_inv in Hrun
    as (Hkey & [(? & _)|(_ & base & Hbase & Hb & Hg & ->)]); [done|].
  split; [done|]. rewrite installed_flagged by done. split.
  - unfold m1, map_insert_new. destruct (m !! (n, d)); [done|].
    by rewrite insert_insert_eq.
  - intros cur Hcur. unfold m1 in Hbase. rewrite map_insert_new_lookup, Hcur in Hbase.
    by injection Hbase as <-.
Qed.

Lemma preserve_from_file_fresh m n d s :
  0 <= d <= n -> m !! (n, d) = None ->
  belongs_in_file s = BelongsInFile.Yes ->
  isBetterThan s (worst_case_strategy n GuaranteedBest.No) = true ->
  preserve_from_file m n d s = Ok (<[(n, d) := s]> m).
Proof.
  intros Hkey Hm Hs Hb. unfold preserve_from_file, map_insert_new. rewrite Hm.
  unfold overwrite_if_better.
  destruct (key_asserts_pass n d Hkey) as [-> ->]. simpl.
  rewrite lookup_insert_eq, Hb. simpl.
  by rewrite installed_flagged, insert_insert_eq.
Qed.

Lemma scan_d_in_int (s : list ascii) v rest :
  scan_d s = Ok (v, rest) -> in_int v.
Proof.
  unfold scan_d. destruct (scan_sign (skip_ws s)) as [neg s1].
  destruct (starts_with_digit 10 s1); [|done].
  destruct (scan_digits 10 s1 0) as [v0 rest0].
  destruct (_ && _) eqn:Hr; [|done]. intros [= <- <-].
  apply andb_true_iff in Hr as [?%Z.leb_le ?%Z.ltb_lt]. done.
Qed.

Lemma bind_inv {A B : Type} (x : outcome A) (f : A -> outcome B) b :
  x ≫= f = Ok b -> exists a, x = Ok a /\ f a = Ok b.
Proof. destruct x; simpl; try done. eauto. Qed.

Lemma sscanf_header_in_int line n d tc gb :
  sscanf_header line = Ok (n, d, tc, gb) -> in_int n /\ in_int d /\ in_int tc.
Proof.
  unfold sscanf_header.
  intros (s1 & _ & ([n0 s2] & Hn & (s3 & _ & ([d0 s4] & Hd & (s5 & _ &
    ([tc0 s6] & Ht & (s7 & _ & ([gb0 s8] & _ & [= <- <- <- <-])
      %bind_inv)%bind_inv)%bind_inv)%bind_inv)%bind_inv)%bind_inv)%bind_inv)%bind_inv.
  repeat split; eapply scan_d_in_int; eassumption.
Qed.

Lemma push_bits_width (k : nat) tsts bits :
  well_formed k tsts -> well_formed (S k) (push_bits tsts bits).
Proof.
  unfold well_formed. intros Hwf. revert bits.
  induction Hwf as [|test tsts Htest Hwf IH]; intros bits; cbn [push_bits];
    constructor; [|apply IH].
  rewrite length_app. simpl. lia.
Qed.

Lemma read_columns_shape tc :
  forall (n : nat) st word tsts tsts' st' (k : nat),
    read_columns n tc st word tsts = Ok (tsts', st') ->
    well_formed k tsts ->
    length tsts' = length tsts /\ well_formed (k + n) tsts'.
Proof.
  induction n as [|n IH]; intros st word tsts tsts' st' k; cbn [read_columns].
  - intros [= <- <-] Hwf. by rewrite Nat.add_0_r.
  - destruct (read_column tc st word tsts) as [[[tsts1 st1] word1]| | |] eqn:Hc;
      simpl; try done.
    intros Hrest Hwf.
    assert (tsts1 = push_bits tsts (default 0 (match sscanf_llx (read_word st word).2
                                               with Ok b => Some b | _ => None end)))
      as Htsts1.
    { unfold read_column in Hc. destruct (read_word st word) as [st0 word0].
      simpl. destruct (sscanf_llx word0); simpl in *; try done.
      destruct (shl_1ull tc); simpl in *; try done.
      destruct (_ <? _); simpl in *; [|done]. by injection Hc as <- _ _. }
    destruct (IH _ _ _ _ _ (S k) Hrest) as [Hlen Hwf'].
    { rewrite Htsts1. by apply push_bits_width. }
    split; [by rewrite Hlen, Htsts1, push_bits_length|].
    by rewrite <- Nat.add_succ_comm.
Qed.

Lemma read_rows_shape n :
  forall (count : nat) st line rows st' line',
    read_rows count n st line = Ok (rows, st', line') ->
    length rows = count /\
    Forall (fun test : row => Z.of_nat (length test) = n mod 2 ^ 64) rows.
Proof.
  induction count as [|count IH]; intros st line rows st' line'; cbn [read_rows].
  - by intros [= <- <- <-].
  - destruct (getline st line) as [[more st1] line1].
    destruct (Z.eqb_spec (Z.of_nat (length line1)) (n mod 2 ^ 64)) as [Hl|];
      simpl; [|done].
    destruct (read_rows count n st1 line1) as [[[rest st2] line2]| | |] eqn:Hr;
      simpl; try done.
    apply IH in Hr as [Hlen Hall]. intros [= <- <- <-].
    split; [simpl; by rewrite Hlen | by constructor].
Qed.

(** What [read_grid] hands to [preserve_from_file]. *)
Lemma read_grid_shape line st n d s st' line' :
  read_grid line st = Ok (n, d, s, st', line') ->
  in_int n /\ belongs_in_file s = BelongsInFile.Yes /\
  t s = Z.of_nat (length (tests s)) /\
  (0 <= n -> well_formed (Z.to_nat n) (tests s)).
Proof.
  unfold read_grid.
  destruct (sscanf_header line) as [[[[n0 d0] tc] gb]| | |] eqn:Hh; simpl; try done.
  apply sscanf_header_in_int in Hh as (Hn & _ & _).
  destruct (peek st) as [nextch st1].
  destruct (Ascii.eqb nextch "e").
  - destruct (read_word st1 []) as [st2 word].
    destruct (bool_decide _); simpl; [|done].
    destruct (0 <=? tc); simpl; [|done].
    destruct (read_columns _ _ _ _ _) as [[tsts st3]| | |] eqn:Hc; simpl; try done.
    apply (read_columns_shape _ _ _ _ _ _ _ 0%nat) in Hc as [Hlen Hwf].
    + intros [= <- <- <- <- <-]. simpl in *. split_and!; done.
    + apply Forall_forall. by intros test [-> _]%elem_of_replicate.
  - destruct (read_rows _ _ _ _) as [[[tsts st3] line3]| | |] eqn:Hr; simpl; try done.
    apply read_rows_shape in Hr as [Hlen Hall].
    intros [= <- <- <- <- <-]. simpl. split_and!; try done.
    intros Hn0. eapply Forall_impl; [exact Hall|]. simpl. intros test Htest.
    rewrite Z.mod_small in Htest by (unfold in_int in Hn; lia). lia.
Qed.

Lemma loaded_refl m : loaded m m.
Proof. split; [done|]. intros k s' Hk. by left. Qed.

Lemma loaded_trans m1 m2 m3 : loaded m1 m2 -> loaded m2 m3 -> loaded m1 m3.
Proof.
  intros [Hdom12 H12] [Hdom23 H23]. split; [auto|].
  intros k s3 Hk3. destruct (H23 k s3 Hk3) as [Hk2|[Hfile Hold2]]; [auto|].
  right. split; [done|]. intros cur1 Hk1.
  destruct (Hdom12 k) as [s2 Hk2]; [eauto|].
  destruct (Hold2 s2 Hk2) as [Hb32 Hg2].
  destruct (H12 k s2 Hk2) as [Hsame|[_ Hold1]].
  - assert (cur1 = s2) as -> by congruence. done.
  - destruct (Hold1 cur1 Hk1) as [Hb21 Hg1]. split; [|done].
    by eapply isBetterThan_trans.
Qed.

Lemma preserve_from_file_loaded m n d s m' :
  in_int n -> belongs_in_file s = BelongsInFile.Yes ->
  t s = Z.of_nat (length (tests s)) ->
  (0 <= n -> well_formed (Z.to_nat n) (tests s)) ->
  preserve_from_file m n d s = Ok m' -> loaded m m'.
Proof.
  intros Hn Hs Ht Hwf (Hkey & -> & Hold)%preserve_from_file_flagged; [|done].
  split.
  - intros k Hk. destruct (decide ((n, d) = k)) as [<-|Hne].
    + rewrite lookup_insert_eq. eauto.
    + by rewrite lookup_insert_ne.
  - intros k s' Hk. destruct (decide ((n, d) = k)) as [<-|Hne].
    + rewrite lookup_insert_eq in Hk. injection Hk as <-. right.
      split; [|done]. unfold from_file, shaped. simpl. split_and!; try done; try lia.
      apply Hwf. lia.
    + rewrite lookup_insert_ne in Hk by done. by left.
Qed.

Lemma read_loop_loaded :
  forall (fuel : nat) st line seen m m',
    read_loop fuel st line seen m = Ok m' -> loaded m m'.
Proof.
  induction fuel as [|fuel IH]; intros st line seen m m'; cbn [read_loop]; [done|].
  destruct (getline st line) as [[more st1] line1].
  destruct more; [|intros [= <-]; apply loaded_refl].
  destruct (bool_decide _).
  - destruct (read_grid line1 st1) as [[[[[n d] s] st2] line2]| | |] eqn:Hgrid;
      simpl; try done.
    apply read_grid_shape in Hgrid as (Hn & Hs & Ht & Hwf).
    destruct (preserve_from_file m n d s) as [m1| | |] eqn:Hp; simpl; try done.
    intros Hrest%IH. eapply loaded_trans; [|exact Hrest].
    by eapply preserve_from_file_loaded.
  - destruct (negb _); simpl; [|done]. apply IH.
Qed.
End Loaded.

(** The reading loop always ends: [read_solutions_from_file] returns a
    table or stops on one of its assertions, an uncaught exception or
    an undefined read, whatever the file holds. *)
Theorem read_solutions_from_file_finished (file : list ascii) (m : table) :
  finished (read_solutions_from_file file m).
Proof.
  unfold read_solutions_from_file. apply read_loop_finished. simpl. lia.
Qed.

(** [read_solutions_from_file], when it returns: no key is lost; an
    entry is either the one that was there or one loaded from the file,
    and then its key satisfies 0 <= d <= n, its [t] is its number of
    rows, each row has [n] characters, it is flagged as belonging to
    the file, and it is better than the entry it replaced, which was
    not guaranteed best. *)
Theorem read_solutions_from_file_loaded (file : list ascii) (m m' : table) :
  read_solutions_from_file file m = Ok m' ->
  (forall k, is_Some (m !! k) -> is_Some (m' !! k)) /\
  (forall n d s', m' !! (n, d) = Some s' ->
     m !! (n, d) = Some s' \/
     (0 <= d <= n /\ in_int n /\
      t s' = Z.of_nat (length (tests s')) /\
      well_formed (Z.to_nat n) (tests s') /\
      belongs_in_file s' = BelongsInFile.Yes /\
      forall cur, m !! (n, d) = Some cur ->
        isBetterThan s' cur = true /\
        guaranteed_best cur = GuaranteedBest.No)) /\
  (all_shaped m -> all_shaped m').
Proof.
  intros [Hdom Hload]%read_loop_loaded. split; [done|]. split.
  - intros n d s' Hk. destruct (Hload _ _ Hk) as [?|[(? & ? & [? ?] & ?) ?]];
      [by left | right; simpl in *; tauto].
  - intros Hm k s' Hk. destruct (Hload _ _ Hk) as [?|[(_ & _ & ? & _) _]];
      [by eapply Hm | done].
Qed.

Lemma read_solutions_from_file_loaded_witness :
  let file := list_ascii_of_string
    "# store
N=4 D=1 T=2 guaranteed_best=1
emathgroup 0 1 2 3
" in
  exists m' : table,
    read_solutions_from_file file ∅ = Ok m' /\ all_shaped m' /\
    is_Some (m' !! (4, 1)).
Proof.
  intros file. eexists. split; [vm_compute; reflexivity|].
  match goal with |- all_shaped ?m1 /\ _ =>
    destruct (read_solutions_from_file_loaded file ∅ m1) as (_ & _ & Hshape) end.
  - vm_compute. reflexivity.
  - split; [apply Hshape; intros k s; by rewrite lookup_empty|].
    vm_compute. eauto.
Defined.

(** ** Reading back what was written *)

Section WriteRead.
Implicit Types (st : istream) (line l X : list ascii) (m : table)
  (kvs : list (ND * Strategy)).

Lemma read_solutions_from_file_rest (file : list ascii) m :
  read_solutions_from_file file m = read_rest (mkStream file true) [] false m.
Proof. reflexivity. Qed.

Lemma getline_line st line line' st' l :
  getline st line = (true, st', l) -> getline st line' = (true, st', l).
Proof.
  unfold getline. destruct (good st); [|done].
  destruct (buf st); [done|]. by destruct (split_line _) as [? [?|]].
Qed.

Lemma read_loop_line (fuel : nat) st line line' seen m :
  read_loop fuel st line seen m = read_loop fuel st line' seen m.
Proof.
  destruct fuel as [|fuel]; [done|]. cbn [read_loop].
  destruct (getline st line) as [[[] st1] line1] eqn:Hg.
  - by rewrite (getline_line _ _ line' _ _ Hg).
  - revert Hg. unfold getline. destruct (good st); [|by intros [= <- <-]].
    destruct (buf st); [by intros [= <- <-]|]. by destruct (split_line _) as [? [?|]].
Qed.

Lemma read_rest_step st line line' seen m (fuel : nat) :
  (length (buf st) < fuel)%nat ->
  read_rest st line' seen m = read_loop fuel st line seen m.
Proof.
  intros Hf. unfold read_rest. rewrite (read_loop_line _ _ line' line).
  apply read_loop_fuel; lia.
Qed.

Lemma read_rest_skip seen l X line line' m :
  skipped seen l ->
  read_rest (mkStream (l ++ newline :: X) true) line seen m
  = read_rest (mkStream X true) line' seen m.
Proof.
  intros (Hnl & Hhead & Hseen). unfold read_rest at 1. cbn [buf read_loop].
  rewrite getline_app by done.
  rewrite bool_decide_eq_false_2 by done.
  assert (negb (seen && negb (bool_decide (l = []))) = true) as ->.
  { destruct Hseen as [->| ->]; [done|]. rewrite bool_decide_eq_true_2 by done.
    by destruct seen. }
  cbn [assert]. rewrite bind_Ok. symmetry.
  apply read_rest_step. cbn [buf]. rewrite length_app. simpl. lia.
Qed.

Lemma read_rest_skip_lines seen X m :
  forall (ls : list (list ascii)) line line',
    Forall (skipped seen) ls ->
    read_rest (mkStream (concat (map (fun l => l ++ [newline]) ls) ++ X) true)
              line seen m
    = read_rest (mkStream X true) line' seen m.
Proof.
  induction ls as [|l ls IH]; intros line line' Hls; cbn [map concat].
  - unfold read_rest. apply read_loop_line.
  - apply Forall_cons in Hls as [Hl Hls].
    rewrite <- !app_assoc. cbn [app]. rewrite (read_rest_skip _ _ _ _ line') by done.
    by apply IH.
Qed.

Lemma as_read_flagged s :
  belongs_in_file s = BelongsInFile.Yes -> as_read s = s.
Proof. intros Hs. unfold as_read. destruct s; simpl in *. by subst. Qed.

Lemma storable_in_int n d s :
  storable (n, d) s ->
  in_int n /\ 0 <= n /\ in_int d /\ t s = Z.of_nat (length (tests s)) /\
  in_int (t s) /\ well_formed (Z.to_nat n) (tests s) /\ two_symbols (tests s).
Proof.
  intros (Hn & Hd & [Ht Hwf] & Hsym & _ & Hb%isBetterThan_le). simpl in *.
  unfold in_int in *. split_and!; try done; lia.
Qed.

Lemma empty_line_skipped : skipped true [].
Proof. split; [apply not_elem_of_nil|]. split; [done | by right]. Qed.

Lemma header_line_head n d s :
  take 2 (header_line n d s) = list_ascii_of_string "N=".
Proof. done. Qed.

(** One record, written and read back. *)
Lemma read_rest_record n d s m :
  storable (n, d) s -> belongs_in_file s = BelongsInFile.Yes ->
  m !! (n, d) = None ->
  exists text,
    write_record n d s = Ok text /\
    forall X line seen,
      read_rest (mkStream (text ++ X) true) line seen m
      = read_rest (mkStream X true) [] true (<[(n, d) := s]> m).
Proof.
  intros Hst Hs Hm.
  destruct (storable_in_int _ _ _ Hst) as (Hn & Hn0 & Hd & Ht & Hti & Hwf & Hsym).
  destruct Hst as (_ & Hkey & _ & _ & Hsel & Hbetter). simpl in Hkey, Hsel, Hbetter.
  assert (Hstore : preserve_from_file m n d (as_read s) = Ok (<[(n, d) := s]> m)).
  { rewrite as_read_flagged by done. by apply preserve_from_file_fresh. }
  assert (Hloop : forall text st1 st2 line2 X,
    getline (mkStream (text ++ X) true) [] = (true, st1, header_line n d s) ->
    read_grid (header_line n d s) st1 = Ok (n, d, as_read s, st2, line2) ->
    forall line seen (fuel : nat),
      read_rest (mkStream (text ++ X) true) line seen m
      = read_loop (length (text ++ X)) st2 line2 true (<[(n, d) := s]> m)).
  { intros text st1 st2 line2 X Hline Hgrid line seen fuel.
    unfold read_rest. cbn [buf read_loop].
    rewrite (getline_line _ _ line _ _ Hline), header_line_head.
    rewrite bool_decide_eq_true_2 by done.
    by rewrite Hgrid, bind_Ok, Hstore, bind_Ok. }
  unfold write_record. destruct (Z.gtb_spec n 150) as [Hbig|Hsmall].
  - assert (t s <= 63) as H63 by (destruct Hsel; [lia | done]).
    destruct (read_grid_to_emathgroup_string n d s [] Hn Hd Ht Hti Hwf Hsym H63)
      as (words & Htext & _). rewrite Htext, bind_Ok.
    eexists. split; [done|]. intros X line seen.
    destruct (read_grid_to_emathgroup_string n d s (newline :: X)
                Hn Hd Ht Hti Hwf Hsym H63) as (words' & Htext' & Hline & Hgrid).
    assert (words' = words) as ->.
    { rewrite Htext in Htext'. injection Htext' as Hw.
      apply app_inv_head in Hw. injection Hw as Hw.
      by apply app_inv_tail in Hw. }
    rewrite <- (app_assoc _ [newline] X). cbn [app].
    rewrite (Hloop _ _ _ _ _ Hline Hgrid line seen 0%nat).
    rewrite <- (read_rest_step _ _ []).
    + rewrite (read_rest_skip true [] (newline :: X) _ []) by apply empty_line_skipped.
      by rewrite (read_rest_skip true [] X _ []) by apply empty_line_skipped.
    + cbn [buf]. rewrite !length_app. simpl. lia.
  - rewrite bind_Ok. eexists. split; [done|]. intros X line seen.
    destruct (read_grid_to_string n d s X Hn Hn0 Hd Ht Hti Hwf Hsym)
      as (Hline & line' & Hgrid).
    rewrite <- (app_assoc _ [newline] X). cbn [app].
    rewrite (Hloop _ _ _ _ _ Hline Hgrid line seen 0%nat).
    rewrite <- (read_rest_step _ _ []).
    + by rewrite (read_rest_skip true [] X _ []) by apply empty_line_skipped.
    + cbn [buf]. unfold to_string, header. rewrite !length_app. simpl. lia.
Qed.
End WriteRead.

Section WriteReadAll.
Implicit Types (st : istream) (line l X : list ascii) (m : table)
  (kvs : list (ND * Strategy)).

Lemma flagged_iff k s :
  flagged (k, s) <-> belongs_in_file s = BelongsInFile.Yes.
Proof. unfold flagged. simpl. by destruct (belongs_in_file s). Qed.

Lemma store_flagged_cons m k s kvs :
  store_flagged m ((k, s) :: kvs)
  = store_flagged (if BelongsInFile.eqb (belongs_in_file s) BelongsInFile.Yes
                   then <[k := s]> m else m) kvs.
Proof. done. Qed.

Lemma NoDup_keys_fresh k s kvs k' s' :
  NoDup ((k, s) :: kvs).*1 -> (k', s') ∈ kvs -> k <> k'.
Proof.
  intros Hnd Hin ->. apply NoDup_cons in Hnd as [Hnotin _]. apply Hnotin.
  apply list_elem_of_fmap. by exists (k', s').
Qed.

(** The records of a list of entries with different keys, none of them
    in the table yet, are read back one after the other. *)
Lemma read_rest_records :
  forall kvs m,
    NoDup kvs.*1 ->
    (forall k s, (k, s) ∈ kvs -> flagged (k, s) -> storable k s) ->
    (forall k s, (k, s) ∈ kvs -> m !! k = None) ->
    exists text,
      write_records kvs = Ok text /\
      forall X line seen, exists line' seen',
        read_rest (mkStream (text ++ X) true) line seen m
        = read_rest (mkStream X true) line' seen' (store_flagged m kvs).
Proof.
  induction kvs as [|[[n d] s] kvs IH]; intros m Hnd Hst Hfresh.
  - exists []. split; [done|]. intros X line seen. by exists line, seen.
  - cbn [write_records]. rewrite store_flagged_cons.
    assert (Hnd' : NoDup kvs.*1) by (by apply NoDup_cons in Hnd as [_ ?]).
    destruct (BelongsInFile.eqb (belongs_in_file s) BelongsInFile.Yes) eqn:Hs.
    + destruct (read_rest_record n d s m) as (text1 & -> & Hread1).
      { apply Hst; [by left | done]. }
      { by apply (flagged_iff (n, d)). }
      { apply (Hfresh _ s). by left. }
      destruct (IH (<[(n, d) := s]> m)) as (text2 & -> & Hread2); [done| | |].
      { intros k' s' Hin. apply Hst. by right. }
      { intros k' s' Hin. rewrite lookup_insert_ne.
        - apply (Hfresh _ s'). by right.
        - by eapply NoDup_keys_fresh. }
      rewrite !bind_Ok. eexists. split; [done|]. intros X line seen.
      rewrite <- app_assoc, Hread1. apply Hread2.
    + destruct (IH m) as (text2 & -> & Hread2); [done| | |].
      { intros k' s' Hin. apply Hst. by right. }
      { intros k' s' Hin. apply (Hfresh _ s'). by right. }
      eauto.
Qed.

Lemma store_flagged_lookup :
  forall kvs m k s,
    NoDup kvs.*1 ->
    (forall k' s', (k', s') ∈ kvs -> m !! k' = None) ->
    store_flagged m kvs !! k = Some s
    <-> m !! k = Some s \/ ((k, s) ∈ kvs /\ flagged (k, s)).
Proof.
  induction kvs as [|[k0 s0] kvs IH]; intros m k s Hnd Hfresh.
  - simpl. split; [by left|]. intros [?|[Hin _]]; [done|]. by apply elem_of_nil in Hin.
  - rewrite store_flagged_cons.
    assert (Hnd' : NoDup kvs.*1) by (by apply NoDup_cons in Hnd as [_ ?]).
    assert (Hk0 : m !! k0 = None) by (apply (Hfresh _ s0); by left).
    destruct (BelongsInFile.eqb (belongs_in_file s0) BelongsInFile.Yes) eqn:Hs0.
    + rewrite IH; [|done|].
      * rewrite elem_of_cons, lookup_insert_Some. split.
        -- intros [[[<- <-]|[Hne Hm]]|[Hin Hf]]; [right|by left|right]; by auto.
        -- intros [Hm|[[[= -> ->]|Hin] Hf]].
           ++ left. right. split; [congruence | done].
           ++ by left; left.
           ++ by right.
      * intros k' s' Hin. rewrite lookup_insert_ne.
        -- apply (Hfresh _ s'). by right.
        -- by eapply NoDup_keys_fresh.
    + rewrite IH; [|done|].
      * rewrite elem_of_cons. split.
        -- intros [Hm|[Hin Hf]]; [by left | right; by auto].
        -- intros [Hm|[[[= -> ->]|Hin] Hf]]; [by left| |by right].
           unfold flagged in Hf. simpl in Hf. congruence.
      * intros k' s' Hin. apply (Hfresh _ s'). by right.
Qed.

Lemma entries_elem_of m k s : (k, s) ∈ entries m <-> m !! k = Some s.
Proof.
  unfold entries. rewrite merge_sort_Permutation. apply elem_of_map_to_list.
Qed.

Lemma entries_NoDup m : NoDup (entries m).*1.
Proof.
  unfold entries. rewrite merge_sort_Permutation. apply NoDup_fst_map_to_list.
Qed.

Lemma store_flagged_entries m : store_flagged ∅ (entries m) = file_part m.
Proof.
  apply map_eq. intros k. apply option_eq. intros s.
  rewrite store_flagged_lookup; [|apply entries_NoDup|intros; apply lookup_empty].
  unfold file_part. rewrite map_lookup_filter_Some, lookup_empty, entries_elem_of.
  split; [intros [?|?]; done | by right].
Qed.

(** No character that [operator<<] writes for an integer is a newline. *)
Lemma digit_char_plain v : 0 <= v < 10 -> digit_char v <> newline.
Proof.
  intros Hv. unfold digit_char. destruct (Z.ltb_spec v 10); [|lia].
  intros Heq. apply (f_equal nat_of_ascii) in Heq.
  rewrite nat_ascii_embedding in Heq by lia.
  change (nat_of_ascii newline) with 10%nat in Heq. lia.
Qed.

Lemma digits_loop_plain (fuel : nat) :
  forall v acc, newline ∉ acc -> newline ∉ digits_loop 10 fuel v acc.
Proof.
  induction fuel as [|fuel IH]; intros v acc Hacc; cbn [digits_loop]; [done|].
  assert (newline ∉ digit_char (v mod 10) :: acc) as Hacc'.
  { apply not_elem_of_cons. split; [|done].
    intros Heq. symmetry in Heq. revert Heq. apply digit_char_plain.
    apply Z.mod_pos_bound. lia. }
  destruct (v <? 10); [done | by apply IH].
Qed.

Lemma print_int_plain v : newline ∉ print_int v.
Proof.
  unfold print_int. destruct (v <? 0).
  - apply not_elem_of_cons. split; [done|].
    apply digits_loop_plain, not_elem_of_nil.
  - apply digits_loop_plain, not_elem_of_nil.
Qed.

Lemma setw_right_plain (w : nat) l : newline ∉ l -> newline ∉ setw_right w l.
Proof.
  intros Hl. unfold setw_right. rewrite elem_of_app.
  intros [Hin%elem_of_replicate_inv|Hin]; done.
Qed.

Lemma setw_left_plain (w : nat) l : newline ∉ l -> newline ∉ setw_left w l.
Proof.
  intros Hl. unfold setw_left. rewrite elem_of_app.
  intros [Hin|Hin%elem_of_replicate_inv]; done.
Qed.

Lemma triangle_cells_plain m n :
  forall ds, newline ∉ triangle_cells m n ds.
Proof.
  induction ds as [|d ds IH]; cbn [triangle_cells]; [apply not_elem_of_nil|].
  destruct (m !! (n, d)) as [s|].
  - cbn zeta. apply not_elem_of_cons. split; [done|].
    rewrite elem_of_app. intros [Hin|Hin].
    + revert Hin. apply setw_right_plain, print_int_plain.
    + destruct (_ =? _); [by apply elem_of_nil in Hin | done].
  - rewrite elem_of_app. intros [Hin|Hin]; [|done].
    revert Hin. apply setw_right_plain.
    apply not_elem_of_cons. split; [done | apply not_elem_of_nil].
Qed.

Lemma triangle_line_skipped m n : skipped false (triangle_line m n).
Proof.
  split; [|split; [done | by left]].
  unfold triangle_line. rewrite !elem_of_app.
  intros [Hin|[Hin|[Hin|Hin]]].
  - revert Hin. by apply no_newline_check.
  - revert Hin. apply setw_left_plain, print_int_plain.
  - revert Hin. by apply no_newline_check.
  - revert Hin. apply triangle_cells_plain.
Qed.

Lemma triangle_row_line m n : triangle_row m n = triangle_line m n ++ [newline].
Proof. unfold triangle_row, triangle_line. by rewrite <- !app_assoc. Qed.

Lemma triangle_lines m :
  exists ls : list (list ascii),
    triangle m = concat (map (fun l => l ++ [newline]) ls) /\
    Forall (skipped false) ls.
Proof.
  exists (triangle_head_lines ++ map (triangle_line m) (seqZ 4 27) ++ [[]; []]).
  split.
  - unfold triangle, triangle_head. rewrite !map_app, !concat_app.
    rewrite map_map, (map_ext _ _ (triangle_row_line m)). reflexivity.
  - apply Forall_app. split; [|apply Forall_app; split].
    + unfold triangle_head_lines. simpl.
      repeat constructor; (by apply no_newline_check) || done.
    + apply Forall_forall. intros l (n & -> & _)%list_elem_of_fmap.
      apply triangle_line_skipped.
    + repeat constructor; (apply not_elem_of_nil) || done.
Qed.
End WriteReadAll.

(** The file [write_solutions_to_file] writes is one that
    [read_solutions_from_file] accepts, and reading it into an empty
    table gives back exactly the entries flagged as belonging to the
    file, provided each of them is storable: a key with 0 <= d <= n,
    [t] rows of [n] characters '1' and '.', at most 63 tests when
    n > 150, and better than the worst case.  The triangle at the top
    of the file is passed over whatever the table holds. *)
Theorem write_solutions_to_file_read_back (m : table) :
  (forall k s, m !! k = Some s -> belongs_in_file s = BelongsInFile.Yes ->
               storable k s) ->
  exists text,
    write_solutions_to_file m = Ok text /\
    read_solutions_from_file text ∅ = Ok (file_part m).
Proof.
  intros Hst.
  destruct (read_rest_records (entries m) ∅) as (records & Hrecords & Hread).
  - apply entries_NoDup.
  - intros k s Hin%entries_elem_of Hs%flagged_iff. by apply Hst.
  - intros. apply lookup_empty.
  - unfold write_solutions_to_file. rewrite Hrecords, bind_Ok.
    eexists. split; [done|].
    destruct (triangle_lines m) as (ls & -> & Hls).
    rewrite read_solutions_from_file_rest.
    rewrite (read_rest_skip_lines _ _ _ _ _ [] Hls).
    destruct (Hread [] [] false) as (line' & seen' & Hrest).
    rewrite <- (app_nil_r records), Hrest, store_flagged_entries.
    unfold read_rest. cbn [buf length read_loop]. done.
Qed.

Lemma write_solutions_to_file_read_back_witness :
  let s := Strategy_of_vec
             (rows_of ["111......"; "...111..."; "......111";
                       "1..1..1.."; ".1..1..1."; "..1..1..1"]%string)
             GuaranteedBest.No BelongsInFile.Yes in
  let m : table := {[ (9, 2) := s ]} in
  exists text,
    write_solutions_to_file m = Ok text /\
    read_solutions_from_file text ∅ = Ok (file_part m).
Proof.
  intros s m. apply (write_solutions_to_file_read_back m).
  intros k s' [<- <-]%lookup_singleton_Some _.
  split; [unfold in_int; simpl; lia|].
  split; [simpl; lia|]. split; [split; [reflexivity | repeat constructor]|].
  split; [|split; [left; simpl; lia | reflexivity]].
  repeat (constructor; [repeat (constructor; [by (left + right)|]); constructor|]).
  constructor.
Defined.

(** ** The run of [main] *)

Section Main.
Variable order : eval_order.
Implicit Types (m all : table) (kvs : list (ND * Strategy)).








Lemma add_easy_solutions_seed max_n all :
  add_easy_solutions ∅ max_n = Ok all ->
  all_fit order all /\
  forall n d, 0 <= d <= n -> n <= max_n ->
    exists s, all !! (n, d) = Some s /\ easy_strategy n d = Ok s.
Proof.
  unfold add_easy_solutions. intros (_ & Hnew & Hall)%add_easy_rows_inv.
  split.
  - intros [n d] s Hs. destruct (Hnew _ _ (lookup_empty _) Hs) as (_ & Hd & Heasy).
    apply shaped_fits. by apply easy_strategy_shaped.
  - intros n d Hd Hn. destruct (Hall n d) as [s Hs]; [apply elem_of_seqZ; lia|done|].
    exists s. split; [done|].
    by destruct (Hnew _ _ (lookup_empty _) Hs) as (_ & _ & Heasy).
Qed.


End Main.



Section EmptyStore.
Variable order : eval_order.
Implicit Types (m all : table) (kvs : list (ND * Strategy)).

Lemma write_records_unflagged kvs :
  Forall (fun kv => belongs_in_file kv.2 = BelongsInFile.No) kvs ->
  write_records kvs = Ok [].
Proof.
  induction 1 as [|[[n d] s] kvs Hs _ IH]; [done|].
  cbn [write_records]. simpl in Hs. by rewrite Hs.
Qed.

Lemma add_easy_solutions_total max_n :
  max_n <= 2 ^ 30 ->
  exists seed,
    add_easy_solutions ∅ max_n = Ok seed /\
    (forall k s, seed !! k = Some s ->
       easy_strategy k.1 k.2 = Ok s /\ belongs_in_file s = BelongsInFile.No) /\
    (forall n d, 0 <= d <= n -> n <= max_n -> is_Some (seed !! (n, d))).
Proof.
  intros Hmax. unfold add_easy_solutions.
  destruct (add_easy_rows_spec (seqZ 0 (max_n + 1)) ∅) as (seed & Hseed & _).
  { intros n Hn%elem_of_seqZ. lia. }
  exists seed. split; [done|].
  apply add_easy_rows_inv in Hseed as (_ & Hnew & Hall). split.
  - intros [n d] s Hs. destruct (Hnew _ _ (lookup_empty _) Hs) as (_ & Hd & Heasy).
    split; [done|]. by eapply easy_strategy_shaped.
  - intros n d Hd Hn. apply Hall; [apply elem_of_seqZ; lia | done].
Qed.

Lemma main_solutions_empty_store fuel file n :
  read_solutions_from_file file ∅ = Ok ∅ -> 0 <= n + 100 <= 2 ^ 30 ->
  exists seed,
    add_easy_solutions ∅ (n + 100) = Ok seed /\
    main_solutions order fuel file n = Ok seed /\
    write_solutions_to_file seed = Ok (triangle seed).
Proof.
  intros Hfile Hn.
  destruct (add_easy_solutions_total (n + 100)) as (seed & Hseed & Hbase & _); [lia|].
  exists seed. split; [done|]. split.
  - unfold main_solutions. rewrite Hfile, bind_Ok.
    destruct (Z.ltb_spec (n + 100) (2 ^ 31)); [|lia].
    by rewrite bind_Ok, Hseed, bind_Ok.
  - unfold write_solutions_to_file. rewrite write_records_unflagged.
    + by rewrite bind_Ok, app_nil_r.
    + apply Forall_forall. intros [k s] Hin%entries_elem_of.
      by destruct (Hbase _ _ Hin).
Qed.
End EmptyStore.

(** With a store that holds no record (an empty file, or comment lines
    only), [main] ends for every 0 <= d <= n with n + 100 <= 2^30, in
    either order of evaluation: it writes a file that consists of the
    triangle alone and prints the closed-form base case of (n, d). *)
Theorem main_run_empty_store
    (order : eval_order) (fuel : nat) (file : list ascii) (n d : Z) :
  read_solutions_from_file file ∅ = Ok ∅ ->
  0 <= d <= n -> n + 100 <= 2 ^ 30 ->
  exists all s,
    main_solutions order fuel file n = Ok all /\
    main_run order fuel file n d = Ok (triangle all, Some s) /\
    easy_strategy n d = Ok s /\
    read_solutions_from_file (triangle all) ∅ = Ok ∅.
Proof.
  intros Hfile Hd Hn.
  destruct (main_solutions_empty_store order fuel file n Hfile)
    as (seed & Hseed & Hmain & Hwrite); [lia|].
  apply (add_easy_solutions_seed order) in Hseed as [_ Hseed].
  destruct (Hseed n d) as (s & Hs & Heasy); [done | lia |].
  exists seed, s. split; [done|]. split; [|split; [done|]].
  - unfold main_run. by rewrite Hmain, bind_Ok, Hwrite, bind_Ok, Hs.
  - destruct (triangle_lines seed) as (ls & Hls & Hskip).
    rewrite read_solutions_from_file_rest, Hls.
    rewrite <- (app_nil_r (concat _)).
    by rewrite (read_rest_skip_lines _ _ _ _ _ [] Hskip).
Qed.

Lemma main_run_empty_store_witness :
  exists all s,
    main_run CaptureFirst 0 (list_ascii_of_string "# no solutions yet") 5 1
    = Ok (triangle all, Some s) /\
    easy_strategy 5 1 = Ok s.
Proof.
  destruct (main_run_empty_store CaptureFirst 0
              (list_ascii_of_string "# no solutions yet") 5 1)
    as (all & s & _ & Hrun & Heasy & _).
  - vm_compute. reflexivity.
  - lia.
  - lia.
  - exists all, s. split; [exact Hrun | exact Heasy].
Defined.

(** A store with one record, for six animals and two wolves in four
    tests, and what [main] makes of it in the two orders. *)
Example main_run_example :
  let file := list_ascii_of_string "N=6 D=2 T=4 guaranteed_best=0
11.1..
1.1.1.
.11..1
...111
" in
  match main_run SizeFirst 110 file 6 2 with
  | Ok (_, Some s) => t s = 4 /\ length (tests s) = 4%nat
  | _ => False
  end /\
  main_run CaptureFirst 110 file 6 2 = AssertFail A_guaranteed_best.
Proof. split; [vm_compute; split; reflexivity | vm_compute; reflexivity]. Qed.



(** ** Numbers in the store *)

Lemma digits_loop_length base (fuel : nat) :
  forall v acc, (length (digits_loop base fuel v acc) <= fuel + length acc)%nat.
Proof.
  induction fuel as [|fuel IH]; intros v acc; cbn [digits_loop]; [lia|].
  destruct (v <? base); [simpl; lia|].
  etrans; [apply IH|]. simpl. lia.
Qed.

(** [to_hex] writes a 64-bit value as one to sixteen hexadecimal
    digits, without white space or sign, and [sscanf("%llx")] reads the
    same value back from them; so different values are written
    differently. *)
Theorem to_hex_read_back (v : Z) :
  0 <= v < 2 ^ 64 ->
  sscanf_llx (to_hex v) = Ok v /\
  (1 <= length (to_hex v) <= 16)%nat /\
  all_digits 16 (to_hex v) /\
  Forall (fun c => is_space c = false) (to_hex v) /\
  forall v', 0 <= v' < 2 ^ 64 -> to_hex v' = to_hex v -> v' = v.
Proof.
  intros Hv.
  destruct (to_hex_digits v) as [Hdigits Hne]; [lia|].
  assert (Hread : forall u, 0 <= u < 2 ^ 64 -> sscanf_llx (to_hex u) = Ok u).
  { intros u Hu. destruct (to_hex_digits u) as [Hd Hn]; [lia|].
    rewrite sscanf_llx_digits, digits_value_to_hex by done.
    destruct (Z.leb_spec (2 ^ 64) u); [lia | done]. }
  split; [by apply Hread|]. split; [|split; [done|split]].
  - split.
    + destruct (to_hex v); [done | simpl; lia].
    + unfold to_hex. etrans; [apply digits_loop_length|]. simpl. lia.
  - by apply all_digits_no_space.
  - intros v' Hv' Heq. pose proof (Hread v' Hv') as Hr'.
    rewrite Heq, Hread in Hr' by done. by injection Hr'.
Qed.

Lemma to_hex_read_back_witness :
  sscanf_llx (to_hex 48879) = Ok 48879 /\
  to_hex 48879 = list_ascii_of_string "beef".
Proof.
  split; [|reflexivity].
  exact (proj1 (to_hex_read_back 48879 ltac:(lia))).
Defined.

(** ** Stores that are not well formed *)

Section Malformed.
Implicit Types (st : istream) (line l X : list ascii) (m : table).

Lemma read_rows_failed n st :
  good st = false ->
  forall (count : nat) line,
    read_rows count n st line
    = if bool_decide (count = 0%nat) || (Z.of_nat (length line) =? n mod 2 ^ 64)
      then Ok (replicate count line, st, line)
      else AssertFail A_row_length.
Proof.
  intros Hst. induction count as [|count IH]; intros line.
  { rewrite bool_decide_eq_true_2 by done. done. }
  cbn [read_rows]. unfold getline. rewrite Hst.
  rewrite bool_decide_eq_false_2 by done. cbn [orb].
  destruct (_ =? _) eqn:Hlen; [|done]. cbn [assert]. rewrite bind_Ok, IH, Hlen.
  rewrite orb_true_r. by rewrite bind_Ok.
Qed.

End Malformed.



(** A header on the last line of the file, with no row after it: the
    read of the next character fails, every [getline] of the row loop
    then fails too and leaves [line] as it was, so each of the [t] rows
    is the header line itself.  The record is refused on the row-length
    assertion unless the header line happens to be [n] characters long;
    then it is accepted, with [t] copies of the header as its tests. *)
Theorem header_at_end_of_file (line : list ascii) (n d tc gb : Z) :
  sscanf_header line = Ok (n, d, tc, gb) -> 1 <= tc ->
  read_grid line (mkStream [] true)
  = if Z.of_nat (length line) =? n mod 2 ^ 64
    then Ok (n, d,
             Strategy_of_vec (replicate (Z.to_nat tc) line)
               (if gb =? 0 then GuaranteedBest.No else GuaranteedBest.Yes)
               BelongsInFile.Yes,
             mkStream [] false, line)
    else AssertFail A_row_length.
Proof.
  intros Hhdr Htc. unfold read_grid. rewrite Hhdr, bind_Ok.
  unfold peek. cbn [good buf].
  change (Ascii.eqb "255" "e") with false. cbv iota.
  rewrite read_rows_failed by done.
  rewrite bool_decide_eq_false_2 by lia. cbn [orb].
  destruct (Z.of_nat (length line) =? n mod 2 ^ 64); [by rewrite bind_Ok | done].
Qed.

Lemma header_at_end_of_file_witness :
  let line := list_ascii_of_string "N=30 D=2 T=5 guaranteed_best=0" in
  read_grid line (mkStream [] true)
  = Ok (30, 2,
        Strategy_of_vec (replicate 5 line) GuaranteedBest.No BelongsInFile.Yes,
        mkStream [] false, line) /\
  read_solutions_from_file (line ++ [newline]) ∅
  = Ok {[ (30, 2) := Strategy_of_vec (replicate 5 line)
                       GuaranteedBest.No BelongsInFile.Yes ]}.
Proof.
  intros line. split; [|vm_compute; reflexivity].
  rewrite (header_at_end_of_file line 30 2 5 0); [reflexivity | reflexivity | lia].
Defined.

Section CutShort.
Variable tc : Z.
Hypothesis tc_range : 0 <= tc <= 63.
Implicit Types (st : istream) (word : list ascii) (tsts : list row).

Lemma read_column_stale st word tsts v :
  read_word st word = (st, word) ->
  sscanf_llx word = Ok v -> v < 2 ^ tc ->
  read_column tc st word tsts = Ok (push_bits tsts v, st, word).
Proof.
  intros Hw Hv Hlt. unfold read_column. rewrite Hw, Hv, bind_Ok.
  unfold shl_1ull. destruct (Z.leb_spec 0 tc); [|lia].
  destruct (Z.ltb_spec tc 64); [|lia]. cbn [andb]. rewrite bind_Ok.
  destruct (Z.ltb_spec v (2 ^ tc)); [|lia]. done.
Qed.

Lemma read_columns_failed st word v :
  good st = false -> sscanf_llx word = Ok v -> v < 2 ^ tc ->
  forall (j : nat) tsts,
    read_columns j tc st word tsts
    = Ok (fold_left push_bits (replicate j v) tsts, st).
Proof.
  intros Hst Hv Hlt. induction j as [|j IH]; intros tsts; [done|].
  cbn [read_columns replicate fold_left].
  rewrite (read_column_stale _ _ _ v), bind_Ok; [apply IH| |done..].
  unfold read_word. by rewrite Hst.
Qed.

Lemma skip_ws_blank (X : list ascii) :
  Forall (fun c => is_space c = true) X -> skip_ws X = [].
Proof. induction 1 as [|c X Hc _ IH]; [done|]. cbn [skip_ws]. by rewrite Hc. Qed.

Lemma read_columns_blank (X : list ascii) word v :
  Forall (fun c => is_space c = true) X ->
  sscanf_llx word = Ok v -> v < 2 ^ tc ->
  forall (j : nat) tsts,
    (1 <= j)%nat ->
    read_columns j tc (mkStream X true) word tsts
    = Ok (fold_left push_bits (replicate j v) tsts, mkStream [] false).
Proof.
  intros HX Hv Hlt [|j] tsts Hj; [lia|].
  cbn [read_columns replicate fold_left].
  assert (read_word (mkStream X true) word = (mkStream [] false, word)) as Hw.
  { unfold read_word. cbn [good buf]. by rewrite skip_ws_blank. }
  unfold read_column. rewrite Hw, Hv, bind_Ok.
  unfold shl_1ull. destruct (Z.leb_spec 0 tc); [|lia].
  destruct (Z.ltb_spec tc 64); [|lia]. cbn [andb]. rewrite bind_Ok.
  destruct (Z.ltb_spec v (2 ^ tc)); [|lia].
  cbn [assert]. rewrite !bind_Ok.
  by apply read_columns_failed.
Qed.

Lemma stale_word_cons word0 (w : list ascii) ws :
  stale_word word0 (w :: ws) = stale_word w ws.
Proof. unfold stale_word. rewrite last_cons. by destruct (last ws). Qed.

Lemma read_columns_then (X : list ascii) :
  starts_with_space X = true ->
  forall (ws : list (list ascii)) seps word0 tsts (j : nat),
    length seps = length ws -> Forall (fun c => is_space c = true) seps ->
    Forall (fun w => all_digits 16 w /\ w <> []) ws ->
    Forall (fun w => digits_value 16 w < 2 ^ tc) ws ->
    read_columns (length ws + j) tc
      (mkStream (spaced_words seps ws ++ X) true) word0 tsts
    = read_columns j tc (mkStream X true) (stale_word word0 ws)
        (fold_left push_bits (map (digits_value 16) ws) tsts).
Proof.
  intros HX. induction ws as [|w ws IH]; intros seps word0 tsts j Hlen Hseps Hws Hok.
  - by destruct seps.
  - destruct seps as [|sep seps]; [done|]. injection Hlen as Hlen.
    apply Forall_cons in Hseps as [Hsep Hseps].
    apply Forall_cons in Hws as [[Hw Hne] Hws].
    apply Forall_cons in Hok as [Hv Hok].
    cbn [spaced_words length Nat.add read_columns map fold_left].
    rewrite <- app_comm_cons, <- app_assoc.
    rewrite (read_column_digits tc tc_range);
      [|done|done|done|by apply starts_with_space_spaced].
    destruct (Z.ltb_spec (digits_value 16 w) (2 ^ tc)); [|lia].
    rewrite bind_Ok, stale_word_cons. by apply IH.
Qed.
End CutShort.

Lemma sscanf_header_head (line : list ascii) hdr :
  sscanf_header line = Ok hdr -> take 2 line = list_ascii_of_string "N=".
Proof.
  unfold sscanf_header. intros (rest & Hlit & _)%bind_inv.
  destruct line as [|a [|b line]]; cbn [scan_lit list_ascii_of_string] in Hlit;
    try done.
  - by destruct (Ascii.eqb _ a).
  - destruct (Ascii.eqb_spec "N"%char a) as [<-|]; [|done].
    destruct (Ascii.eqb_spec "="%char b) as [<-|]; [|done]. done.
Qed.

(** The reading of a packed record that is cut short, up to the
    construction of the strategy. *)
Lemma read_grid_cut_short
    (line : list ascii) (n d tc gb : Z)
    (ws : list (list ascii)) (seps X : list ascii) :
  sscanf_header line = Ok (n, d, tc, gb) ->
  0 <= tc <= 63 ->
  (length ws < Z.to_nat n)%nat -> length seps = length ws ->
  Forall (fun c => is_space c = true) seps ->
  Forall (fun w => all_digits 16 w /\ w <> []) ws ->
  Forall (fun w => digits_value 16 w < 2 ^ tc) ws ->
  X <> [] -> Forall (fun c => is_space c = true) X ->
  let v := from_option (digits_value 16) 14 (last ws) in
  v < 2 ^ tc ->
  read_grid line
    (mkStream (list_ascii_of_string "emathgroup" ++ spaced_words seps ws ++ X) true)
  = Ok (n, d,
        Strategy_of_vec
          (fold_left push_bits
             (map (digits_value 16) ws ++ replicate (Z.to_nat n - length ws) v)
             (replicate (Z.to_nat tc) []))
          (if gb =? 0 then GuaranteedBest.No else GuaranteedBest.Yes)
          BelongsInFile.Yes,
        mkStream [] false, line).
Proof.
  intros Hhdr Htc Hshort Hlen Hseps Hws Hok HX Hblank v Hv.
  assert (HXs : starts_with_space X = true).
  { destruct X as [|c X']; [done|]. by apply Forall_cons in Hblank as [? _]. }
  assert (Htail : starts_with_space (spaced_words seps ws ++ X) = true)
    by by apply starts_with_space_spaced.
  assert (Hstale : sscanf_llx (stale_word (list_ascii_of_string "emathgroup") ws)
                   = Ok v).
  { unfold stale_word, v. destruct (last ws) as [w|] eqn:Hlast; [|done].
    apply last_Some in Hlast as [ws' ->].
    apply Forall_app in Hws as [_ [[Hw Hne] _]%Forall_cons].
    apply Forall_app in Hok as [_ [Hlt _]%Forall_cons].
    rewrite sscanf_llx_digits by done. simpl.
    destruct (Z.leb_spec (2 ^ 64) (digits_value 16 w)); [|done].
    assert (2 ^ tc <= 2 ^ 64) by (apply Z.pow_le_mono_r; lia). lia. }
  unfold read_grid. rewrite Hhdr, bind_Ok.
  change (peek (mkStream (list_ascii_of_string "emathgroup" ++ ?Y) true))
    with ("e"%char, mkStream (list_ascii_of_string "emathgroup" ++ Y) true).
  cbv beta iota. change (Ascii.eqb "e" "e") with true. cbv beta iota.
  rewrite read_word_at; [|by repeat constructor|done|done].
  cbv beta iota. rewrite bool_decide_eq_true_2 by done.
  change (assert true A_marker) with (Ok tt : outcome unit). rewrite bind_Ok.
  destruct (Z.leb_spec 0 tc); [|lia].
  change (assert true E_length_error) with (Ok tt : outcome unit).
  rewrite bind_Ok.
  replace (Z.to_nat n) with (length ws + (Z.to_nat n - length ws))%nat at 1 by lia.
  rewrite (read_columns_then tc Htc) by done.
  rewrite (read_columns_blank tc Htc _ _ v) by (done || lia).
  by rewrite bind_Ok, fold_left_app.
Qed.

(** A packed record that is cut short is not refused by the reader.
    When fewer than [n] words follow the marker and only white space
    follows them, up to the end of the file, the reads of the missing
    words fail and leave [word] as it was, so each missing column is
    read again from the last word there was; with no word at all it is
    read from the marker itself, whose first letter is the hexadecimal
    digit e.  Provided the repeated value is below 2^t, the strategy
    with those columns is handed to [preserve_from_file], and the
    outcome of that call is the outcome of the reading.  So the record
    is loaded under its key whenever the key is new and the strategy
    beats the worst case for [n]. *)
Theorem packed_record_cut_short
    (line : list ascii) (n d tc gb : Z)
    (ws : list (list ascii)) (seps X : list ascii) (m : table) :
  (newline ∉ line) ->
  sscanf_header line = Ok (n, d, tc, gb) ->
  0 <= tc <= 63 ->
  (length ws < Z.to_nat n)%nat -> length seps = length ws ->
  Forall (fun c => is_space c = true) seps ->
  Forall (fun w => all_digits 16 w /\ w <> []) ws ->
  Forall (fun w => digits_value 16 w < 2 ^ tc) ws ->
  X <> [] -> Forall (fun c => is_space c = true) X ->
  let v := from_option (digits_value 16) 14 (last ws) in
  v < 2 ^ tc ->
  let s := Strategy_of_vec
             (fold_left push_bits
                (map (digits_value 16) ws ++ replicate (Z.to_nat n - length ws) v)
                (replicate (Z.to_nat tc) []))
             (if gb =? 0 then GuaranteedBest.No else GuaranteedBest.Yes)
             BelongsInFile.Yes in
  let file := line ++ newline :: list_ascii_of_string "emathgroup"
                   ++ spaced_words seps ws ++ X in
  read_solutions_from_file file m = preserve_from_file m n d s /\
  (0 <= d <= n -> m !! (n, d) = None ->
   isBetterThan s (worst_case_strategy n GuaranteedBest.No) = true ->
   read_solutions_from_file file m = Ok (<[(n, d) := s]> m)).
Proof.
  intros Hline Hhdr Htc Hshort Hlen Hseps Hws Hok HX Hblank v Hv s file.
  assert (Hread : read_solutions_from_file file m = preserve_from_file m n d s).
  { unfold read_solutions_from_file, file. cbn [read_loop].
    rewrite getline_app by done.
    rewrite bool_decide_eq_true_2 by (by eapply sscanf_header_head).
    rewrite (read_grid_cut_short line n d tc gb ws seps X) by done.
    rewrite bind_Ok. fold v. fold s.
    destruct (preserve_from_file m n d s) as [m'| | |]; try done.
    rewrite bind_Ok, length_app. cbn [length]. rewrite Nat.add_succ_r.
    by cbn [read_loop getline good]. }
  split; [exact Hread|]. intros Hd Hm Hbetter. rewrite Hread.
  by apply preserve_from_file_fresh.
Qed.

Lemma packed_record_cut_short_witness :
  let line := list_ascii_of_string "N=4 D=1 T=2 guaranteed_best=0" in
  let file := line ++ newline :: list_ascii_of_string "emathgroup 1 2
" in
  read_solutions_from_file file ∅
  = Ok {[ (4, 1) := Strategy_of_vec (rows_of ["1..."; ".111"]%string)
                      GuaranteedBest.No BelongsInFile.Yes ]}.
Proof.
  intros line file.
  refine (proj2 (packed_record_cut_short line 4 1 2 0
                   [list_ascii_of_string "1"; list_ascii_of_string "2"]
                   [" "%char; " "%char] [newline] ∅
                   _ _ _ _ _ _ _ _ _ _ _) _ _ _).
  - by apply no_newline_check.
  - reflexivity.
  - lia.
  - simpl. lia.
  - reflexivity.
  - by repeat constructor.
  - repeat constructor; try done; eexists; reflexivity.
  - repeat constructor.
  - done.
  - by repeat constructor.
  - reflexivity.
  - lia.
  - reflexivity.
  - reflexivity.
Defined.

(** Text between the records.  A line that does not start with [N=]
    is passed over as long as no record has been read; once one has,
    only empty lines may follow a record, and any other line stops the
    run on the assertion about lines after the first grid.  So the same
    comment line is harmless above a record and fatal below it. *)
Theorem comment_line_after_a_record
    (n d : Z) (s : Strategy) (text l X : list ascii) (m : table) :
  storable (n, d) s -> belongs_in_file s = BelongsInFile.Yes ->
  m !! (n, d) = None ->
  write_record n d s = Ok text ->
  (newline ∉ l) -> take 2 l <> list_ascii_of_string "N=" -> l <> [] ->
  read_solutions_from_file (l ++ newline :: text) m = Ok (<[(n, d) := s]> m) /\
  read_solutions_from_file (text ++ l ++ newline :: X) m = AssertFail A_after_grid.
Proof.
  intros Hst Hs Hm Htext Hnl Hhead Hne.
  destruct (read_rest_record n d s m Hst Hs Hm) as (text' & Htext' & Hread).
  rewrite Htext in Htext'. injection Htext' as <-.
  rewrite !read_solutions_from_file_rest. split.
  - rewrite (read_rest_skip false l text [] []) by (split_and!; auto).
    rewrite <- (app_nil_r text), Hread. done.
  - rewrite Hread. unfold read_rest. cbn [buf read_loop].
    rewrite getline_app by done.
    rewrite bool_decide_eq_false_2 by done.
    by rewrite (bool_decide_eq_false_2 (l = [])).
Qed.

Lemma comment_line_after_a_record_witness :
  let s := Strategy_of_vec (rows_of ["11.."; "1.1."]%string)
                           GuaranteedBest.Yes BelongsInFile.Yes in
  let l := list_ascii_of_string "# found by hand" in
  read_solutions_from_file (l ++ newline :: to_string 4 1 s ++ [newline]) ∅
  = Ok {[ (4, 1) := s ]} /\
  read_solutions_from_file ((to_string 4 1 s ++ [newline]) ++ l ++ [newline]) ∅
  = AssertFail A_after_grid.
Proof.
  intros s l.
  apply (comment_line_after_a_record 4 1 s (to_string 4 1 s ++ [newline]) l [] ∅);
    try done.
  - split; [unfold in_int; simpl; lia|]. split; [simpl; lia|].
    split; [split; [reflexivity | repeat constructor]|].
    split; [|split; [left; simpl; lia | reflexivity]].
    repeat (constructor; [repeat (constructor; [by (left + right)|]); constructor|]).
    constructor.
  - by apply no_newline_check.
Defined.

(** ** More animals than the doubling of [bit] can reach *)

Section LargeN.
Variable n : Z.
Hypothesis n_large : 2 ^ 30 < n.

Lemma one_wolf_loop_zero (fuel : nat) : one_wolf_loop fuel n 0 = OutOfFuel.
Proof.
  induction fuel as [|fuel IH]; cbn [one_wolf_loop];
    (destruct (Z.ltb_spec 0 n); [|lia]); [done|].
  change (wrap_int (Z.shiftl 0 1)) with 0. by rewrite IH.
Qed.

Lemma one_wolf_loop_wrapped (fuel : nat) :
  one_wolf_loop fuel n (- 2 ^ 31) = OutOfFuel.
Proof.
  destruct fuel as [|fuel]; cbn [one_wolf_loop];
    (destruct (Z.ltb_spec (- 2 ^ 31) n); [|lia]); [done|].
  change (wrap_int (Z.shiftl (- 2 ^ 31) 1)) with 0. by rewrite one_wolf_loop_zero.
Qed.

Lemma one_wolf_loop_large (k : nat) :
  forall (fuel : nat) r,
    0 <= r -> r + Z.of_nat k = 30 ->
    one_wolf_loop fuel n (2 ^ r) = OutOfFuel.
Proof.
  induction k as [|k IH]; intros fuel r Hr Hk.
  - assert (r = 30) as -> by lia.
    destruct fuel as [|fuel]; cbn [one_wolf_loop];
      (destruct (Z.ltb_spec (2 ^ 30) n); [|lia]); [done|].
    change (wrap_int (Z.shiftl (2 ^ 30) 1)) with (- 2 ^ 31).
    by rewrite one_wolf_loop_wrapped.
  - assert (2 ^ r <= 2 ^ 30) by (apply Z.pow_le_mono_r; lia).
    assert (2 ^ r < 2 ^ 30) by (apply Z.pow_lt_mono_r; lia).
    destruct fuel as [|fuel]; cbn [one_wolf_loop];
      (destruct (Z.ltb_spec (2 ^ r) n); [|lia]); [done|].
    rewrite Z.shiftl_mul_pow2, Z.pow_1_r by lia.
    rewrite wrap_int_small.
    + replace (2 ^ r * 2) with (2 ^ (r + 1)) by (rewrite Z.pow_add_r; lia).
      rewrite (IH fuel (r + 1)); [done | lia | lia].
    + assert (0 < 2 ^ r) by (apply Z.pow_pos_nonneg; lia). lia.
Qed.
End LargeN.

Lemma add_easy_rows_app (ns1 ns2 : list Z) (m : table) :
  add_easy_rows (ns1 ++ ns2) m = add_easy_rows ns1 m ≫= add_easy_rows ns2.
Proof.
  revert m. induction ns1 as [|n ns1 IH]; intros m; [done|].
  cbn [app add_easy_rows]. destruct (add_easy_row _ n m); simpl; [apply IH|done..].
Qed.

Lemma one_wolf_loop_from_one (k : Z) (fuel : nat) :
  2 ^ 30 < k -> one_wolf_loop fuel k 1 = OutOfFuel.
Proof. intros Hk. apply (one_wolf_loop_large k Hk 30 fuel 0); lia. Qed.

Lemma easy_strategy_one_large (k : Z) :
  2 ^ 30 < k -> easy_strategy k 1 = OutOfFuel.
Proof.
  intros Hk. unfold easy_strategy.
  destruct (Z.eqb_spec 1 0); [lia|]. destruct (Z.eqb_spec 1 k); [lia|].
  cbn [orb]. rewrite Z.eqb_refl. unfold perfect_strategy_for_one_wolf.
  by rewrite one_wolf_loop_from_one.
Qed.

Lemma add_easy_row_large (k : Z) (m : table) :
  2 ^ 30 < k -> add_easy_row (seqZ 0 (k + 1)) k m = OutOfFuel.
Proof.
  intros Hk. rewrite (seqZ_cons 0), (seqZ_cons (Z.succ 0)) by lia.
  cbn [add_easy_row].
  assert (easy_strategy k 0 = Ok empty_strategy) as Hzero.
  { unfold easy_strategy. by rewrite Z.eqb_refl. }
  rewrite Hzero, bind_Ok. change (Z.succ 0) with 1.
  by rewrite easy_strategy_one_large.
Qed.

Lemma add_easy_rows_large (b n : Z) (m : table) :
  b = 2 ^ 30 -> b < n -> add_easy_rows (seqZ 0 (n + 1)) m = OutOfFuel.
Proof.
  intros Hb Hn.
  replace (n + 1) with ((b + 1) + (n - b)) by lia.
  rewrite seqZ_app, add_easy_rows_app by lia.
  destruct (add_easy_rows_spec (seqZ 0 (b + 1)) m) as (m1 & Hm1 & _).
  { intros k Hk%elem_of_seqZ. lia. }
  rewrite Hm1, bind_Ok, (seqZ_cons _ (n - b)) by lia.
  cbn [add_easy_rows]. rewrite Z.add_0_l.
  rewrite add_easy_row_large by lia. done.
Qed.

(** For more than 2^30 animals the loop of
    [perfect_strategy_for_one_wolf] does not end: [bit] doubles up to
    2^30, wraps to -2^31 and then to 0, and stays below [n] for ever.
    So [add_easy_solutions] does not return either once its bound is
    above 2^30. *)
Theorem perfect_strategy_for_one_wolf_large_n (n : Z) (fuel : nat) :
  2 ^ 30 < n ->
  one_wolf_loop fuel n 1 = OutOfFuel /\
  perfect_strategy_for_one_wolf n = OutOfFuel /\
  forall m : table, add_easy_solutions m n = OutOfFuel.
Proof.
  intros Hn. split; [|split].
  - by apply one_wolf_loop_from_one.
  - unfold perfect_strategy_for_one_wolf.
    by rewrite one_wolf_loop_from_one.
  - intros m. unfold add_easy_solutions.
    by apply (add_easy_rows_large (2 ^ 30)).
Qed.

Lemma perfect_strategy_for_one_wolf_large_n_witness :
  perfect_strategy_for_one_wolf (2 ^ 30 + 1) = OutOfFuel.
Proof.
  exact (proj1 (proj2 (perfect_strategy_for_one_wolf_large_n (2 ^ 30 + 1) 0
                         ltac:(lia)))).
Defined.

(** ** The width of the packed form *)

Section WordWrap.
Implicit Types (tsts : list row) (w text : list ascii).

Lemma line_widths_app (w : list ascii) :
  newline ∉ w ->
  forall (cur : nat) text,
    line_widths cur (w ++ text) = line_widths (cur + length w) text.
Proof.
  induction w as [|c w IH]; intros Hw cur text.
  - by rewrite Nat.add_0_r.
  - apply not_elem_of_cons in Hw as [Hc Hw]. cbn [app line_widths length].
    destruct (Ascii.eqb_spec c newline) as [->|_]; [done|].
    rewrite IH by done. f_equal. lia.
Qed.

Lemma pack_column_nonneg tsts (c : nat) :
  forall (r : nat) bits v,
    0 <= bits -> pack_column tsts c r bits = Ok v -> 0 <= v.
Proof.
  induction r as [|r IH]; intros bits v Hbits; cbn [pack_column].
  - by intros [= <-].
  - intros (test & _ & (ch & _ & Hrest)%bind_inv)%bind_inv.
    apply IH in Hrest; [done|]. apply Z.lor_nonneg. split.
    + apply Z.mod_pos_bound. lia.
    + by destruct (is_one ch).
Qed.

Lemma to_hex_plain v : 0 <= v -> newline ∉ to_hex v.
Proof.
  intros Hv. destruct (to_hex_digits v Hv) as [Hd _].
  intros Hin. unfold all_digits in Hd. rewrite Forall_forall in Hd.
  destruct (digit_plain 16 newline) as (_ & _ & _ & Hnl & _); [lia|by apply Hd|].
  by rewrite Ascii.eqb_refl in Hnl.
Qed.

Lemma emathgroup_words_widths tsts tc :
  forall (cs : list nat) wordwrap words (cur : nat),
    emathgroup_words tsts tc cs wordwrap = Ok words ->
    wordwrap = Z.of_nat cur -> (cur <= 75)%nat ->
    Forall (fun width => (width <= 75)%nat) (line_widths cur (words ++ [newline])).
Proof.
  induction cs as [|c cs IH]; intros wordwrap words cur; cbn [emathgroup_words].
  - intros [= <-] _ Hcur. cbn [app line_widths]. rewrite Ascii.eqb_refl.
    constructor; [done|]. constructor; [lia | constructor].
  - intros (bits & Hbits & Hrest)%bind_inv Hwrap Hcur.
    apply pack_column_nonneg in Hbits; [|done].
    pose proof (to_hex_plain bits Hbits) as Hplain.
    assert (length (to_hex bits) <= 16)%nat as Hlen.
    { unfold to_hex. etrans; [apply digits_loop_length|]. simpl. lia. }
    cbv zeta in Hrest. destruct (Z.gtb_spec (wordwrap + 1 + Z.of_nat (length (to_hex bits))) 75).
    + apply bind_inv in Hrest as (rest & Hrest & [= <-]).
      cbn [app line_widths]. rewrite Ascii.eqb_refl. constructor; [done|].
      rewrite <- app_assoc, line_widths_app by done.
      eapply IH; [exact Hrest | lia | lia].
    + apply bind_inv in Hrest as (rest & Hrest & [= <-]).
      cbn [app line_widths]. change (Ascii.eqb " " newline) with false. cbv iota.
      rewrite <- app_assoc, line_widths_app by done.
      eapply IH; [exact Hrest | lia | lia].
Qed.

Lemma print_int_length v : (length (print_int v) <= 11)%nat.
Proof.
  unfold print_int. destruct (v <? 0); cbn [length].
  - pose proof (digits_loop_length 10 10 (- v) []). simpl in *. lia.
  - pose proof (digits_loop_length 10 10 v []). simpl in *. lia.
Qed.

Lemma header_line_plain n d s : newline ∉ header_line n d s.
Proof.
  unfold header_line. rewrite !elem_of_app.
  pose proof (print_int_plain n). pose proof (print_int_plain d).
  pose proof (print_int_plain (t s)).
  intros [Hin|[Hin|[Hin|[Hin|[Hin|[Hin|[Hin|Hin]]]]]]]; try done;
    try (revert Hin; by apply no_newline_check).
  apply list_elem_of_singleton in Hin. by destruct (GuaranteedBest.eqb _ _).
Qed.

Lemma header_line_length n d s : (length (header_line n d s) <= 59)%nat.
Proof.
  unfold header_line. rewrite !length_app.
  pose proof (print_int_length n). pose proof (print_int_length d).
  pose proof (print_int_length (t s)). simpl. lia.
Qed.
End WordWrap.

(** No line of the packed form is longer than 75 characters: the
    header has at most 59, the first line of words starts with the ten
    characters of the marker, and a word that would take a line past 75
    goes to a new line. *)
Theorem to_emathgroup_string_width (n d : Z) (s : Strategy) (text : list ascii) :
  to_emathgroup_string n d s = Ok text ->
  Forall (fun width => (width <= 75)%nat) (line_widths 0 text).
Proof.
  unfold to_emathgroup_string. intros (words & Hwords & Heq)%bind_inv.
  assert (text = header n d s ++ list_ascii_of_string "emathgroup"
                   ++ words ++ [newline]) as -> by congruence.
  unfold header. rewrite <- !app_assoc.
  rewrite line_widths_app by apply header_line_plain.
  cbn [app line_widths]. rewrite Ascii.eqb_refl. constructor.
  - pose proof (header_line_length n d s). lia.
  - rewrite (line_widths_app (list_ascii_of_string "emathgroup"))
      by (by apply no_newline_check).
    eapply emathgroup_words_widths; [exact Hwords | done | simpl; lia].
Qed.

Lemma to_emathgroup_string_width_witness :
  let s := Strategy_of_vec
             (rows_of ["111......"; "...111..."; "......111";
                       "1..1..1.."; ".1..1..1."; "..1..1..1"]%string)
             GuaranteedBest.No BelongsInFile.Yes in
  exists text, to_emathgroup_string 9 2 s = Ok text /\
    Forall (fun width => (width <= 75)%nat) (line_widths 0 text).
Proof.
  intros s. eexists. split; [vm_compute; reflexivity|].
  apply (to_emathgroup_string_width 9 2 s). vm_compute. reflexivity.
Defined.
